(** * libCacheSim: the concurrent chained hash table and the SLRU policy

    A shallow embedding of
    - [dataStructure/hashtable/cChainedHashTable.c] (module [CHT]) and
    - [cache/eviction/SLRU.c] (module [SLRU]),
    with the properties the specification states about them and further
    properties of the two files: invariants kept over sequences of calls,
    termination, round trips and the behaviour at the edges.

    The hash table is modelled over an explicit object store: a
    [cache_obj_t *] is an address, [NULL] is [None], and the
    [cache_obj_t **] cursor of [find_pointer_locked] is a [cell], either a
    slot of [ptr_table] or the [hash_next] field of an object.  Loops that
    the C code does not bound take a [fuel] argument; running out of it is
    the outcome [Timeout], a dereference of an unmapped address or an
    out-of-range array access is [Undefined].  The reader/writer locks only
    delimit critical sections and are not part of the sequential model.

    The SLRU policy is modelled over the list of its tiers.  The LRU tier
    it calls into ([LRU_check], [LRU_insert], [LRU_evict], [LRU_remove],
    [to_evict] and the helpers of the cache base that [SLRU_remove] uses)
    is not among the sources; it follows the contract the specification
    gives for it, with the recency list as a list from the MRU to the LRU
    end. *)

From Stdlib Require Import ZArith Lia.
From stdpp Require Import base option list gmap.

#[local] Set Warnings "-clear-no-such-hyp".
Local Open Scope Z_scope.

(** ** Outcomes of a run *)

Inductive outcome (A : Type) : Type :=
| Done (a : A)
| Timeout
| Undefined.
Arguments Done {A} a.
Arguments Timeout {A}.
Arguments Undefined {A}.

#[global] Instance outcome_ret : MRet outcome := fun A a => Done a.
#[global] Instance outcome_bind : MBind outcome := fun A B f m =>
  match m with
  | Done a => f a
  | Timeout => Timeout
  | Undefined => Undefined
  end.

Definition of_option {A} (o : option A) : outcome A :=
  match o with
  | Some a => Done a
  | None => Undefined
  end.

(** [uint64_t] arithmetic wraps around. *)
Definition wrap64 (z : Z) : Z := z mod 2 ^ 64.

Module CHT.

Definition addr := positive.

(** The fields of [cache_obj_t] the hash table reads or writes. *)
Record cache_obj_t := mk_obj {
  obj_id : Z;
  obj_size : Z;
  hash_next : option addr;
  in_cache : bool
}.

(** The table: [hashpower], the array of bucket heads and the 64-bit
    object counter (the structure is declared in a header that is not in the
    sources). *)
Record hashtable_t := mk_table {
  hashpower : Z;
  ptr_table : list (option addr);
  n_obj : Z
}.

(** The table together with the objects its pointers refer to. *)
Record world := mk_world {
  ht : hashtable_t;
  mem : gmap addr cache_obj_t
}.

(** A [cache_obj_t **]: the address of a bucket head or of a [hash_next]. *)
Inductive cell :=
| BucketCell (bucket_id : Z)
| NextCell (a : addr).

(** Modelled from the spec: [hashsize] (hashtable definitions header, not in
    the sources): the table has [1 << hashpower] buckets. *)
Definition hashsize (n : Z) : Z := Z.shiftl 1 n.

(** Modelled from the spec: [hashmask] (same header): the bucket count
    minus one, so that [hash & hashmask] is a bucket index. *)
Definition hashmask (n : Z) : Z := hashsize n - 1.

(** Modelled from the spec: [cache_obj_set_in_cache] (cache object header,
    not in the sources) assigns the [in_cache] flag. *)
Definition cache_obj_set_in_cache (o : cache_obj_t) (b : bool) : cache_obj_t :=
  mk_obj (obj_id o) (obj_size o) (hash_next o) b.

Definition set_hash_next (o : cache_obj_t) (p : option addr) : cache_obj_t :=
  mk_obj (obj_id o) (obj_size o) p (in_cache o).

Definition set_n_obj (h : hashtable_t) (n : Z) : hashtable_t :=
  mk_table (hashpower h) (ptr_table h) n.

Definition set_bucket (h : hashtable_t) (b : Z) (p : option addr) : hashtable_t :=
  mk_table (hashpower h) (<[Z.to_nat b := p]> (ptr_table h)) (n_obj h).

(** [*a] for an object pointer. *)
Definition deref (w : world) (a : addr) : outcome cache_obj_t :=
  of_option (mem w !! a).

(** [a->field = ...]: the object must be mapped. *)
Definition update_obj (w : world) (a : addr) (f : cache_obj_t → cache_obj_t)
  : outcome world :=
  o ← deref w a; Done (mk_world (ht w) (<[a := f o]> (mem w))).

(** [*ptr] *)
Definition load (w : world) (ptr : cell) : outcome (option addr) :=
  match ptr with
  | BucketCell b =>
      if decide (0 ≤ b) then of_option (ptr_table (ht w) !! Z.to_nat b)
      else Undefined
  | NextCell a => o ← deref w a; Done (hash_next o)
  end.

(** [*ptr = p] *)
Definition store (w : world) (ptr : cell) (p : option addr) : outcome world :=
  match ptr with
  | BucketCell b =>
      if decide (0 ≤ b < Z.of_nat (length (ptr_table (ht w))))
      then Done (mk_world (set_bucket (ht w) b p) (mem w))
      else Undefined
  | NextCell a => update_obj w a (λ o, set_hash_next o p)
  end.

Section Table.

(** [get_hash_value_int_64] (hash header, not in the sources). *)
Variable get_hash_value_int_64 : Z → Z.

Definition bucket_of (h : hashtable_t) (id : Z) : Z :=
  Z.land (get_hash_value_int_64 id) (hashmask (hashpower h)).

(** The [while] of [find_pointer_locked], started at cell [ptr]. *)
Fixpoint find_pointer_from (fuel : nat) (w : world) (ptr : cell) (id : Z)
  : outcome cell :=
  match fuel with
  | O => Timeout
  | S fuel' =>
      p ← load w ptr;
      match p with
      | None => Done ptr
      | Some a =>
          o ← deref w a;
          if decide (id ≠ obj_id o)
          then find_pointer_from fuel' w (NextCell a) id
          else Done ptr
      end
  end.

Definition find_pointer_locked (fuel : nat) (w : world) (bucket_id : Z) (id : Z)
  : outcome cell :=
  find_pointer_from fuel w (BucketCell bucket_id) id.

Definition concurrent_chained_hashtable_find_obj_id
  (fuel : nat) (w : world) (id : Z) : outcome (option addr) :=
  let hv := bucket_of (ht w) id in
  ptr ← find_pointer_locked fuel w hv id;
  load w ptr.

Definition concurrent_chained_hashtable_insert_obj
  (fuel : nat) (w : world) (cache_obj : addr) : outcome (option addr * world) :=
  new ← deref w cache_obj;
  let hv := bucket_of (ht w) (obj_id new) in
  ptr ← find_pointer_locked fuel w hv (obj_id new);
  old ← load w ptr;
  next ← match old with
         | None => Done None
         | Some a => o ← deref w a; Done (hash_next o)
         end;
  w1 ← update_obj w cache_obj (λ o, set_hash_next o next);
  w2 ← update_obj w1 cache_obj (λ o, cache_obj_set_in_cache o false);
  w3 ← store w2 ptr (Some cache_obj);
  match old with
  | Some a =>
      w4 ← update_obj w3 a (λ o, cache_obj_set_in_cache o false);
      Done (old, w4)
  | None =>
      Done (old, mk_world (set_n_obj (ht w3) (wrap64 (n_obj (ht w3) + 1)))
                          (mem w3))
  end.

Definition concurrent_chained_hashtable_delete_obj_id
  (fuel : nat) (w : world) (id : Z) : outcome (option addr * world) :=
  let hv := bucket_of (ht w) id in
  ptr ← find_pointer_locked fuel w hv id;
  result ← load w ptr;
  match result with
  | Some a =>
      w1 ← update_obj w a (λ o, cache_obj_set_in_cache o false);
      o ← deref w1 a;
      w2 ← store w1 ptr (hash_next o);
      Done (result, mk_world (set_n_obj (ht w2) (wrap64 (n_obj (ht w2) - 1)))
                             (mem w2))
  | None => Done (result, w)
  end.

(** [next_rand] (math helpers, not in the sources) is a stream of draws:
    [rnd 0] is the next value, [rnd 1] the one after, and so on. *)
Fixpoint rand_obj_loop (fuel : nat) (rnd : nat → Z) (w : world) (pos : Z)
  : outcome (option addr) :=
  match fuel with
  | O => Timeout
  | S fuel' =>
      p ← load w (BucketCell pos);
      match p with
      | None =>
          rand_obj_loop fuel' (λ n, rnd (S n)) w
                        (Z.land (rnd O) (hashmask (hashpower (ht w))))
      | Some _ => load w (BucketCell pos)
      end
  end.

Definition concurrent_chained_hashtable_rand_obj
  (fuel : nat) (rnd : nat → Z) (w : world) : outcome (option addr) :=
  rand_obj_loop fuel (λ n, rnd (S n)) w
                (Z.land (rnd O) (hashmask (hashpower (ht w)))).

End Table.

(** *** Chains, invariants and the other predicates of the statements *)

(** [lseg m p l q]: starting from pointer [p], following [hash_next] visits
    exactly the objects [l] and ends at pointer [q]. *)
Fixpoint lseg (m : gmap addr cache_obj_t) (p : option addr) (l : list addr)
    (q : option addr) : Prop :=
  match l with
  | [] => p = q
  | a :: l' =>
      p = Some a ∧
      match m !! a with
      | Some o => lseg m (hash_next o) l' q
      | None => False
      end
  end.

(** A bucket chain is a segment that ends in [NULL]. *)
Definition chain (m : gmap addr cache_obj_t) (p : option addr) (l : list addr)
  : Prop := lseg m p l None.

(** The cell that points past the segment [l] started from cell [ptr]. *)
Definition end_cell (ptr : cell) (l : list addr) : cell :=
  match last l with
  | Some a => NextCell a
  | None => ptr
  end.

(** The object at [a] carries the id [k]. *)
Definition has_id (m : gmap addr cache_obj_t) (k : Z) (a : addr) : Prop :=
  obj_id <$> m !! a = Some k.

#[global] Instance has_id_dec m k a : Decision (has_id m k a).
Proof. unfold has_id. apply _. Defined.

(** The walk stops at a cell holding [q] when [q] is [NULL] or points at an
    object with the wanted id. *)
Definition stops (m : gmap addr cache_obj_t) (k : Z) (q : option addr) : Prop :=
  match q with
  | None => True
  | Some a => has_id m k a
  end.

(** Two object stores agree on every id, on every flag, on every link. *)
Definition same_ids (m m' : gmap addr cache_obj_t) : Prop :=
  ∀ a, obj_id <$> m' !! a = obj_id <$> m !! a.

Definition same_flags (m m' : gmap addr cache_obj_t) : Prop :=
  ∀ a, in_cache <$> m' !! a = in_cache <$> m !! a.

Definition same_links (m m' : gmap addr cache_obj_t) : Prop :=
  ∀ a, hash_next <$> m' !! a = hash_next <$> m !! a.

(** The chain of bucket [b] visits exactly the objects [l]. *)
Definition bucket_chain (w : world) (b : Z) (l : list addr) : Prop :=
  match ptr_table (ht w) !! Z.to_nat b with
  | Some p => chain (mem w) p l
  | None => False
  end.

(** The ids stored in the objects [l] are pairwise distinct. *)
Definition distinct_ids (m : gmap addr cache_obj_t) (l : list addr) : Prop :=
  NoDup ((λ a, obj_id <$> m !! a) <$> l).

(** Between two states, every flag is what it was or has become [false]. *)
Definition flags_only_lowered (w w' : world) : Prop :=
  ∀ a, in_cache <$> mem w' !! a = in_cache <$> mem w !! a ∨
       in_cache <$> mem w' !! a = Some false.

(** The operations of the table (its other entry points only unpack an
    id from a request or an object and call one of these); the lookup and
    the random probe do not produce a new state. *)
Inductive op :=
| Find (k : Z)
| Insert (n : addr)
| Delete (k : Z)
| RandObj (rnd : nat → Z).

(** The bucket index of the [i]-th draw. *)
Definition probe (rnd : nat → Z) (w : world) (i : nat) : Z :=
  Z.land (rnd i) (hashmask (hashpower (ht w))).

(** The head of bucket [pos], when [pos] is a valid index. *)
Definition bucket_head (w : world) (pos : Z) : option (option addr) :=
  if decide (0 ≤ pos) then ptr_table (ht w) !! Z.to_nat pos else None.

Section Invariant.

Variable get_hash_value_int_64 : Z → Z.

(** The object at [a] belongs into bucket [b]. *)
Definition homed (w : world) (b : Z) (a : addr) : Prop :=
  ∃ o, mem w !! a = Some o ∧
       bucket_of get_hash_value_int_64 (ht w) (obj_id o) = b.

(** Every bucket heads a finite chain of objects that belong there and
    carry pairwise distinct ids. *)
Definition table_wf (w : world) : Prop :=
  0 ≤ hashpower (ht w) ∧
  Z.of_nat (length (ptr_table (ht w))) = 2 ^ hashpower (ht w) ∧
  ∀ b p, 0 ≤ b → ptr_table (ht w) !! Z.to_nat b = Some p →
    ∃ l, chain (mem w) p l ∧ distinct_ids (mem w) l ∧ Forall (homed w b) l.

(** One operation: the new state and the objects it touched (the object
    inserted, the object replaced, the object removed). *)
Definition step (fuel : nat) (w : world) (o : op) : outcome (world * list addr) :=
  match o with
  | Find k =>
      r ← concurrent_chained_hashtable_find_obj_id get_hash_value_int_64 fuel w k;
      Done (w, [])
  | Insert n =>
      r ← concurrent_chained_hashtable_insert_obj get_hash_value_int_64 fuel w n;
      Done (snd r, n :: option_list (fst r))
  | Delete k =>
      r ← concurrent_chained_hashtable_delete_obj_id get_hash_value_int_64 fuel w k;
      Done (snd r, option_list (fst r))
  | RandObj rnd =>
      r ← concurrent_chained_hashtable_rand_obj fuel rnd w;
      Done (w, [])
  end.

Fixpoint run (fuel : nat) (w : world) (ops : list op) : outcome (world * list addr) :=
  match ops with
  | [] => Done (w, [])
  | o :: ops' =>
      r ← step fuel w o;
      r' ← run fuel (fst r) ops';
      Done (fst r', snd r ++ snd r')
  end.

End Invariant.

(** *** The remaining entry points of the table *)

(** [memset (ptr_table, 0, size)]: the first [n] slots become [NULL]. *)
Definition zero_prefix (n : nat) (slots : list (option addr))
  : list (option addr) :=
  replicate (n `min` length slots) None ++ drop n slots.

(** [create_concurrent_chained_hashtable].  [allocated] is what the
    allocation of the bucket array holds when it is handed out (the
    allocation macro is not in the sources, so nothing is assumed about it).
    The number of slots to clear is computed from the [hashpower] field of
    the structure that the first [memset] has just zeroed; the parameter is
    stored afterwards. *)
Definition create_concurrent_chained_hashtable
  (hashpower : Z) (allocated : list (option addr)) : hashtable_t :=
  let zeroed := mk_table 0 [] 0 in
  let size := Z.to_nat (hashsize (CHT.hashpower zeroed)) in
  mk_table hashpower (zero_prefix size allocated) 0.

Section Entry_points.

Variable get_hash_value_int_64 : Z → Z.

(** [concurrent_chained_hashtable_find_obj]: the lookup by the id of a given
    object. *)
Definition concurrent_chained_hashtable_find_obj
  (fuel : nat) (w : world) (obj_to_find : addr) : outcome (option addr) :=
  o ← deref w obj_to_find;
  concurrent_chained_hashtable_find_obj_id get_hash_value_int_64 fuel w (obj_id o).

(** [concurrent_chained_hashtable_delete]: the deletion by the id of a
    given object; the result of the deletion is dropped. *)
Definition concurrent_chained_hashtable_delete
  (fuel : nat) (w : world) (cache_obj : addr) : outcome world :=
  o ← deref w cache_obj;
  r ← concurrent_chained_hashtable_delete_obj_id get_hash_value_int_64 fuel w
        (obj_id o);
  Done (snd r).

(** [concurrent_chained_hashtable_try_delete]: the same, reporting
    [result != NULL]. *)
Definition concurrent_chained_hashtable_try_delete
  (fuel : nat) (w : world) (cache_obj : addr) : outcome (bool * world) :=
  o ← deref w cache_obj;
  r ← concurrent_chained_hashtable_delete_obj_id get_hash_value_int_64 fuel w
        (obj_id o);
  Done (bool_decide (fst r ≠ None), snd r).

End Entry_points.

(** The chains of all buckets, in the order of the buckets. *)
Definition chains_of (w : world) (chains : list (list addr)) : Prop :=
  Forall2 (chain (mem w)) (ptr_table (ht w)) chains.

(** [n_obj] is the number of linked objects (as a 64-bit counter). *)
Definition counted (w : world) : Prop :=
  ∃ chains, chains_of w chains ∧
            n_obj (ht w) = wrap64 (Z.of_nat (length (concat chains))).

(** *** A table with two buckets *)

(** Ids hash to themselves; bucket 0 holds the objects 1 (id 10) and 2
    (id 20); the objects 3 (id 20) and 4 (id 30) are not linked yet. *)
Definition ex_mem : gmap addr cache_obj_t :=
  <[1%positive := mk_obj 10 1 (Some 2%positive) true]>
    (<[2%positive := mk_obj 20 1 None true]>
       (<[3%positive := mk_obj 20 5 None true]>
          (<[4%positive := mk_obj 30 1 None true]> ∅))).

Definition ex_world : world :=
  mk_world (mk_table 1 [Some 1%positive; None] 2) ex_mem.

(** A table of one bucket without objects. *)
Definition ex_empty : world := mk_world (mk_table 0 [None] 0) ∅.

(** A table of one bucket whose only object (id 10) points to itself. *)
Definition ex_cyclic : world :=
  mk_world (mk_table 0 [Some 1%positive] 1)
           (<[1%positive := mk_obj 10 1 (Some 1%positive) true]> ∅).

End CHT.

Module SLRU.

Inductive cache_ck_res_e :=
| cache_ck_hit
| cache_ck_miss
| cache_ck_expired.

#[global] Instance cache_ck_res_e_eq_dec : EqDecision cache_ck_res_e.
Proof. solve_decision. Defined.

(** The declarations of the request, object and cache structures are not in
    the sources; sizes are kept as unbounded integers. *)
Record request_t := mk_req {
  req_obj_id : Z;
  req_obj_size : Z
}.

Record cache_obj_t := mk_obj {
  obj_id : Z;
  obj_size : Z
}.

(** Modelled from the spec: the LRU tier (LRU policy file, not in the
    sources): a byte budget, its current usage, the per-object overhead
    and the recency list from the MRU end ([q_head]) to the LRU end
    ([q_tail]). *)
Record lru_t := mk_lru {
  cache_size : Z;
  occupied_size : Z;
  per_obj_overhead : Z;
  q : list cache_obj_t
}.

Record SLRU_params_t := mk_params {
  n_seg : Z;
  LRUs : list lru_t
}.

(** The SLRU [cache_t] itself: [total_cache_size] is its [cache_size] field
    and [overhead] its [per_obj_overhead] field (the tiers are [cache_t]s of
    their own in C, each with the same fields, here [lru_t]), together with
    the [eviction_params]. *)
Record cache_t := mk_cache {
  total_cache_size : Z;
  overhead : Z;
  eviction_params : SLRU_params_t
}.

Record common_cache_params_t := mk_common {
  param_cache_size : Z;
  param_per_obj_overhead : Z
}.

Definition create_cache_obj_from_request (req : request_t) : cache_obj_t :=
  mk_obj (req_obj_id req) (req_obj_size req).

Definition copy_cache_obj_to_request (o : cache_obj_t) : request_t :=
  mk_req (obj_id o) (obj_size o).

(** [LRUs[i]] and [LRUs[i] = t]; tier indices ([int i] in C) never become
    negative and are kept as [nat]. *)
Definition tier (cache : cache_t) (i : nat) : outcome lru_t :=
  of_option (LRUs (eviction_params cache) !! i).

Definition set_tier (cache : cache_t) (i : nat) (t : lru_t) : cache_t :=
  mk_cache (total_cache_size cache) (overhead cache)
    (mk_params (n_seg (eviction_params cache))
               (<[i := t]> (LRUs (eviction_params cache)))).

(** A loop [while (cond) body] over a state, bounded by [fuel]. *)
Definition while_loop {S : Type} (cond : S → outcome bool) (body : S → outcome S)
  : nat → S → outcome S :=
  fix go (fuel : nat) (s : S) : outcome S :=
    match fuel with
    | O => Timeout
    | Datatypes.S fuel' =>
        b ← cond s;
        if b : bool then s' ← body s; go fuel' s' else Done s
    end.

Section Policy.

(** The tier's boolean expired signal; the TTL engine is an external
    collaborator. *)
Variable is_expired : cache_obj_t → request_t → bool.

Definition has_id (id : Z) (o : cache_obj_t) : bool := bool_decide (obj_id o = id).

(** Unlink the first object with the given id. *)
Fixpoint unlink (id : Z) (l : list cache_obj_t) : list cache_obj_t :=
  match l with
  | [] => []
  | o :: l' => if has_id id o then l' else o :: unlink id l'
  end.

(** Modelled from the spec: [LRU_init]: an empty tier with the given
    budget. *)
Definition LRU_init (p : common_cache_params_t) : lru_t :=
  mk_lru (param_cache_size p) 0 (param_per_obj_overhead p) [].

(** Modelled from the spec: [LRU_check] returns Hit, Miss or Expired; on a
    Hit with [update_cache] the matched node moves to the MRU end. *)
Definition LRU_check (t : lru_t) (req : request_t) (update_cache : bool)
  : cache_ck_res_e * lru_t :=
  match List.find (has_id (req_obj_id req)) (q t) with
  | None => (cache_ck_miss, t)
  | Some o =>
      if is_expired o req then (cache_ck_expired, t)
      else (cache_ck_hit,
            if update_cache
            then mk_lru (cache_size t) (occupied_size t) (per_obj_overhead t)
                        (o :: unlink (req_obj_id req) (q t))
            else t)
  end.

(** Modelled from the spec: [LRU_insert] assumes space has been made, places
    the node at the MRU end and updates [occupied_size]. *)
Definition LRU_insert (t : lru_t) (req : request_t) : lru_t :=
  mk_lru (cache_size t)
         (occupied_size t + (req_obj_size req + per_obj_overhead t))
         (per_obj_overhead t)
         (create_cache_obj_from_request req :: q t).

(** Modelled from the spec: [LRU_evict] removes the LRU-end node, hands it
    to the caller and updates [occupied_size]; the spec defines nothing for
    an empty tier. *)
Definition LRU_evict (t : lru_t) : outcome (cache_obj_t * lru_t) :=
  match last (q t) with
  | None => Undefined
  | Some o =>
      Done (o, mk_lru (cache_size t)
                      (occupied_size t - (obj_size o + per_obj_overhead t))
                      (per_obj_overhead t)
                      (removelast (q t)))
  end.

(** Modelled from the spec: [cache_evict_LRU], the forced eviction of the
    LRU-end node with no receiver ([evicted_obj == NULL]). *)
Definition cache_evict_LRU (t : lru_t) : outcome lru_t :=
  r ← LRU_evict t; Done (snd r).

(** Modelled from the spec: [LRU_remove] unlinks by [obj_id]; an absent id
    only produces a warning. *)
Definition LRU_remove (t : lru_t) (id : Z) : lru_t :=
  match List.find (has_id id) (q t) with
  | None => t
  | Some o =>
      mk_lru (cache_size t)
             (occupied_size t - (obj_size o + per_obj_overhead t))
             (per_obj_overhead t)
             (unlink id (q t))
  end.

(** Modelled from the spec: [cache_struct_init] copies the common parameters
    into the new cache. *)
Definition cache_struct_init (p : common_cache_params_t) (params : SLRU_params_t)
  : cache_t :=
  mk_cache (param_cache_size p) (param_per_obj_overhead p) params.

(** [SLRU_init]: the cache keeps the requested size, every tier gets
    [cache_size / n_seg]. *)
Definition SLRU_init (ccache_params : common_cache_params_t) (init_n_seg : Z)
  : outcome cache_t :=
  if decide (init_n_seg = 0) then Undefined
  else
    let tier_params :=
      mk_common (param_cache_size ccache_params / init_n_seg)
                (param_per_obj_overhead ccache_params) in
    Done (cache_struct_init ccache_params
            (mk_params init_n_seg
               (replicate (Z.to_nat init_n_seg) (LRU_init tier_params)))).

(** [LRUs[i]->occupied_size + size + cache->per_obj_overhead >
     LRUs[i]->cache_size] *)
Definition is_full (cache : cache_t) (i : nat) (size : Z) : outcome bool :=
  t ← tier cache i;
  Done (bool_decide (occupied_size t + size + overhead cache > cache_size t)).

(** [SLRU_cool]: the request argument is only handed on to [LRU_evict],
    and the evicted object travels by value ([evicted_obj], then
    [req_local]). *)
Fixpoint SLRU_cool (fuel : nat) (cache : cache_t) (i : nat) : outcome cache_t :=
  match fuel with
  | O => Timeout
  | S fuel' =>
      t ← tier cache i;
      r ← LRU_evict t;
      let evicted_obj := fst r in
      let cache1 := set_tier cache i (snd r) in
      if decide (i = 0%nat) then Done cache1
      else
        cache2 ← while_loop (λ c, is_full c (i - 1) (obj_size evicted_obj))
                            (λ c, SLRU_cool fuel' c (i - 1)) fuel' cache1;
        tl ← tier cache2 (i - 1);
        Done (set_tier cache2 (i - 1)
                (LRU_insert tl (copy_cache_obj_to_request evicted_obj)))
  end.

(** The [for] loop of [SLRU_check] from index [i] with [n] iterations to
    go.  The request is a value here, so that [req->obj_id = evicted_obj_id]
    has nothing to restore. *)
Fixpoint SLRU_check_from (fuel : nat) (n : nat) (i : nat) (cache : cache_t)
    (req : request_t) (update_cache : bool) : outcome (cache_ck_res_e * cache_t) :=
  match n with
  | O => Done (cache_ck_miss, cache)
  | S n' =>
      t ← tier cache i;
      let r := LRU_check t req update_cache in
      let cache1 := set_tier cache i (snd r) in
      match fst r with
      | cache_ck_hit =>
          if decide (Z.of_nat i ≠ n_seg (eviction_params cache) - 1) then
            t1 ← tier cache1 i;
            let cache2 := set_tier cache1 i (LRU_remove t1 (req_obj_id req)) in
            cache3 ← while_loop (λ c, is_full c (i + 1) (req_obj_size req))
                                (λ c, SLRU_cool fuel c (i + 1)) fuel cache2;
            tu ← tier cache3 (i + 1);
            Done (cache_ck_hit, set_tier cache3 (i + 1) (LRU_insert tu req))
          else Done (cache_ck_hit, cache1)
      | cache_ck_expired => Done (cache_ck_expired, cache1)
      | cache_ck_miss => SLRU_check_from fuel n' (S i) cache1 req update_cache
      end
  end.

Definition SLRU_check (fuel : nat) (cache : cache_t) (req : request_t)
    (update_cache : bool) : outcome (cache_ck_res_e * cache_t) :=
  SLRU_check_from fuel (Z.to_nat (n_seg (eviction_params cache))) 0 cache req
                  update_cache.

Definition SLRU_evict (cache : cache_t) : outcome cache_t :=
  t ← tier cache 0;
  t' ← cache_evict_LRU t;
  Done (set_tier cache 0 t').

(** The [for] loop of [SLRU_insert] and, once it has run to its end, the
    eviction path. *)
Fixpoint SLRU_insert_from (fuel : nat) (n : nat) (i : nat) (cache : cache_t)
    (req : request_t) : outcome cache_t :=
  match n with
  | O =>
      if decide (Z.of_nat i = n_seg (eviction_params cache)) then
        cache1 ← while_loop (λ c, is_full c 0 (req_obj_size req))
                            SLRU_evict fuel cache;
        t0 ← tier cache1 0;
        Done (set_tier cache1 0 (LRU_insert t0 req))
      else Done cache
  | S n' =>
      full ← is_full cache i (req_obj_size req);
      if full : bool then SLRU_insert_from fuel n' (S i) cache req
      else t ← tier cache i; Done (set_tier cache i (LRU_insert t req))
  end.

Definition SLRU_insert (fuel : nat) (cache : cache_t) (req : request_t)
  : outcome cache_t :=
  SLRU_insert_from fuel (Z.to_nat (n_seg (eviction_params cache))) 0 cache req.

Definition SLRU_get (fuel : nat) (cache : cache_t) (req : request_t)
  : outcome (cache_ck_res_e * cache_t) :=
  r ← SLRU_check fuel cache req true;
  let ret := fst r in
  if decide (ret = cache_ck_miss ∨ ret = cache_ck_expired) then
    if decide (req_obj_size req + overhead (snd r) > total_cache_size (snd r))
    then Done (ret, snd r)
    else cache' ← SLRU_insert fuel (snd r) req; Done (ret, cache')
  else Done (ret, snd r).

End Policy.

(** *** Accounting, invariants and the other predicates of the statements *)

Definition tiers (c : cache_t) : list lru_t := LRUs (eviction_params c).

(** The budget [SLRU_init] gives to every tier. *)
Definition tier_capacity (c : cache_t) : Z :=
  total_cache_size c / n_seg (eviction_params c).

(** The bytes the objects [l] count for, with overhead [oh] each. *)
Fixpoint used (oh : Z) (l : list cache_obj_t) : Z :=
  match l with
  | [] => 0
  | o :: l' => obj_size o + oh + used oh l'
  end.

(** How many objects of [l] carry the id [k]. *)
Fixpoint occurrences (k : Z) (l : list cache_obj_t) : nat :=
  match l with
  | [] => 0
  | o :: l' => (if has_id k o then 1 else 0) + occurrences k l'
  end.

(** A tier whose accounting is exact and within its budget. *)
Definition tier_ok (oh cap : Z) (t : lru_t) : Prop :=
  per_obj_overhead t = oh ∧
  cache_size t = cap ∧
  occupied_size t = used oh (q t) ∧
  Forall (λ o, 0 ≤ obj_size o + oh) (q t) ∧
  occupied_size t ≤ cache_size t.

(** The invariant of the SLRU cache: [n_seg] tiers of equal budget, each
    with exact accounting and not over its budget. *)
Definition wf (c : cache_t) : Prop :=
  Z.of_nat (length (tiers c)) = n_seg (eviction_params c) ∧
  Forall (tier_ok (overhead c) (tier_capacity c)) (tiers c).

(** No tier holds an object with id [k]. *)
Definition absent (c : cache_t) (k : Z) : Prop :=
  Forall (λ t, occurrences k (q t) = 0%nat) (tiers c).

(** What no SLRU operation changes. *)
Definition same_shape (c c' : cache_t) : Prop :=
  total_cache_size c' = total_cache_size c ∧
  overhead c' = overhead c ∧
  n_seg (eviction_params c') = n_seg (eviction_params c) ∧
  length (tiers c') = length (tiers c).

(** The tier [t] without its LRU-end object [e]. *)
Definition evicted (t : lru_t) (e : cache_obj_t) (q' : list cache_obj_t) : lru_t :=
  mk_lru (cache_size t)
         (occupied_size t - (obj_size e + per_obj_overhead t))
         (per_obj_overhead t) q'.

(** The number of objects in tier [i]. *)
Definition tier_length (i : nat) (c : cache_t) : nat :=
  match tiers c !! i with
  | Some t => length (q t)
  | None => 0
  end.

(** [LRUs[i]] has no room for [size] more bytes (plus the overhead). *)
Definition tier_full (c : cache_t) (t : lru_t) (size : Z) : Prop :=
  occupied_size t + size + overhead c > cache_size t.

#[global] Instance tier_full_dec c t size : Decision (tier_full c t size).
Proof. unfold tier_full. apply _. Defined.

(** The tier after [m] evictions from its LRU end. *)
Fixpoint evict_n (m : nat) (t : lru_t) : lru_t :=
  match m with
  | O => t
  | S m' =>
      match LRU_evict t with
      | Done r => evict_n m' (snd r)
      | _ => t
      end
  end.

(** The cache with other tiers in place of its own. *)
Definition with_tiers (c : cache_t) (l : list lru_t) : cache_t :=
  mk_cache (total_cache_size c) (overhead c)
           (mk_params (n_seg (eviction_params c)) l).

(** The promotion of the requested object out of tier [i], as the Hit
    branch of [SLRU_check] performs it. *)
Definition promote (fuel : nat) (c : cache_t) (i : nat) (req : request_t)
  : outcome (cache_ck_res_e * cache_t) :=
  t1 ← tier c i;
  let cache2 := set_tier c i (LRU_remove t1 (req_obj_id req)) in
  cache3 ← while_loop (λ c', is_full c' (i + 1) (req_obj_size req))
                      (λ c', SLRU_cool fuel c' (i + 1)) fuel cache2;
  tu ← tier cache3 (i + 1);
  Done (cache_ck_hit, set_tier cache3 (i + 1) (LRU_insert tu req)).

(** The sum of the tiers' budgets. *)
Definition sum_capacity (c : cache_t) : Z :=
  foldr (λ t acc, cache_size t + acc) 0 (tiers c).

(** *** The cascade of [SLRU_cool], as the specification describes it *)

(** [while (cond) body] as a relation: [body] is repeated as long as [cond]
    holds, and the state in which it no longer holds is the result. *)
Inductive repeat_while {S : Type} (cond : S → Prop) (body : S → S → Prop)
  : S → S → Prop :=
| repeat_done s : ¬ cond s → repeat_while cond body s s
| repeat_step s s1 s2 :
    cond s → body s s1 → repeat_while cond body s1 s2 →
    repeat_while cond body s s2.

(** Tier [j] cannot fit [size] more bytes (plus the overhead). *)
Definition cannot_fit (j : nat) (size : Z) (c : cache_t) : Prop :=
  ∃ t, tiers c !! j = Some t ∧ tier_full c t size.

(** The specification of [cool(i)] (4.4, Cool), to compare [SLRU_cool]
    with: the LRU-end object [e] of tier [i] is taken out; for [i = 0] it
    is discarded; otherwise tier [i - 1] is cooled, recursively, as long as
    it cannot fit [e], and then [e] goes to the MRU end of tier [i - 1]. *)
Fixpoint cool_spec (i : nat) (c c' : cache_t) {struct i} : Prop :=
  ∃ t e q', tiers c !! i = Some t ∧ q t = q' ++ [e] ∧
    match i with
    | O => c' = set_tier c 0 (evicted t e q')
    | S j =>
        ∃ c2 tl,
          repeat_while (cannot_fit j (obj_size e)) (cool_spec j)
                       (set_tier c (S j) (evicted t e q')) c2 ∧
          tiers c2 !! j = Some tl ∧
          c' = set_tier c2 j (LRU_insert tl (copy_cache_obj_to_request e))
    end.

(** *** The remaining entry points of the policy *)

(** Modelled from the spec: the tier's [to_evict] (LRU policy file, not in
    the sources) returns the LRU-end node without removing it. *)
Definition LRU_to_evict (t : lru_t) : option cache_obj_t := last (q t).

(** [SLRU_to_evict] *)
Definition SLRU_to_evict (cache : cache_t) : outcome (option cache_obj_t) :=
  t ← tier cache 0;
  Done (LRU_to_evict t).

(** Modelled from the spec: [cache_get_obj_by_id] (cache base file, not in
    the sources) looks the id up in the tier's index. *)
Definition cache_get_obj_by_id (t : lru_t) (id : Z) : option cache_obj_t :=
  List.find (has_id id) (q t).

(** Modelled from the spec: [remove_obj_from_list] (cache base file, not in
    the sources) unlinks the node from the recency list. *)
Definition remove_obj_from_list (t : lru_t) (o : cache_obj_t) : lru_t :=
  mk_lru (cache_size t) (occupied_size t) (per_obj_overhead t)
         (unlink (obj_id o) (q t)).

(** Modelled from the spec: [cache_remove_obj_base] (cache base file, not
    in the sources) takes the node out of the tier's accounting and index. *)
Definition cache_remove_obj_base (t : lru_t) (o : cache_obj_t) : lru_t :=
  mk_lru (cache_size t)
         (occupied_size t - (obj_size o + per_obj_overhead t))
         (per_obj_overhead t) (q t).

(** The [for] loop of [SLRU_remove] from index [i] with [n] iterations to
    go, and the test behind it.  [obj] is the local variable of that name:
    [None] while nothing has been assigned to it, [Some None] for [NULL]. *)
Fixpoint SLRU_remove_from (n : nat) (i : nat) (cache : cache_t) (id : Z)
    (obj : option (option cache_obj_t)) : outcome cache_t :=
  match n with
  | O =>
      match obj with
      | None => Undefined
      | Some _ => Done cache
      end
  | S n' =>
      t ← tier cache i;
      match cache_get_obj_by_id t id with
      | Some o =>
          Done (set_tier cache i
                  (cache_remove_obj_base (remove_obj_from_list t o) o))
      | None => SLRU_remove_from n' (S i) cache id (Some None)
      end
  end.

Definition SLRU_remove (cache : cache_t) (id : Z) : outcome cache_t :=
  SLRU_remove_from (Z.to_nat (n_seg (eviction_params cache))) 0 cache id None.

(** The calls a user of the cache can make. *)
Inductive op :=
| Check (req : request_t) (update_cache : bool)
| Get (req : request_t)
| Insert (req : request_t)
| Evict
| Remove (id : Z).

Section Runs.

Variable is_expired : cache_obj_t → request_t → bool.

Definition step (fuel : nat) (c : cache_t) (o : op) : outcome cache_t :=
  match o with
  | Check req update_cache =>
      r ← SLRU_check is_expired fuel c req update_cache; Done (snd r)
  | Get req => r ← SLRU_get is_expired fuel c req; Done (snd r)
  | Insert req => SLRU_insert fuel c req
  | Evict => SLRU_evict c
  | Remove id => SLRU_remove c id
  end.

Fixpoint run (fuel : nat) (c : cache_t) (ops : list op) : outcome cache_t :=
  match ops with
  | [] => Done c
  | o :: ops' => c' ← step fuel c o; run fuel c' ops'
  end.

End Runs.

(** Object sizes are unsigned in C: with the overhead they do not count
    negative. *)
Definition size_ok (oh : Z) (o : op) : Prop :=
  match o with
  | Check req _ | Get req | Insert req => 0 ≤ req_obj_size req + oh
  | Evict | Remove _ => True
  end.

(** The bytes in use over all tiers. *)
Definition sum_occupied (c : cache_t) : Z :=
  foldr (λ t acc, occupied_size t + acc) 0 (tiers c).

(** All the objects of the cache, tier by tier. *)
Definition objects (c : cache_t) : list cache_obj_t := concat (q <$> tiers c).

(** Some tier holds an object with id [k]. *)
Definition resident (c : cache_t) (k : Z) : Prop :=
  Exists (λ t, occurrences k (q t) ≠ 0%nat) (tiers c).

(** *** A cache of three tiers *)

(** Objects with id 4 are reported expired. *)
Definition ex_expired (o : cache_obj_t) (req : request_t) : bool :=
  bool_decide (obj_id o = 4).

(** Three tiers of two bytes each, holding the ids 1 2 | 3 4 | 5 (MRU end
    first), one byte per object. *)
Definition ex_cache : cache_t :=
  mk_cache 6 0
    (mk_params 3
       [mk_lru 2 2 0 [mk_obj 1 1; mk_obj 2 1];
        mk_lru 2 2 0 [mk_obj 3 1; mk_obj 4 1];
        mk_lru 2 1 0 [mk_obj 5 1]]).

(** The same with a full top tier. *)
Definition ex_full : cache_t :=
  mk_cache 6 0
    (mk_params 3
       [mk_lru 2 2 0 [mk_obj 1 1; mk_obj 2 1];
        mk_lru 2 2 0 [mk_obj 3 1; mk_obj 4 1];
        mk_lru 2 2 0 [mk_obj 5 1; mk_obj 6 1]]).

(** What [SLRU_init] builds for ten bytes in three tiers. *)
Definition ex_init : cache_t :=
  mk_cache 10 0 (mk_params 3 (replicate 3 (mk_lru 3 0 0 []))).

End SLRU.

(** * Properties *)

Lemma bind_Done {A B} (m : outcome A) (f : A → outcome B) (b : B) :
  m ≫= f = Done b ↔ ∃ a, m = Done a ∧ f a = Done b.
Proof.
  destruct m as [a| |]; simpl; split.
  - intros H. by exists a.
  - by intros (a' & [= <-] & H).
  - done.
  - by intros (a' & ? & _).
  - done.
  - by intros (a' & ? & _).
Qed.

Lemma of_option_Done {A} (o : option A) (a : A) :
  of_option o = Done a ↔ o = Some a.
Proof. destruct o; simpl; naive_solver. Qed.

Module CHT_Facts.
Import CHT.

(** ** Bucket chains in the object store *)

Lemma lseg_app m p l1 l2 q :
  lseg m p (l1 ++ l2) q ↔ ∃ r, lseg m p l1 r ∧ lseg m r l2 q.
Proof.
  revert p. induction l1 as [|a l1 IH]; intros p; simpl.
  - split; [intros H; by exists p | by intros (r & -> & H)].
  - destruct (m !! a) as [o|]; [|naive_solver].
    rewrite (and_comm (p = Some a)).
    setoid_rewrite (and_comm (p = Some a)).
    rewrite IH. naive_solver.
Qed.

Lemma lseg_mapped m p l q a :
  lseg m p l q → a ∈ l → is_Some (m !! a).
Proof.
  revert p. induction l as [|b l IH]; intros p H Hin.
  - by apply elem_of_nil in Hin.
  - simpl in H. destruct H as [-> H].
    destruct (m !! b) as [o|] eqn:Hb; [|done].
    apply elem_of_cons in Hin as [->|Hin]; [by rewrite Hb|by eapply IH].
Qed.

(** Two walks from the same pointer to [NULL] visit the same objects. *)
Lemma chain_functional m p l l' :
  chain m p l → chain m p l' → l = l'.
Proof.
  unfold chain. revert p l'. induction l as [|a l IH]; intros p [|a' l']; simpl.
  - done.
  - intros -> [? _]. done.
  - intros [-> _] ?. done.
  - intros [-> H] [[= <-] H'].
    destruct (m !! a) as [o|]; [|done]. f_equal. by eapply IH.
Qed.

(** A finite chain never visits an object twice. *)
Lemma chain_NoDup m p l : chain m p l → NoDup l.
Proof.
  revert p. induction l as [|a l IH]; intros p H; [constructor|].
  pose proof H as H0. simpl in H. destruct H as [-> H].
  destruct (m !! a) as [o|] eqn:Ha; [|done].
  constructor; [|by eapply IH].
  intros Hin. apply list_elem_of_split in Hin as (l1 & l2 & ->).
  apply lseg_app in H as (r & _ & H2).
  pose proof H2 as H2'. simpl in H2'. destruct H2' as [-> H2'].
  rewrite Ha in H2'.
  assert (Heq : l2 = l1 ++ a :: l2).
  { eapply chain_functional; [exact H2'|].
    unfold chain in H0. simpl in H0. destruct H0 as [_ H0]. rewrite Ha in H0.
    exact H0. }
  apply (f_equal length) in Heq. rewrite length_app in Heq. simpl in Heq. lia.
Qed.

(** Objects outside the segment may change freely. *)
Lemma lseg_frame m m' p l q :
  (∀ a, a ∈ l → hash_next <$> m' !! a = hash_next <$> m !! a) →
  lseg m p l q → lseg m' p l q.
Proof.
  revert p. induction l as [|a l IH]; intros p Hsame; simpl; [done|].
  intros [-> H]. split; [done|].
  pose proof (Hsame a ltac:(left)) as Ha.
  destruct (m !! a) as [o|]; [|done].
  destruct (m' !! a) as [o'|]; [|done].
  simpl in Ha. injection Ha as Ha. rewrite Ha.
  apply IH; [|done]. intros b Hb. apply Hsame. by right.
Qed.

Lemma end_cell_nil ptr : end_cell ptr [] = ptr.
Proof. done. Qed.

Lemma end_cell_cons ptr a l : end_cell ptr (a :: l) = end_cell (NextCell a) l.
Proof.
  unfold end_cell. destruct l as [|b l]; [done|].
  change (last (a :: b :: l)) with (last (b :: l)).
  destruct (last (b :: l)) eqn:E; [done|].
  by apply last_None in E.
Qed.

Lemma end_cell_snoc ptr l a : end_cell ptr (l ++ [a]) = NextCell a.
Proof. unfold end_cell. by rewrite last_snoc. Qed.

(** [find_pointer_locked] walks past every object with another id and
    returns the first cell at which the walk stops. *)
Lemma find_pointer_from_spec l : ∀ fuel w ptr p q k,
  load w ptr = Done p →
  lseg (mem w) p l q →
  Forall (λ a, ¬ has_id (mem w) k a) l →
  stops (mem w) k q →
  (length l < fuel)%nat →
  find_pointer_from fuel w ptr k = Done (end_cell ptr l) ∧
  load w (end_cell ptr l) = Done q.
Proof.
  induction l as [|a l IH]; intros fuel w ptr p q k Hload Hseg Hno Hstop Hfuel.
  - simpl in Hseg. subst q. rewrite end_cell_nil. split; [|done].
    destruct fuel as [|fuel]; [simpl in Hfuel; lia|].
    simpl. rewrite Hload. simpl. destruct p as [a|]; [|done].
    unfold stops, has_id in Hstop. unfold deref.
    destruct (mem w !! a) as [o|]; [|done]. simpl in *.
    injection Hstop as Hk. by rewrite decide_False by (intros ?; congruence).
  - simpl in Hseg. destruct Hseg as [-> Hseg].
    destruct (mem w !! a) as [o|] eqn:Ha; [|done].
    apply Forall_cons in Hno as [Hna Hno].
    destruct fuel as [|fuel]; [simpl in Hfuel; lia|].
    rewrite end_cell_cons. simpl. rewrite Hload. simpl.
    unfold deref at 1. rewrite Ha. simpl.
    rewrite decide_True; last first.
    { intros ->. apply Hna. unfold has_id. by rewrite Ha. }
    apply (IH fuel w (NextCell a) (hash_next o) q k); try done.
    + simpl. unfold deref. by rewrite Ha.
    + simpl in Hfuel. lia.
Qed.

Lemma update_obj_Done w a f w' :
  update_obj w a f = Done w' ↔
  ∃ o, mem w !! a = Some o ∧ w' = mk_world (ht w) (<[a := f o]> (mem w)).
Proof.
  unfold update_obj, deref. destruct (mem w !! a) as [o|]; simpl.
  - split; [intros [= <-]; by exists o | by intros (o' & [= <-] & ->)].
  - split; [done | by intros (o' & ? & _)].
Qed.

Lemma update_obj_eq w a f o :
  mem w !! a = Some o →
  update_obj w a f = Done (mk_world (ht w) (<[a := f o]> (mem w))).
Proof. intros H. apply update_obj_Done. eauto. Qed.

(** Writing [q'] through the cell at the end of a segment redirects the
    segment and touches one [hash_next] or one bucket head. *)
Lemma store_end_cell w b l p q q' :
  0 ≤ b →
  ptr_table (ht w) !! Z.to_nat b = Some p →
  lseg (mem w) p l q →
  NoDup l →
  ∃ w' p',
    store w (end_cell (BucketCell b) l) q' = Done w' ∧
    ptr_table (ht w') !! Z.to_nat b = Some p' ∧
    lseg (mem w') p' l q' ∧
    (l ≠ [] → p' = p) ∧
    hashpower (ht w') = hashpower (ht w) ∧
    n_obj (ht w') = n_obj (ht w) ∧
    length (ptr_table (ht w')) = length (ptr_table (ht w)) ∧
    (∀ i, i ≠ Z.to_nat b → ptr_table (ht w') !! i = ptr_table (ht w) !! i) ∧
    (∀ a, a ∉ l → mem w' !! a = mem w !! a) ∧
    same_ids (mem w) (mem w') ∧ same_flags (mem w) (mem w').
Proof.
  intros Hb Hp Hseg Hnd.
  destruct l as [|a0 l0] using rev_ind.
  - simpl in Hseg. subst q. rewrite end_cell_nil. simpl.
    pose proof (lookup_lt_Some _ _ _ Hp) as Hlt.
    rewrite decide_True by lia.
    eexists _, q'. split; [done|]. simpl.
    split; [by rewrite list_lookup_insert_eq|].
    split; [done|]. split; [done|]. split; [done|]. split; [done|].
    split; [by rewrite length_insert|].
    split; [intros i Hi; by rewrite list_lookup_insert_ne|].
    done.
  - clear IHl0. rewrite end_cell_snoc. simpl.
    apply lseg_app in Hseg as (r & Hseg1 & Hseg2).
    simpl in Hseg2. destruct Hseg2 as [-> Hseg2].
    destruct (mem w !! a0) as [o|] eqn:Ha0; [|done]. simpl in Hseg2.
    apply NoDup_app in Hnd as (Hnd1 & Hdisj & _).
    assert (Hnotin : a0 ∉ l0).
    { intros Hin. apply (Hdisj _ Hin). by left. }
    eexists _, p. split.
    { apply update_obj_Done. eauto. }
    simpl. split; [done|].
    split.
    { apply lseg_app. exists (Some a0). split.
      - eapply lseg_frame; [|exact Hseg1].
        intros a Ha. rewrite lookup_insert_ne; [done|]. by intros ->.
      - simpl. split; [done|]. by rewrite lookup_insert_eq. }
    split; [done|]. split; [done|]. split; [done|]. split; [done|].
    split; [done|].
    split.
    { intros a Ha. rewrite lookup_insert_ne; [done|].
      intros ->. apply Ha. apply elem_of_app. right. by left. }
    split; intros a; (destruct (decide (a = a0)) as [->|Hne];
      [rewrite lookup_insert_eq, Ha0; done | by rewrite lookup_insert_ne]).
Qed.

Section Ops.

Variable hash : Z → Z.

Abbreviation find_obj_id := (concurrent_chained_hashtable_find_obj_id hash).
Abbreviation insert_obj := (concurrent_chained_hashtable_insert_obj hash).
Abbreviation delete_obj_id := (concurrent_chained_hashtable_delete_obj_id hash).
Abbreviation homed := (CHT.homed hash).
Abbreviation table_wf := (CHT.table_wf hash).
Abbreviation step := (CHT.step hash).
Abbreviation run := (CHT.run hash).

(** The common part of both branches of the insertion: the walk stops at
    the end of [l1], where the cell holds [q] (the old entry or [NULL]);
    [next] is what the new object's [hash_next] receives and [l2] the
    objects behind it. *)
Lemma insert_obj_core w n new b p l1 q next l2 fuel :
  mem w !! n = Some new →
  b = bucket_of hash (ht w) (obj_id new) →
  0 ≤ b →
  ptr_table (ht w) !! Z.to_nat b = Some p →
  lseg (mem w) p l1 q →
  Forall (λ a, ¬ has_id (mem w) (obj_id new) a) l1 →
  stops (mem w) (obj_id new) q →
  match q with
  | None => next = None
  | Some a => hash_next <$> mem w !! a = Some next
  end →
  lseg (mem w) next l2 None →
  NoDup (l1 ++ option_list q ++ l2) →
  n ∉ l2 →
  (length l1 < fuel)%nat →
  ∃ w' p',
    insert_obj fuel w n = Done (q, w') ∧
    ptr_table (ht w') !! Z.to_nat b = Some p' ∧
    lseg (mem w') p' (l1 ++ n :: l2) None ∧
    mem w' !! n = Some (mk_obj (obj_id new) (obj_size new) next false) ∧
    (∀ a, q = Some a → in_cache <$> mem w' !! a = Some false) ∧
    n_obj (ht w') = match q with
                   | Some _ => n_obj (ht w)
                   | None => wrap64 (n_obj (ht w) + 1)
                   end ∧
    hashpower (ht w') = hashpower (ht w) ∧
    length (ptr_table (ht w')) = length (ptr_table (ht w)) ∧
    (∀ i, i ≠ Z.to_nat b → ptr_table (ht w') !! i = ptr_table (ht w) !! i) ∧
    same_ids (mem w) (mem w') ∧
    (∀ a, a ∉ l1 → a ≠ n → hash_next <$> mem w' !! a = hash_next <$> mem w !! a).
Proof.
  intros Hn Hbk Hb Hp Hseg Hno Hstop Hnext Hl2 Hnd Hn2 Hfuel.
  assert (Hn1 : n ∉ l1).
  { intros Hin. rewrite Forall_forall in Hno. apply (Hno _ Hin).
    unfold has_id. by rewrite Hn. }
  apply NoDup_app in Hnd as (Hnd1 & Hdisj1 & Hnd2).
  destruct (find_pointer_from_spec l1 fuel w (BucketCell b) p q (obj_id new))
    as [Hfind Hload]; try done.
  { simpl. rewrite decide_True by done. by rewrite Hp. }
  set (new2 := mk_obj (obj_id new) (obj_size new) next false).
  set (w2 := mk_world (ht w) (<[n := new2]> (mem w))).
  (* the store through the cursor *)
  destruct (store_end_cell w2 b l1 p q (Some n)) as
    (w3 & p' & Hstore & Hp' & Hseg' & _ & Hhp & Hnobj & Hlen & Hother & Hmem3 & Hids3 & Hfl3);
    try done.
  { eapply lseg_frame; [|exact Hseg]. intros a Ha. simpl.
    rewrite lookup_insert_ne; [done|]. by intros ->. }
  assert (Hl2' : lseg (mem w3) next l2 None).
  { eapply lseg_frame; [|exact Hl2]. intros a Ha.
    rewrite Hmem3; last first.
    { intros Hin. apply (Hdisj1 _ Hin). apply elem_of_app. by right. }
    simpl. rewrite lookup_insert_ne; [done|]. by intros ->. }
  assert (Hids2 : same_ids (mem w) (mem w2)).
  { intros x. simpl. destruct (decide (x = n)) as [->|Hne].
    - by rewrite lookup_insert_eq, Hn.
    - by rewrite lookup_insert_ne. }
  assert (Hn3 : mem w3 !! n = Some new2).
  { rewrite Hmem3 by done. simpl. by rewrite lookup_insert_eq. }
  assert (Hupd : ∀ nx (k : world → outcome (option addr * world)),
            (w1 ← update_obj w n (λ o, set_hash_next o nx);
             w2' ← update_obj w1 n (λ o, cache_obj_set_in_cache o false);
             k w2') =
            k (mk_world (ht w)
                 (<[n := mk_obj (obj_id new) (obj_size new) nx false]> (mem w)))).
  { intros nx k. rewrite (update_obj_eq _ _ _ _ Hn). simpl.
    erewrite update_obj_eq by (simpl; apply lookup_insert_eq). simpl.
    by rewrite insert_insert_eq. }
  assert (Hstart : ∀ k : cache_obj_t → outcome (option addr * world),
            (new' ← deref w n; k new') = k new).
  { intros k. unfold deref. by rewrite Hn. }
  unfold concurrent_chained_hashtable_insert_obj.
  rewrite Hstart, <- Hbk. unfold find_pointer_locked. rewrite Hfind. simpl.
  rewrite Hload. simpl.
  destruct q as [a|].
  - (* an entry with this id exists *)
    destruct (mem w !! a) as [oa|] eqn:Ha; [|done]. simpl in Hnext.
    injection Hnext as Hnext.
    unfold deref at 1. rewrite Ha. simpl. rewrite Hnext, Hupd.
    fold new2. fold w2. rewrite Hstore. simpl.
    assert (Ha1 : a ∉ l1).
    { intros Hin. apply (Hdisj1 _ Hin). apply elem_of_app. left. by left. }
    assert (Ha2 : a ∉ l2).
    { simpl in Hnd2. by apply NoDup_cons in Hnd2 as [? _]. }
    assert (Ha3 : ∃ oa3, mem w3 !! a = Some oa3).
    { rewrite Hmem3 by done. simpl.
      destruct (decide (a = n)) as [->|Hne].
      - rewrite lookup_insert_eq. eauto.
      - rewrite lookup_insert_ne by done. rewrite Ha. eauto. }
    destruct Ha3 as (oa3 & Ha3).
    rewrite (update_obj_eq _ _ _ _ Ha3). simpl.
    eexists _, p'. split; [done|]. simpl.
    assert (Hlinks : ∀ x, hash_next <$>
               <[a := cache_obj_set_in_cache oa3 false]> (mem w3) !! x =
               hash_next <$> mem w3 !! x).
    { intros x. destruct (decide (x = a)) as [->|Hne].
      - rewrite lookup_insert_eq, Ha3. done.
      - by rewrite lookup_insert_ne. }
    split; [done|].
    split.
    { eapply lseg_frame; [intros x _; apply Hlinks|].
      apply lseg_app. exists (Some n). split; [done|].
      simpl. split; [done|]. by rewrite Hn3. }
    split.
    { destruct (decide (a = n)) as [->|Hne].
      - rewrite lookup_insert_eq. rewrite Hn3 in Ha3. by injection Ha3 as <-.
      - by rewrite lookup_insert_ne. }
    split.
    { intros a' [= <-]. by rewrite lookup_insert_eq. }
    split; [done|]. split; [done|]. split; [done|]. split; [done|].
    split.
    { intros x. destruct (decide (x = a)) as [->|Hne].
      - rewrite lookup_insert_eq. rewrite <- Hids2, <- Hids3, Ha3. done.
      - rewrite lookup_insert_ne by done. by rewrite Hids3, Hids2. }
    intros x Hx1 Hxn. rewrite Hlinks. rewrite Hmem3 by done. simpl.
    by rewrite lookup_insert_ne.
  - (* no entry with this id *)
    subst next. simpl in Hl2. simpl. rewrite Hupd.
    fold new2. fold w2. rewrite Hstore. simpl.
    eexists _, p'. split; [done|]. simpl.
    split; [done|].
    split.
    { apply lseg_app. exists (Some n). split; [done|].
      simpl. split; [done|]. by rewrite Hn3. }
    split; [done|]. split; [done|].
    split; [by rewrite Hnobj|]. split; [done|]. split; [done|]. split; [done|].
    split.
    { intros x. by rewrite Hids3, Hids2. }
    intros x Hx1 Hxn. rewrite Hmem3 by done. simpl.
    by rewrite lookup_insert_ne.
Qed.

(** The lookup returns what the cell at the end of the walk holds. *)
Lemma find_obj_id_core w k b p l1 q fuel :
  b = bucket_of hash (ht w) k →
  0 ≤ b →
  ptr_table (ht w) !! Z.to_nat b = Some p →
  lseg (mem w) p l1 q →
  Forall (λ a, ¬ has_id (mem w) k a) l1 →
  stops (mem w) k q →
  (length l1 < fuel)%nat →
  find_obj_id fuel w k = Done q.
Proof.
  intros Hbk Hb Hp Hseg Hno Hstop Hfuel.
  destruct (find_pointer_from_spec l1 fuel w (BucketCell b) p q k)
    as [Hfind Hload]; try done.
  { simpl. rewrite decide_True by done. by rewrite Hp. }
  unfold concurrent_chained_hashtable_find_obj_id, find_pointer_locked.
  rewrite <- Hbk, Hfind. done.
Qed.

(** Deleting an id whose first entry [a] follows the objects [l1]. *)
Lemma delete_obj_id_core w k b p l1 a oa l2 fuel :
  b = bucket_of hash (ht w) k →
  0 ≤ b →
  ptr_table (ht w) !! Z.to_nat b = Some p →
  lseg (mem w) p l1 (Some a) →
  mem w !! a = Some oa →
  obj_id oa = k →
  lseg (mem w) (hash_next oa) l2 None →
  NoDup (l1 ++ a :: l2) →
  Forall (λ a, ¬ has_id (mem w) k a) l1 →
  (length l1 < fuel)%nat →
  ∃ w' p',
    delete_obj_id fuel w k = Done (Some a, w') ∧
    ptr_table (ht w') !! Z.to_nat b = Some p' ∧
    lseg (mem w') p' (l1 ++ l2) None ∧
    mem w' !! a = Some (cache_obj_set_in_cache oa false) ∧
    n_obj (ht w') = wrap64 (n_obj (ht w) - 1) ∧
    hashpower (ht w') = hashpower (ht w) ∧
    length (ptr_table (ht w')) = length (ptr_table (ht w)) ∧
    (∀ i, i ≠ Z.to_nat b → ptr_table (ht w') !! i = ptr_table (ht w) !! i) ∧
    same_ids (mem w) (mem w') ∧
    (∀ x, x ∉ l1 → hash_next <$> mem w' !! x = hash_next <$> mem w !! x).
Proof.
  intros Hbk Hb Hp Hseg Ha Hk Hl2 Hnd Hno Hfuel.
  apply NoDup_app in Hnd as (Hnd1 & Hdisj & Hnd2).
  apply NoDup_cons in Hnd2 as [Ha2 Hnd2].
  assert (Ha1 : a ∉ l1).
  { intros Hin. apply (Hdisj _ Hin). by left. }
  destruct (find_pointer_from_spec l1 fuel w (BucketCell b) p (Some a) k)
    as [Hfind Hload]; try done.
  { simpl. rewrite decide_True by done. by rewrite Hp. }
  { unfold stops, has_id. rewrite Ha. simpl. by rewrite Hk. }
  set (oa' := cache_obj_set_in_cache oa false).
  set (w1 := mk_world (ht w) (<[a := oa']> (mem w))).
  assert (Hlinks1 : same_links (mem w) (mem w1)).
  { intros x. simpl. destruct (decide (x = a)) as [->|Hne].
    - by rewrite lookup_insert_eq, Ha.
    - by rewrite lookup_insert_ne. }
  assert (Hids1 : same_ids (mem w) (mem w1)).
  { intros x. simpl. destruct (decide (x = a)) as [->|Hne].
    - by rewrite lookup_insert_eq, Ha.
    - by rewrite lookup_insert_ne. }
  destruct (store_end_cell w1 b l1 p (Some a) (hash_next oa)) as
    (w2 & p' & Hstore & Hp' & Hseg' & _ & Hhp & Hnobj & Hlen & Hother & Hmem2
     & Hids2 & Hfl2); try done.
  { eapply lseg_frame; [|exact Hseg]. intros x _. apply Hlinks1. }
  exists (mk_world (set_n_obj (ht w2) (wrap64 (n_obj (ht w2) - 1))) (mem w2)), p'.
  split.
  { unfold concurrent_chained_hashtable_delete_obj_id, find_pointer_locked.
    rewrite <- Hbk, Hfind. simpl. rewrite Hload. simpl.
    rewrite (update_obj_eq _ _ _ _ Ha). simpl. fold oa'. fold w1.
    unfold deref. simpl. rewrite lookup_insert_eq. simpl.
    by rewrite Hstore. }
  simpl. split; [done|].
  split.
  { apply lseg_app. exists (hash_next oa). split; [done|].
    eapply lseg_frame; [|exact Hl2]. intros x Hx.
    rewrite Hmem2; [apply Hlinks1|].
    intros Hin. apply (Hdisj _ Hin). by right. }
  split.
  { rewrite Hmem2 by done. simpl. by rewrite lookup_insert_eq. }
  split; [by rewrite Hnobj|]. split; [done|]. split; [done|]. split; [done|].
  split.
  { intros x. by rewrite Hids2, Hids1. }
  intros x Hx. rewrite Hmem2 by done. apply Hlinks1.
Qed.

(** Deleting an id that the walk does not find changes nothing. *)
Lemma delete_obj_id_absent w k b p l fuel :
  b = bucket_of hash (ht w) k →
  0 ≤ b →
  ptr_table (ht w) !! Z.to_nat b = Some p →
  chain (mem w) p l →
  Forall (λ a, ¬ has_id (mem w) k a) l →
  (length l < fuel)%nat →
  delete_obj_id fuel w k = Done (None, w).
Proof.
  intros Hbk Hb Hp Hseg Hno Hfuel.
  destruct (find_pointer_from_spec l fuel w (BucketCell b) p None k)
    as [Hfind Hload]; try done.
  { simpl. rewrite decide_True by done. by rewrite Hp. }
  unfold concurrent_chained_hashtable_delete_obj_id, find_pointer_locked.
  rewrite <- Hbk, Hfind. simpl. by rewrite Hload.
Qed.

(** ** The bucket of an id *)

Lemma hashmask_nonneg hp : 0 ≤ hp → 0 ≤ hashmask hp.
Proof.
  intros H. unfold hashmask, hashsize. rewrite Z.shiftl_1_l.
  pose proof (Z.pow_pos_nonneg 2 hp). lia.
Qed.

Lemma bucket_of_nonneg h k : 0 ≤ hashpower h → 0 ≤ bucket_of hash h k.
Proof.
  intros H. unfold bucket_of. apply Z.land_nonneg. right.
  by apply hashmask_nonneg.
Qed.

Lemma bucket_of_lt h k :
  0 ≤ hashpower h → bucket_of hash h k < 2 ^ hashpower h.
Proof.
  intros H. unfold bucket_of, hashmask, hashsize. rewrite Z.shiftl_1_l.
  replace (2 ^ hashpower h - 1) with (Z.ones (hashpower h))
    by (rewrite Z.ones_equiv; lia).
  rewrite Z.land_ones by done.
  apply Z.mod_pos_bound. by apply Z.pow_pos_nonneg.
Qed.

(** Where the walk for id [k] stops in a chain: either no object carries
    [k], or the chain splits around the first one that does. *)
Lemma chain_find_None m k p l :
  chain m p l →
  list_find (has_id m k) l = None →
  Forall (λ a, ¬ has_id m k a) l.
Proof. intros _ H. by apply list_find_None in H. Qed.

Lemma chain_find_Some m k p l i a :
  chain m p l →
  list_find (has_id m k) l = Some (i, a) →
  ∃ oa,
    l = take i l ++ a :: drop (S i) l ∧
    Forall (λ a, ¬ has_id m k a) (take i l) ∧
    m !! a = Some oa ∧ obj_id oa = k ∧
    lseg m p (take i l) (Some a) ∧
    lseg m (hash_next oa) (drop (S i) l) None.
Proof.
  intros Hch Hfind. apply list_find_Some in Hfind as (Hi & Hid & Hbefore).
  pose proof (take_drop_middle _ _ _ Hi) as Hsplit.
  unfold chain in Hch. rewrite <- Hsplit in Hch.
  apply lseg_app in Hch as (r & Hseg1 & Hseg2).
  simpl in Hseg2. destruct Hseg2 as [-> Hseg2].
  unfold has_id in Hid.
  destruct (m !! a) as [oa|] eqn:Ha; [|done]. simpl in Hid.
  injection Hid as Hid.
  exists oa. split; [done|]. split; [|done].
  apply Forall_forall. intros x Hx.
  apply list_elem_of_lookup in Hx as (j & Hj).
  pose proof (lookup_lt_Some _ _ _ Hj) as Hlt.
  rewrite length_take in Hlt.
  rewrite lookup_take_lt in Hj by lia.
  apply (Hbefore j); [done|lia].
Qed.

(** ** Insertion *)

(** Claim C1 (as amended).  Inserting an object [n] that is not yet linked
    in the chain of its bucket: if the chain holds an entry [a] with the
    same id, at position [i], then [n] takes position [i]
    ([n]'s [hash_next] becomes what [a]'s was), [a] is no longer in the
    chain and is returned with [in_cache = false], and [n_obj] is
    unchanged; if the chain holds no such entry, [n] is linked behind the
    last object of the chain (as its tail, with [hash_next = NULL], and as
    the head only when the chain was empty), [n_obj] is incremented (modulo
    2^64) and [NULL] is returned.  In both cases [n] ends with
    [in_cache = false]. *)
Theorem insert_obj_replaces_or_appends w n new l fuel :
  0 ≤ hashpower (ht w) →
  mem w !! n = Some new →
  bucket_chain w (bucket_of hash (ht w) (obj_id new)) l →
  n ∉ l →
  (length l < fuel)%nat →
  match list_find (has_id (mem w) (obj_id new)) l with
  | Some (i, a) =>
      ∃ w', insert_obj fuel w n = Done (Some a, w') ∧
        bucket_chain w' (bucket_of hash (ht w) (obj_id new)) (<[i := n]> l) ∧
        hash_next <$> mem w' !! n = hash_next <$> mem w !! a ∧
        in_cache <$> mem w' !! n = Some false ∧
        (a ∉ <[i := n]> l) ∧
        in_cache <$> mem w' !! a = Some false ∧
        n_obj (ht w') = n_obj (ht w)
  | None =>
      ∃ w', insert_obj fuel w n = Done (None, w') ∧
        bucket_chain w' (bucket_of hash (ht w) (obj_id new)) (l ++ [n]) ∧
        hash_next <$> mem w' !! n = Some None ∧
        in_cache <$> mem w' !! n = Some false ∧
        n_obj (ht w') = wrap64 (n_obj (ht w) + 1) ∧
        (0 ≤ n_obj (ht w) < 2 ^ 64 - 1 → n_obj (ht w') = n_obj (ht w) + 1)
  end.
Proof.
  intros Hhp Hn Hbc Hnl Hfuel.
  set (b := bucket_of hash (ht w) (obj_id new)) in *.
  pose proof (bucket_of_nonneg (ht w) (obj_id new) Hhp) as Hb. fold b in Hb.
  unfold bucket_chain in Hbc.
  destruct (ptr_table (ht w) !! Z.to_nat b) as [p|] eqn:Hp; [|done].
  pose proof (chain_NoDup _ _ _ Hbc) as Hnd.
  destruct (list_find (has_id (mem w) (obj_id new)) l) as [[i a]|] eqn:Hfind.
  - destruct (chain_find_Some _ _ _ _ _ _ Hbc Hfind)
      as (oa & Hsplit & Hno & Ha & Hk & Hseg1 & Hseg2).
    assert (Hi : (i < length l)%nat).
    { apply list_find_Some in Hfind as (Hi & _). by eapply lookup_lt_Some. }
    rewrite Hsplit in Hnd.
    destruct (insert_obj_core w n new b p (take i l) (Some a) (hash_next oa)
                (drop (S i) l) fuel)
      as (w' & p' & Hrun & Hp' & Hch' & Hn' & Hold & Hnobj & _); try done.
    { unfold stops, has_id. rewrite Ha. simpl. by rewrite Hk. }
    { by rewrite Ha. }
    { intros Hin. apply Hnl. rewrite Hsplit. apply elem_of_app. right.
      by right. }
    { rewrite length_take. lia. }
    exists w'. split; [done|].
    rewrite insert_take_drop by done.
    split.
    { unfold bucket_chain. by rewrite Hp'. }
    split; [by rewrite Hn', Ha|].
    split; [by rewrite Hn'|].
    split.
    { intros Hin. apply elem_of_app in Hin as [Hin|Hin].
      - apply NoDup_app in Hnd as (_ & Hdisj & _). apply (Hdisj _ Hin). by left.
      - apply elem_of_cons in Hin as [->|Hin].
        + apply Hnl. rewrite Hsplit. apply elem_of_app. right. by left.
        + apply NoDup_app in Hnd as (_ & _ & Hnd2).
          by apply NoDup_cons in Hnd2 as [? _]. }
    split; [by apply Hold|done].
  - pose proof (chain_find_None _ _ _ _ Hbc Hfind) as Hno.
    destruct (insert_obj_core w n new b p l None None [] fuel)
      as (w' & p' & Hrun & Hp' & Hch' & Hn' & _ & Hnobj & _); try done.
    { simpl. by rewrite app_nil_r. }
    { apply not_elem_of_nil. }
    exists w'. split; [done|].
    split.
    { unfold bucket_chain. by rewrite Hp'. }
    split; [by rewrite Hn'|]. split; [by rewrite Hn'|]. split; [done|].
    intros Hrange. rewrite Hnobj. unfold wrap64.
    apply Z.mod_small. lia.
Qed.

(** ** Lookup after insertion and after deletion *)

Lemma distinct_ids_same m m' l :
  same_ids m m' → distinct_ids m l → distinct_ids m' l.
Proof.
  unfold distinct_ids. intros Hids H.
  erewrite list_fmap_ext; [exact H|]. intros i x _. apply Hids.
Qed.

Lemma no_id_same m m' k l :
  same_ids m m' →
  Forall (λ a, ¬ has_id m k a) l → Forall (λ a, ¬ has_id m' k a) l.
Proof.
  intros Hids H. eapply Forall_impl; [exact H|].
  intros a Ha. unfold has_id in *. by rewrite Hids.
Qed.

(** With distinct ids, nothing behind the first entry for [k] carries
    [k]. *)
Lemma distinct_ids_after m k l1 a l2 :
  distinct_ids m (l1 ++ a :: l2) →
  has_id m k a →
  Forall (λ x, ¬ has_id m k x) l2.
Proof.
  unfold distinct_ids, has_id. intros Hnd Ha.
  rewrite fmap_app, fmap_cons in Hnd.
  apply NoDup_app in Hnd as (_ & _ & Hnd).
  apply NoDup_cons in Hnd as [Hnotin _].
  apply Forall_forall. intros x Hx Hxk. apply Hnotin.
  rewrite Ha, <- Hxk. apply list_elem_of_fmap. eauto.
Qed.

(** Claim C7.  In a bucket whose chain carries pairwise distinct ids, a
    lookup of [k] right after the insertion of an object [n] with id [k]
    returns [n] itself, and a lookup of [k] right after the deletion of [k]
    returns [NULL]. *)
Theorem find_after_insert_and_after_delete w k l fuel :
  0 ≤ hashpower (ht w) →
  bucket_chain w (bucket_of hash (ht w) k) l →
  distinct_ids (mem w) l →
  (length l < fuel)%nat →
  (∀ n, has_id (mem w) k n →
     ∃ r w', insert_obj fuel w n = Done (r, w') ∧
             find_obj_id fuel w' k = Done (Some n)) ∧
  (∃ r w', delete_obj_id fuel w k = Done (r, w') ∧
           find_obj_id fuel w' k = Done None).
Proof.
  intros Hhp Hbc Hdist Hfuel.
  set (b := bucket_of hash (ht w) k) in *.
  pose proof (bucket_of_nonneg (ht w) k Hhp) as Hb. fold b in Hb.
  unfold bucket_chain in Hbc.
  destruct (ptr_table (ht w) !! Z.to_nat b) as [p|] eqn:Hp; [|done].
  pose proof (chain_NoDup _ _ _ Hbc) as Hnd.
  destruct (list_find (has_id (mem w) k) l) as [[i a]|] eqn:Hfind.
  - destruct (chain_find_Some _ _ _ _ _ _ Hbc Hfind)
      as (oa & Hsplit & Hno & Ha & Hk & Hseg1 & Hseg2).
    assert (Hak : has_id (mem w) k a).
    { unfold has_id. rewrite Ha. simpl. by rewrite Hk. }
    rewrite Hsplit in Hnd, Hdist.
    pose proof (distinct_ids_after _ _ _ _ _ Hdist Hak) as Hno2.
    assert (Hlen1 : (length (take i l) < fuel)%nat).
    { rewrite length_take. lia. }
    split.
    + intros n Hnk. pose proof Hnk as Hnk'. unfold has_id in Hnk'.
      destruct (mem w !! n) as [new|] eqn:Hn; [|done]. simpl in Hnk'.
      injection Hnk' as Hnew.
      destruct (insert_obj_core w n new b p (take i l) (Some a) (hash_next oa)
                  (drop (S i) l) fuel)
        as (w' & p' & Hrun & Hp' & Hch' & Hn' & _ & _ & Hhp' & _ & _ & Hids & _);
        try done.
      { by rewrite Hnew. }
      { by rewrite Hnew. }
      { by rewrite Hnew. }
      { by rewrite Ha. }
      { intros Hin. rewrite Forall_forall in Hno2. by apply (Hno2 n). }
      exists (Some a), w'. split; [done|].
      apply lseg_app in Hch' as (r & Hch1 & Hch2).
      pose proof Hch2 as Hr. simpl in Hr. destruct Hr as [-> _].
      eapply (find_obj_id_core w' k b p' (take i l) (Some n)); try done.
      * unfold bucket_of. by rewrite Hhp'.
      * eapply no_id_same; [exact Hids|done].
      * unfold stops, has_id. rewrite Hn'. simpl. by rewrite Hnew.
    + destruct (delete_obj_id_core w k b p (take i l) a oa (drop (S i) l) fuel)
        as (w' & p' & Hrun & Hp' & Hch' & _ & _ & Hhp' & _ & _ & Hids & _);
        try done.
      exists (Some a), w'. split; [done|].
      eapply (find_obj_id_core w' k b p' (take i l ++ drop (S i) l) None);
        try done.
      * unfold bucket_of. by rewrite Hhp'.
      * eapply no_id_same; [exact Hids|]. by apply Forall_app.
      * rewrite length_app, length_take, length_drop. lia.
  - pose proof (chain_find_None _ _ _ _ Hbc Hfind) as Hno.
    split.
    + intros n Hnk. pose proof Hnk as Hnk'. unfold has_id in Hnk'.
      destruct (mem w !! n) as [new|] eqn:Hn; [|done]. simpl in Hnk'.
      injection Hnk' as Hnew.
      destruct (insert_obj_core w n new b p l None None [] fuel)
        as (w' & p' & Hrun & Hp' & Hch' & Hn' & _ & _ & Hhp' & _ & _ & Hids & _);
        try done.
      { by rewrite Hnew. }
      { by rewrite Hnew. }
      { simpl. by rewrite app_nil_r. }
      { apply not_elem_of_nil. }
      exists None, w'. split; [done|].
      apply lseg_app in Hch' as (r & Hch1 & Hch2).
      pose proof Hch2 as Hr. simpl in Hr. destruct Hr as [-> _].
      eapply (find_obj_id_core w' k b p' l (Some n)); try done.
      * unfold bucket_of. by rewrite Hhp'.
      * eapply no_id_same; [exact Hids|done].
      * unfold stops, has_id. rewrite Hn'. simpl. by rewrite Hnew.
    + exists None, w. split.
      * by eapply delete_obj_id_absent.
      * by eapply (find_obj_id_core w k b p l None).
Qed.

(** ** Deleting an absent id *)

(** Claim C9.  When no object in the chain of [k]'s bucket carries [k],
    the lookup of [k] returns [NULL] and the deletion of [k] returns [NULL]
    and leaves the whole state as it was: the table ([n_obj], every bucket
    head) and the object store (every [hash_next] and [in_cache]). *)
Theorem delete_absent_changes_nothing w k l fuel :
  0 ≤ hashpower (ht w) →
  bucket_chain w (bucket_of hash (ht w) k) l →
  Forall (λ a, ¬ has_id (mem w) k a) l →
  (length l < fuel)%nat →
  find_obj_id fuel w k = Done None ∧
  delete_obj_id fuel w k = Done (None, w).
Proof.
  intros Hhp Hbc Hno Hfuel.
  set (b := bucket_of hash (ht w) k) in *.
  pose proof (bucket_of_nonneg (ht w) k Hhp) as Hb. fold b in Hb.
  unfold bucket_chain in Hbc.
  destruct (ptr_table (ht w) !! Z.to_nat b) as [p|] eqn:Hp; [|done].
  split.
  - by eapply (find_obj_id_core w k b p l None).
  - by eapply delete_obj_id_absent.
Qed.

(** ** The invariant of the table *)

Lemma table_wf_bucket w k :
  table_wf w →
  ∃ l, bucket_chain w (bucket_of hash (ht w) k) l ∧
       distinct_ids (mem w) l ∧
       Forall (homed w (bucket_of hash (ht w) k)) l.
Proof.
  intros (Hhp & Hlen & Hall).
  pose proof (bucket_of_nonneg (ht w) k Hhp) as Hb.
  pose proof (bucket_of_lt (ht w) k Hhp) as Hlt.
  destruct (lookup_lt_is_Some_2 (ptr_table (ht w))
              (Z.to_nat (bucket_of hash (ht w) k))) as [p Hp]; [lia|].
  destruct (Hall _ p Hb Hp) as (l & Hch & Hd & Hhome).
  exists l. unfold bucket_chain. by rewrite Hp.
Qed.

Lemma table_wf_no_objects w :
  0 ≤ hashpower (ht w) →
  Z.of_nat (length (ptr_table (ht w))) = 2 ^ hashpower (ht w) →
  Forall (λ p, p = None) (ptr_table (ht w)) →
  table_wf w.
Proof.
  intros Hhp Hlen Hnone. split; [done|]. split; [done|].
  intros b p Hb Hp. exists []. rewrite Forall_forall in Hnone.
  rewrite (Hnone p) by (apply list_elem_of_lookup; eauto).
  split; [done|]. split; [constructor|constructor].
Qed.

Lemma homed_same w w' b l :
  same_ids (mem w) (mem w') →
  hashpower (ht w') = hashpower (ht w) →
  Forall (homed w b) l → Forall (homed w' b) l.
Proof.
  intros Hids Hhp H. eapply Forall_impl; [exact H|].
  intros a (o & Ho & Hb). pose proof (Hids a) as Ha. rewrite Ho in Ha.
  destruct (mem w' !! a) as [o'|] eqn:Ho'; [|done]. simpl in Ha.
  injection Ha as Ha.
  exists o'. split; [done|]. unfold bucket_of in *. by rewrite Hhp, Ha.
Qed.

(** The chains of the other buckets are untouched when only objects of
    bucket [b] change their links. *)
Lemma other_bucket_kept w w' b b' p l :
  b' ≠ b →
  same_ids (mem w) (mem w') →
  hashpower (ht w') = hashpower (ht w) →
  (∀ a, ¬ homed w b a → hash_next <$> mem w' !! a = hash_next <$> mem w !! a) →
  chain (mem w) p l → distinct_ids (mem w) l → Forall (homed w b') l →
  chain (mem w') p l ∧ distinct_ids (mem w') l ∧ Forall (homed w' b') l.
Proof.
  intros Hne Hids Hhp Hframe Hch Hd Hhome.
  split; [|split].
  - eapply lseg_frame; [|exact Hch]. intros a Ha. apply Hframe.
    rewrite Forall_forall in Hhome. destruct (Hhome a Ha) as (o & Ho & Hb).
    intros (o' & Ho' & Hb'). congruence.
  - by eapply distinct_ids_same.
  - by eapply homed_same.
Qed.

(** An insertion keeps the invariant. *)
Lemma insert_obj_keeps_table_wf w n new :
  table_wf w →
  mem w !! n = Some new →
  ∃ l, bucket_chain w (bucket_of hash (ht w) (obj_id new)) l ∧
    ∀ fuel, (length l < fuel)%nat →
      ∃ r w', insert_obj fuel w n = Done (r, w') ∧ table_wf w'.
Proof.
  intros Hwf Hn. pose proof Hwf as (Hhp & Hlen & Hall).
  set (k := obj_id new). set (b := bucket_of hash (ht w) k).
  destruct (table_wf_bucket w k Hwf) as (l & Hbc & Hd & Hhome).
  fold b in Hbc, Hhome. exists l. split; [done|]. intros fuel Hfuel.
  pose proof (bucket_of_nonneg (ht w) k Hhp) as Hb. fold b in Hb.
  unfold bucket_chain in Hbc.
  destruct (ptr_table (ht w) !! Z.to_nat b) as [p|] eqn:Hp; [|done].
  pose proof (chain_NoDup _ _ _ Hbc) as Hnd.
  assert (Hnk : has_id (mem w) k n) by (unfold has_id; by rewrite Hn).
  assert (Hnhome : homed w b n) by (by exists new).
  (* the state after the insertion, in either branch *)
  assert (Hrun : ∃ r w' p' l',
            insert_obj fuel w n = Done (r, w') ∧
            ptr_table (ht w') !! Z.to_nat b = Some p' ∧
            chain (mem w') p' l' ∧ distinct_ids (mem w') l' ∧
            Forall (homed w b) l' ∧
            hashpower (ht w') = hashpower (ht w) ∧
            length (ptr_table (ht w')) = length (ptr_table (ht w)) ∧
            (∀ i, i ≠ Z.to_nat b → ptr_table (ht w') !! i = ptr_table (ht w) !! i) ∧
            same_ids (mem w) (mem w') ∧
            (∀ a, ¬ homed w b a →
                  hash_next <$> mem w' !! a = hash_next <$> mem w !! a)).
  { destruct (list_find (has_id (mem w) k) l) as [[i a]|] eqn:Hfind.
    - destruct (chain_find_Some _ _ _ _ _ _ Hbc Hfind)
        as (oa & Hsplit & Hno & Ha & Hk & Hseg1 & Hseg2).
      assert (Hak : has_id (mem w) k a).
      { unfold has_id. rewrite Ha. simpl. by rewrite Hk. }
      rewrite Hsplit in Hnd, Hd, Hhome.
      pose proof (distinct_ids_after _ _ _ _ _ Hd Hak) as Hno2.
      destruct (insert_obj_core w n new b p (take i l) (Some a) (hash_next oa)
                  (drop (S i) l) fuel)
        as (w' & p' & Hrun & Hp' & Hch' & Hn' & _ & _ & Hhp' & Hlen' & Hother
            & Hids & Hframe); try done.
      { by rewrite Ha. }
      { intros Hin. rewrite Forall_forall in Hno2. by apply (Hno2 n). }
      { rewrite length_take. lia. }
      exists (Some a), w', p', (take i l ++ n :: drop (S i) l).
      split; [done|]. split; [done|]. split; [done|].
      split.
      { eapply distinct_ids_same; [exact Hids|].
        unfold distinct_ids in *. rewrite fmap_app, fmap_cons in *.
        unfold has_id in Hnk, Hak. by rewrite Hnk, <- Hak. }
      split.
      { apply Forall_app in Hhome as [Hh1 Hh2].
        apply Forall_cons in Hh2 as [_ Hh2].
        apply Forall_app. split; [done|]. by constructor. }
      split; [done|]. split; [done|]. split; [done|]. split; [done|].
      intros x Hx. apply Hframe.
      + intros Hin. apply Hx. apply Forall_app in Hhome as [Hh1 _].
        rewrite Forall_forall in Hh1. by apply Hh1.
      + by intros ->.
    - pose proof (chain_find_None _ _ _ _ Hbc Hfind) as Hno.
      destruct (insert_obj_core w n new b p l None None [] fuel)
        as (w' & p' & Hrun & Hp' & Hch' & Hn' & _ & _ & Hhp' & Hlen' & Hother
            & Hids & Hframe); try done.
      { simpl. by rewrite app_nil_r. }
      { apply not_elem_of_nil. }
      exists None, w', p', (l ++ [n]).
      split; [done|]. split; [done|]. split; [done|].
      split.
      { eapply distinct_ids_same; [exact Hids|].
        unfold distinct_ids in *. rewrite fmap_app. simpl.
        apply NoDup_app. split; [done|]. split; [|apply NoDup_singleton].
        intros x Hx Hx'. apply list_elem_of_singleton in Hx'. subst x.
        apply list_elem_of_fmap in Hx as (y & Hy & Hyl).
        rewrite Forall_forall in Hno. apply (Hno y Hyl).
        unfold has_id in *. by rewrite <- Hy. }
      split.
      { apply Forall_app. split; [done|]. by repeat constructor. }
      split; [done|]. split; [done|]. split; [done|]. split; [done|].
      intros x Hx. apply Hframe.
      + intros Hin. apply Hx. rewrite Forall_forall in Hhome. by apply Hhome.
      + by intros ->. }
  destruct Hrun as (r & w' & p' & l' & Hrun & Hp' & Hch' & Hd' & Hhome' & Hhp'
                    & Hlen' & Hother & Hids & Hframe).
  exists r, w'. split; [done|].
  split; [by rewrite Hhp'|]. split; [by rewrite Hlen', Hhp'|].
  intros b0 p0 Hb0 Hp0.
  destruct (decide (b0 = b)) as [->|Hne].
  - rewrite Hp' in Hp0. injection Hp0 as <-. exists l'.
    split; [done|]. split; [done|]. by eapply homed_same.
  - rewrite Hother in Hp0 by lia.
    destruct (Hall b0 p0 Hb0 Hp0) as (l0 & Hch0 & Hd0 & Hhome0).
    exists l0. by eapply (other_bucket_kept w w' b b0).
Qed.

(** A deletion keeps the invariant. *)
Lemma delete_obj_id_keeps_table_wf w k :
  table_wf w →
  ∃ l, bucket_chain w (bucket_of hash (ht w) k) l ∧
    ∀ fuel, (length l < fuel)%nat →
      ∃ r w', delete_obj_id fuel w k = Done (r, w') ∧ table_wf w'.
Proof.
  intros Hwf. pose proof Hwf as (Hhp & Hlen & Hall).
  set (b := bucket_of hash (ht w) k).
  destruct (table_wf_bucket w k Hwf) as (l & Hbc & Hd & Hhome).
  fold b in Hbc, Hhome. exists l. split; [done|]. intros fuel Hfuel.
  pose proof (bucket_of_nonneg (ht w) k Hhp) as Hb. fold b in Hb.
  unfold bucket_chain in Hbc.
  destruct (ptr_table (ht w) !! Z.to_nat b) as [p|] eqn:Hp; [|done].
  pose proof (chain_NoDup _ _ _ Hbc) as Hnd.
  destruct (list_find (has_id (mem w) k) l) as [[i a]|] eqn:Hfind.
  - destruct (chain_find_Some _ _ _ _ _ _ Hbc Hfind)
      as (oa & Hsplit & Hno & Ha & Hk & Hseg1 & Hseg2).
    rewrite Hsplit in Hnd, Hd, Hhome.
    destruct (delete_obj_id_core w k b p (take i l) a oa (drop (S i) l) fuel)
      as (w' & p' & Hrun & Hp' & Hch' & _ & _ & Hhp' & Hlen' & Hother & Hids
          & Hframe); try done.
    { rewrite length_take. lia. }
    exists (Some a), w'. split; [done|].
    split; [by rewrite Hhp'|]. split; [by rewrite Hlen', Hhp'|].
    intros b0 p0 Hb0 Hp0.
    destruct (decide (b0 = b)) as [->|Hne].
    + rewrite Hp' in Hp0. injection Hp0 as <-.
      exists (take i l ++ drop (S i) l). split; [done|].
      apply Forall_app in Hhome as [Hh1 Hh2].
      apply Forall_cons in Hh2 as [_ Hh2].
      split.
      * eapply distinct_ids_same; [exact Hids|].
        unfold distinct_ids in *. rewrite fmap_app, fmap_cons in Hd.
        rewrite fmap_app.
        apply NoDup_app in Hd as (Hd1 & Hd12 & Hd2).
        apply NoDup_cons in Hd2 as [_ Hd2].
        apply NoDup_app. split; [done|]. split; [|done].
        intros x Hx Hx'. apply (Hd12 x Hx). by right.
      * eapply homed_same; [exact Hids|done|]. by apply Forall_app.
    + rewrite Hother in Hp0 by lia.
      destruct (Hall b0 p0 Hb0 Hp0) as (l0 & Hch0 & Hd0 & Hhome0).
      exists l0. eapply (other_bucket_kept w w' b b0); try done.
      intros x Hx. apply Hframe. intros Hin. apply Hx.
      apply Forall_app in Hhome as [Hh1 _].
      rewrite Forall_forall in Hh1. by apply Hh1.
  - pose proof (chain_find_None _ _ _ _ Hbc Hfind) as Hno.
    exists None, w. split; [|done]. by eapply delete_obj_id_absent.
Qed.

(** ** The [in_cache] flag *)

Lemma flags_only_lowered_refl w : flags_only_lowered w w.
Proof. intros a. by left. Qed.

Lemma flags_only_lowered_trans w1 w2 w3 :
  flags_only_lowered w1 w2 → flags_only_lowered w2 w3 →
  flags_only_lowered w1 w3.
Proof.
  intros H12 H23 a. destruct (H23 a) as [H|H]; [|by right].
  rewrite H. apply H12.
Qed.

Lemma update_obj_lowered w a f w' :
  (∀ o, in_cache (f o) = in_cache o ∨ in_cache (f o) = false) →
  update_obj w a f = Done w' →
  flags_only_lowered w w'.
Proof.
  intros Hf Hupd. apply update_obj_Done in Hupd as (o & Ho & ->).
  intros x. simpl. destruct (decide (x = a)) as [->|Hne].
  - rewrite lookup_insert_eq, Ho. simpl. destruct (Hf o) as [->| ->]; eauto.
  - rewrite lookup_insert_ne by done. by left.
Qed.

Lemma update_obj_flag_false w a w' :
  update_obj w a (λ o, cache_obj_set_in_cache o false) = Done w' →
  in_cache <$> mem w' !! a = Some false.
Proof.
  intros Hupd. apply update_obj_Done in Hupd as (o & Ho & ->).
  simpl. by rewrite lookup_insert_eq.
Qed.

Lemma store_lowered w ptr p w' :
  store w ptr p = Done w' → flags_only_lowered w w'.
Proof.
  destruct ptr as [b|a]; simpl.
  - case_decide; [|done]. intros [= <-]. intros a. by left.
  - apply update_obj_lowered. intros o. by left.
Qed.

Lemma lowered_false w w' a :
  flags_only_lowered w w' →
  in_cache <$> mem w !! a = Some false →
  in_cache <$> mem w' !! a = Some false.
Proof. intros H Ha. destruct (H a) as [Hs|Hs]; [by rewrite Hs|done]. Qed.

(** An insertion only lowers flags, and lowers those of the inserted and
    of the replaced object. *)
Lemma insert_obj_flags fuel w n old w' :
  insert_obj fuel w n = Done (old, w') →
  flags_only_lowered w w' ∧
  in_cache <$> mem w' !! n = Some false ∧
  (∀ a, old = Some a → in_cache <$> mem w' !! a = Some false).
Proof.
  unfold concurrent_chained_hashtable_insert_obj. intros H.
  apply bind_Done in H as (new & _ & H).
  apply bind_Done in H as (ptr & _ & H).
  apply bind_Done in H as (old' & _ & H).
  apply bind_Done in H as (next & _ & H).
  apply bind_Done in H as (w1 & Hw1 & H).
  apply bind_Done in H as (w2 & Hw2 & H).
  apply bind_Done in H as (w3 & Hw3 & H).
  assert (H01 : flags_only_lowered w w1).
  { eapply update_obj_lowered; [|exact Hw1]. intros o. by left. }
  assert (H12 : flags_only_lowered w1 w2).
  { eapply update_obj_lowered; [|exact Hw2]. intros o. by right. }
  assert (H23 : flags_only_lowered w2 w3) by (by eapply store_lowered).
  assert (Hn3 : in_cache <$> mem w3 !! n = Some false).
  { eapply lowered_false; [exact H23|]. by eapply update_obj_flag_false. }
  assert (H03 : flags_only_lowered w w3).
  { eauto using flags_only_lowered_trans. }
  destruct old' as [a|].
  - apply bind_Done in H as (w4 & Hw4 & H). injection H as <- <-.
    assert (H34 : flags_only_lowered w3 w4).
    { eapply update_obj_lowered; [|exact Hw4]. intros o. by right. }
    split; [eauto using flags_only_lowered_trans|].
    split; [by eapply lowered_false|].
    intros a' [= <-]. by eapply update_obj_flag_false.
  - injection H as <- <-. simpl. done.
Qed.

Lemma delete_obj_id_flags fuel w k r w' :
  delete_obj_id fuel w k = Done (r, w') →
  flags_only_lowered w w' ∧
  (∀ a, r = Some a → in_cache <$> mem w' !! a = Some false).
Proof.
  unfold concurrent_chained_hashtable_delete_obj_id. intros H.
  apply bind_Done in H as (ptr & _ & H).
  apply bind_Done in H as (res & _ & H).
  destruct res as [a|].
  - apply bind_Done in H as (w1 & Hw1 & H).
    apply bind_Done in H as (o & _ & H).
    apply bind_Done in H as (w2 & Hw2 & H). injection H as <- <-.
    assert (H01 : flags_only_lowered w w1).
    { eapply update_obj_lowered; [|exact Hw1]. intros o'. by right. }
    assert (H12 : flags_only_lowered w1 w2) by (by eapply store_lowered).
    split; [eauto using flags_only_lowered_trans|].
    intros a' [= <-]. simpl. eapply lowered_false; [exact H12|].
    by eapply update_obj_flag_false.
  - injection H as <- <-. split; [apply flags_only_lowered_refl|done].
Qed.

Lemma step_flags fuel w o w' t :
  step fuel w o = Done (w', t) →
  flags_only_lowered w w' ∧
  Forall (λ a, in_cache <$> mem w' !! a = Some false) t.
Proof.
  destruct o as [k|n|k|rnd]; simpl; intros H.
  4:{ apply bind_Done in H as (r & _ & H). injection H as <- <-.
      split; [apply flags_only_lowered_refl|constructor]. }
  - apply bind_Done in H as (r & _ & H). injection H as <- <-.
    split; [apply flags_only_lowered_refl|constructor].
  - apply bind_Done in H as ([old w1] & Hrun & H). injection H as <- <-.
    apply insert_obj_flags in Hrun as (Hlow & Hn & Hold).
    split; [done|]. simpl. constructor; [done|].
    destruct old as [a|]; simpl; [|constructor].
    constructor; [by apply Hold|constructor].
  - apply bind_Done in H as ([r w1] & Hrun & H). injection H as <- <-.
    apply delete_obj_id_flags in Hrun as (Hlow & Hr).
    split; [done|]. simpl.
    destruct r as [a|]; simpl; [|constructor].
    constructor; [by apply Hr|constructor].
Qed.

(** Claim C10.  Whatever sequence of lookups, insertions, deletions and
    random probes runs, no [in_cache] flag is ever raised: in the final state every flag
    has its initial value or is [false]; and every object the operations
    touched (each inserted object, each replaced object, each removed
    object) ends with [in_cache = false]. *)
Theorem table_operations_never_raise_in_cache fuel ops : ∀ w w' touched,
  run fuel w ops = Done (w', touched) →
  flags_only_lowered w w' ∧
  Forall (λ a, in_cache <$> mem w' !! a = Some false) touched.
Proof.
  induction ops as [|o ops IH]; intros w w' touched H; simpl in H.
  - injection H as <- <-. split; [apply flags_only_lowered_refl|constructor].
  - apply bind_Done in H as ([w1 t1] & Hstep & H).
    apply bind_Done in H as ([w2 t2] & Hrun & H). simpl in *.
    injection H as <- <-.
    apply step_flags in Hstep as (Hlow1 & Ht1).
    apply IH in Hrun as (Hlow2 & Ht2).
    split; [eauto using flags_only_lowered_trans|].
    apply Forall_app. split; [|done].
    eapply Forall_impl; [exact Ht1|]. intros a Ha. by eapply lowered_false.
Qed.

End Ops.

(** ** The random probe *)

Lemma load_bucket w pos : load w (BucketCell pos) = of_option (bucket_head w pos).
Proof. unfold bucket_head. simpl. by case_decide. Qed.

Lemma rand_obj_loop_S fuel rnd w pos :
  rand_obj_loop (S fuel) rnd w pos =
  (p ← of_option (bucket_head w pos);
   match p with
   | None => rand_obj_loop fuel (λ n, rnd (S n)) w (probe rnd w O)
   | Some _ => of_option (bucket_head w pos)
   end).
Proof. by rewrite <- load_bucket. Qed.

(** Whatever the loop returns is the head of a non-empty bucket. *)
Lemma rand_obj_loop_result fuel : ∀ rnd w pos r,
  rand_obj_loop fuel rnd w pos = Done r →
  ∃ pos' a, r = Some a ∧ bucket_head w pos' = Some (Some a).
Proof.
  induction fuel as [|fuel IH]; intros rnd w pos r H; [done|].
  rewrite rand_obj_loop_S in H.
  destruct (bucket_head w pos) as [[a|]|] eqn:Hhead; simpl in H.
  - injection H as <-. eauto.
  - by eapply IH.
  - done.
Qed.

(** On a table without objects the loop never leaves. *)
Lemma rand_obj_loop_empty fuel : ∀ rnd w pos,
  (∀ i, bucket_head w (probe rnd w i) = Some None) →
  bucket_head w pos = Some None →
  rand_obj_loop fuel rnd w pos = Timeout.
Proof.
  induction fuel as [|fuel IH]; intros rnd w pos Hall Hpos; [done|].
  rewrite rand_obj_loop_S, Hpos. simpl. apply IH.
  - intros i. apply (Hall (S i)).
  - apply (Hall O).
Qed.

(** The loop leaves at the first draw of a non-empty bucket. *)
Lemma rand_obj_loop_first j : ∀ fuel rnd w pos a,
  (j < fuel)%nat →
  (∀ i, (i < j)%nat →
     bucket_head w (match i with O => pos | S i' => probe rnd w i' end)
     = Some None) →
  bucket_head w (match j with O => pos | S j' => probe rnd w j' end)
  = Some (Some a) →
  rand_obj_loop fuel rnd w pos = Done (Some a).
Proof.
  induction j as [|j IH]; intros fuel rnd w pos a Hfuel Hbefore Hj.
  - destruct fuel as [|fuel]; [lia|]. rewrite rand_obj_loop_S.
    simpl in Hj. rewrite Hj. done.
  - destruct fuel as [|fuel]; [lia|]. rewrite rand_obj_loop_S.
    rewrite (Hbefore O) by lia. simpl.
    apply IH; [lia| |].
    + intros i Hi. destruct i as [|i'].
      * apply (Hbefore 1%nat). lia.
      * apply (Hbefore (S (S i'))). lia.
    + destruct j as [|j']; exact Hj.
Qed.

(** Claim C6 (as amended).  On a table of [2^hashpower] buckets,
    [rand_obj] has no retry bound and never returns [NULL]: whatever it
    returns is the head of a non-empty bucket; it returns at the first draw
    that selects a non-empty bucket; and when every bucket is empty it does
    not return, however long it runs. *)
Theorem rand_obj_probes_until_nonempty (w : world) (rnd : nat → Z) :
  0 ≤ hashpower (ht w) →
  Z.of_nat (length (ptr_table (ht w))) = 2 ^ hashpower (ht w) →
  (∀ fuel r, concurrent_chained_hashtable_rand_obj fuel rnd w = Done r →
     ∃ pos a, r = Some a ∧ bucket_head w pos = Some (Some a)) ∧
  (∀ j a,
     (∀ i, (i < j)%nat → bucket_head w (probe rnd w i) = Some None) →
     bucket_head w (probe rnd w j) = Some (Some a) →
     ∀ fuel, (j < fuel)%nat →
       concurrent_chained_hashtable_rand_obj fuel rnd w = Done (Some a)) ∧
  (Forall (λ p, p = None) (ptr_table (ht w)) →
   ∀ fuel, concurrent_chained_hashtable_rand_obj fuel rnd w = Timeout).
Proof.
  intros Hhp Hlen. unfold concurrent_chained_hashtable_rand_obj.
  split; [|split].
  - intros fuel r H. by eapply rand_obj_loop_result.
  - intros j a Hbefore Hj fuel Hfuel.
    apply (rand_obj_loop_first j); [done| |].
    + intros i Hi. destruct i as [|i']; [apply (Hbefore O); lia|].
      apply (Hbefore (S i')). lia.
    + destruct j as [|j']; exact Hj.
  - intros Hempty fuel.
    assert (Hall : ∀ i, bucket_head w (probe rnd w i) = Some None).
    { intros i. unfold bucket_head, probe.
      assert (0 ≤ Z.land (rnd i) (hashmask (hashpower (ht w))) <
              2 ^ hashpower (ht w)) as [Hlo Hhi].
      { split.
        - apply Z.land_nonneg. right. unfold hashmask, hashsize.
          rewrite Z.shiftl_1_l. pose proof (Z.pow_pos_nonneg 2 _ eq_refl Hhp).
          lia.
        - unfold hashmask, hashsize. rewrite Z.shiftl_1_l.
          replace (2 ^ hashpower (ht w) - 1) with (Z.ones (hashpower (ht w)))
            by (rewrite Z.ones_equiv; lia).
          rewrite Z.land_ones by done.
          apply Z.mod_pos_bound. by apply Z.pow_pos_nonneg. }
      rewrite decide_True by done.
      destruct (ptr_table (ht w) !! Z.to_nat _) as [p|] eqn:Hp.
      - rewrite Forall_forall in Hempty. f_equal. apply Hempty.
        apply list_elem_of_lookup. eauto.
      - apply lookup_ge_None in Hp. lia. }
    apply rand_obj_loop_empty.
    + intros i. apply (Hall (S i)).
    + apply (Hall O).
Qed.

(** ** The statements on the example table *)

Lemma insert_obj_witness :
  (∃ w', concurrent_chained_hashtable_insert_obj (λ x, x) 3 ex_world 3%positive
           = Done (Some 2%positive, w') ∧
         bucket_chain w' 0 [1%positive; 3%positive] ∧
         n_obj (ht w') = 2) ∧
  (∃ w', concurrent_chained_hashtable_insert_obj (λ x, x) 3 ex_world 4%positive
           = Done (None, w') ∧
         bucket_chain w' 0 [1%positive; 2%positive; 4%positive] ∧
         n_obj (ht w') = 3).
Proof.
  split.
  - pose proof (insert_obj_replaces_or_appends (λ x, x) ex_world 3%positive
                  (mk_obj 20 5 None true) [1%positive; 2%positive] 3) as H.
    assert (H1 : 0 ≤ hashpower (ht ex_world)) by (simpl; lia).
    assert (H2 : mem ex_world !! 3%positive = Some (mk_obj 20 5 None true))
      by reflexivity.
    assert (H3 : bucket_chain ex_world
                   (bucket_of (λ x, x) (ht ex_world) (obj_id (mk_obj 20 5 None true)))
                   [1%positive; 2%positive]) by (vm_compute; auto).
    assert (H4 : 3%positive ∉ [1%positive; 2%positive]) by set_solver.
    assert (H5 : (length [1%positive; 2%positive] < 3)%nat) by (simpl; lia).
    specialize (H H1 H2 H3 H4 H5).
    destruct H as (w' & Hrun & Hch & _ & _ & _ & _ & Hn).
    exists w'. split; [exact Hrun|]. split; [exact Hch|exact Hn].
  - pose proof (insert_obj_replaces_or_appends (λ x, x) ex_world 4%positive
                  (mk_obj 30 1 None true) [1%positive; 2%positive] 3) as H.
    assert (H1 : 0 ≤ hashpower (ht ex_world)) by (simpl; lia).
    assert (H2 : mem ex_world !! 4%positive = Some (mk_obj 30 1 None true))
      by reflexivity.
    assert (H3 : bucket_chain ex_world
                   (bucket_of (λ x, x) (ht ex_world) (obj_id (mk_obj 30 1 None true)))
                   [1%positive; 2%positive]) by (vm_compute; auto).
    assert (H4 : 4%positive ∉ [1%positive; 2%positive]) by set_solver.
    assert (H5 : (length [1%positive; 2%positive] < 3)%nat) by (simpl; lia).
    specialize (H H1 H2 H3 H4 H5).
    destruct H as (w' & Hrun & Hch & _ & _ & _ & Hn).
    exists w'. split; [exact Hrun|]. split; [exact Hch|].
    apply Hn. simpl. lia.
Defined.

(** Claim C1 as stated fails: the object 4 (id 30), inserted into the
    bucket that holds 1 and 2, does not become the head of the chain; the
    head stays 1 and 4 is linked behind 2. *)
Lemma insert_obj_not_prepended :
  ∃ w', concurrent_chained_hashtable_insert_obj (λ x, x) 3 ex_world 4%positive
          = Done (None, w') ∧
        ¬ bucket_chain w' 0 [4%positive; 1%positive; 2%positive] ∧
        ptr_table (ht w') !! 0%nat = Some (Some 1%positive) ∧
        hash_next <$> mem w' !! 2%positive = Some (Some 4%positive).
Proof.
  eexists. split; [vm_compute; reflexivity|].
  split; [|split; reflexivity].
  vm_compute. intros [H _]. discriminate H.
Qed.

Lemma find_after_insert_and_after_delete_witness :
  (∀ n, has_id (mem ex_world) 20 n →
     ∃ r w', concurrent_chained_hashtable_insert_obj (λ x, x) 3 ex_world n
               = Done (r, w') ∧
             concurrent_chained_hashtable_find_obj_id (λ x, x) 3 w' 20
               = Done (Some n)) ∧
  (∃ r w', concurrent_chained_hashtable_delete_obj_id (λ x, x) 3 ex_world 20
             = Done (r, w') ∧
           concurrent_chained_hashtable_find_obj_id (λ x, x) 3 w' 20 = Done None).
Proof.
  apply (find_after_insert_and_after_delete (λ x, x) ex_world 20
           [1%positive; 2%positive] 3).
  - simpl. lia.
  - vm_compute. auto.
  - unfold distinct_ids. vm_compute.
    repeat constructor; set_solver.
  - simpl. lia.
Defined.

Lemma delete_absent_changes_nothing_witness :
  concurrent_chained_hashtable_find_obj_id (λ x, x) 3 ex_world 40 = Done None ∧
  concurrent_chained_hashtable_delete_obj_id (λ x, x) 3 ex_world 40
    = Done (None, ex_world).
Proof.
  apply (delete_absent_changes_nothing (λ x, x) ex_world 40
           [1%positive; 2%positive] 3).
  - simpl. lia.
  - vm_compute. auto.
  - repeat constructor; vm_compute; discriminate.
  - simpl. lia.
Defined.

Lemma table_operations_never_raise_in_cache_witness :
  ∃ w' touched,
    run (λ x, x) 3 ex_world
        [Insert 3%positive; Delete 10; Find 20; RandObj (λ _, 0);
         Insert 4%positive]
      = Done (w', touched) ∧
    touched = [3%positive; 2%positive; 1%positive; 4%positive] ∧
    flags_only_lowered ex_world w' ∧
    Forall (λ a, in_cache <$> mem w' !! a = Some false) touched.
Proof.
  eexists _, _. split; [vm_compute; reflexivity|].
  split; [reflexivity|].
  apply (table_operations_never_raise_in_cache (λ x, x) 3
           [Insert 3%positive; Delete 10; Find 20; RandObj (λ _, 0);
            Insert 4%positive] ex_world).
  vm_compute. reflexivity.
Defined.

Lemma rand_obj_probes_until_nonempty_witness :
  concurrent_chained_hashtable_rand_obj 2 (λ i, Z.of_nat i + 1) ex_world
    = Done (Some 1%positive) ∧
  (∀ fuel, concurrent_chained_hashtable_rand_obj fuel (λ _, 0) ex_empty
           = Timeout).
Proof.
  split.
  - assert (H1 : 0 ≤ hashpower (ht ex_world)) by (simpl; lia).
    assert (H2 : Z.of_nat (length (ptr_table (ht ex_world))) =
                 2 ^ hashpower (ht ex_world)) by reflexivity.
    destruct (rand_obj_probes_until_nonempty ex_world (λ i, Z.of_nat i + 1) H1 H2)
      as (_ & Hfirst & _).
    apply (Hfirst 1%nat 1%positive).
    + intros i Hi. assert (i = 0%nat) as -> by lia. reflexivity.
    + reflexivity.
    + lia.
  - assert (H1 : 0 ≤ hashpower (ht ex_empty)) by (simpl; lia).
    assert (H2 : Z.of_nat (length (ptr_table (ht ex_empty))) =
                 2 ^ hashpower (ht ex_empty)) by reflexivity.
    destruct (rand_obj_probes_until_nonempty ex_empty (λ _, 0) H1 H2)
      as (_ & _ & Hempty).
    apply Hempty. repeat constructor.
Defined.

(** Claim C6 as stated fails: on the empty table the probe loop has no
    retry bound to exhaust; no amount of running makes it return, [NULL]
    or otherwise. *)
Lemma rand_obj_empty_never_returns :
  ¬ ∃ fuel r, concurrent_chained_hashtable_rand_obj fuel (λ _, 0) ex_empty
              = Done r.
Proof.
  intros (fuel & r & H).
  unfold concurrent_chained_hashtable_rand_obj in H.
  rewrite rand_obj_loop_empty in H; [done| |]; reflexivity.
Qed.

(** ** More on the walk and the lookup *)

(** More fuel does not change what a walk returns. *)
Lemma find_pointer_from_mono fuel : ∀ fuel' w ptr k c,
  find_pointer_from fuel w ptr k = Done c →
  (fuel ≤ fuel')%nat →
  find_pointer_from fuel' w ptr k = Done c.
Proof.
  induction fuel as [|fuel IH]; intros fuel' w ptr k c H Hle; [done|].
  destruct fuel' as [|fuel']; [lia|]. simpl in *.
  destruct (load w ptr) as [[a|]| |]; simpl in *; try done.
  destruct (deref w a) as [o| |]; simpl in *; try done.
  case_decide; [|done]. apply IH; [done|lia].
Qed.

Section More_ops.

Variable hash : Z → Z.

Abbreviation find_obj_id := (concurrent_chained_hashtable_find_obj_id hash).
Abbreviation insert_obj := (concurrent_chained_hashtable_insert_obj hash).
Abbreviation delete_obj_id := (concurrent_chained_hashtable_delete_obj_id hash).
Abbreviation find_obj := (concurrent_chained_hashtable_find_obj hash).
Abbreviation delete_by_obj := (concurrent_chained_hashtable_delete hash).
Abbreviation try_delete := (concurrent_chained_hashtable_try_delete hash).
Abbreviation homed := (CHT.homed hash).
Abbreviation table_wf := (CHT.table_wf hash).
Abbreviation step := (CHT.step hash).
Abbreviation run := (CHT.run hash).

Lemma find_obj_id_mono fuel fuel' w k r :
  find_obj_id fuel w k = Done r → (fuel ≤ fuel')%nat →
  find_obj_id fuel' w k = Done r.
Proof.
  unfold concurrent_chained_hashtable_find_obj_id, find_pointer_locked.
  intros H Hle. apply bind_Done in H as (ptr & Hptr & H).
  by rewrite (find_pointer_from_mono _ _ _ _ _ _ Hptr Hle).
Qed.

Lemma insert_obj_mono fuel fuel' w n r :
  insert_obj fuel w n = Done r → (fuel ≤ fuel')%nat →
  insert_obj fuel' w n = Done r.
Proof.
  unfold concurrent_chained_hashtable_insert_obj, find_pointer_locked.
  intros H Hle. apply bind_Done in H as (new & Hnew & H). rewrite Hnew. simpl.
  apply bind_Done in H as (ptr & Hptr & H).
  by rewrite (find_pointer_from_mono _ _ _ _ _ _ Hptr Hle).
Qed.

Lemma delete_obj_id_mono fuel fuel' w k r :
  delete_obj_id fuel w k = Done r → (fuel ≤ fuel')%nat →
  delete_obj_id fuel' w k = Done r.
Proof.
  unfold concurrent_chained_hashtable_delete_obj_id, find_pointer_locked.
  intros H Hle. apply bind_Done in H as (ptr & Hptr & H).
  by rewrite (find_pointer_from_mono _ _ _ _ _ _ Hptr Hle).
Qed.

(** Property X1.  The lookup returns the first object of the bucket chain
    that carries the id, and [NULL] exactly when no object of the chain
    carries it. *)
Theorem find_obj_id_returns_first_match w k l fuel :
  0 ≤ hashpower (ht w) →
  bucket_chain w (bucket_of hash (ht w) k) l →
  (length l < fuel)%nat →
  find_obj_id fuel w k = Done (snd <$> list_find (has_id (mem w) k) l) ∧
  (∀ a, find_obj_id fuel w k = Done (Some a) → a ∈ l ∧ has_id (mem w) k a) ∧
  (find_obj_id fuel w k = Done None ↔ Forall (λ a, ¬ has_id (mem w) k a) l).
Proof.
  intros Hhp Hbc Hfuel.
  set (b := bucket_of hash (ht w) k) in *.
  pose proof (bucket_of_nonneg hash (ht w) k Hhp) as Hb. fold b in Hb.
  unfold bucket_chain in Hbc.
  destruct (ptr_table (ht w) !! Z.to_nat b) as [p|] eqn:Hp; [|done].
  assert (Hres : find_obj_id fuel w k
                 = Done (snd <$> list_find (has_id (mem w) k) l)).
  { destruct (list_find (has_id (mem w) k) l) as [[i a]|] eqn:Hfind.
    - destruct (chain_find_Some _ _ _ _ _ _ Hbc Hfind)
        as (oa & Hsplit & Hno & Ha & Hk & Hseg1 & Hseg2).
      apply (find_obj_id_core hash w k b p (take i l) (Some a)); try done.
      + unfold stops, has_id. rewrite Ha. simpl. by rewrite Hk.
      + rewrite length_take. lia.
    - pose proof (chain_find_None _ _ _ _ Hbc Hfind) as Hno.
      by apply (find_obj_id_core hash w k b p l None). }
  split; [done|]. rewrite Hres. split.
  - intros a [= Ha].
    destruct (list_find (has_id (mem w) k) l) as [[i a']|] eqn:Hfind; [|done].
    simpl in Ha. injection Ha as ->.
    apply list_find_Some in Hfind as (Hi & Hid & _).
    split; [|done]. apply list_elem_of_lookup. eauto.
  - split.
    + intros [= Hnone].
      destruct (list_find (has_id (mem w) k) l) eqn:Hfind; [done|].
      by apply list_find_None in Hfind.
    + intros Hno. apply (list_find_None (has_id (mem w) k)) in Hno.
      by rewrite Hno.
Qed.

(** *** What an insertion and a deletion do to a well-formed table *)

Lemma bucket_chain_wf w k l :
  table_wf w →
  bucket_chain w (bucket_of hash (ht w) k) l →
  distinct_ids (mem w) l ∧ Forall (homed w (bucket_of hash (ht w) k)) l.
Proof.
  intros Hwf Hbc.
  destruct (table_wf_bucket hash w k Hwf) as (l0 & Hbc0 & Hd & Hhome).
  unfold bucket_chain in *.
  destruct (ptr_table (ht w) !! Z.to_nat _) as [p|]; [|done].
  by rewrite (chain_functional _ _ _ _ Hbc Hbc0).
Qed.

Lemma insert_obj_effect w n new l fuel :
  table_wf w →
  mem w !! n = Some new →
  bucket_chain w (bucket_of hash (ht w) (obj_id new)) l →
  (length l < fuel)%nat →
  ∃ r w' l',
    insert_obj fuel w n = Done (r, w') ∧
    table_wf w' ∧
    bucket_chain w' (bucket_of hash (ht w) (obj_id new)) l' ∧
    length (ptr_table (ht w')) = length (ptr_table (ht w)) ∧
    hashpower (ht w') = hashpower (ht w) ∧
    same_ids (mem w) (mem w') ∧
    in_cache <$> mem w' !! n = Some false ∧
    (∀ i p l0, i ≠ Z.to_nat (bucket_of hash (ht w) (obj_id new)) →
       ptr_table (ht w) !! i = Some p → chain (mem w) p l0 →
       ptr_table (ht w') !! i = Some p ∧ chain (mem w') p l0) ∧
    ((∃ i a, r = Some a ∧ l !! i = Some a ∧ has_id (mem w) (obj_id new) a ∧
             l' = <[i := n]> l ∧ n_obj (ht w') = n_obj (ht w)) ∨
     (r = None ∧ Forall (λ a, ¬ has_id (mem w) (obj_id new) a) l ∧
      l' = l ++ [n] ∧ n_obj (ht w') = wrap64 (n_obj (ht w) + 1))).
Proof.
  intros Hwf Hn Hbc Hfuel. pose proof Hwf as (Hhp & Hlen & Hall).
  set (k := obj_id new) in *. set (b := bucket_of hash (ht w) k) in *.
  destruct (bucket_chain_wf w k l Hwf Hbc) as [Hd Hhome]. fold b in Hhome.
  pose proof (bucket_of_nonneg hash (ht w) k Hhp) as Hb. fold b in Hb.
  unfold bucket_chain in Hbc.
  destruct (ptr_table (ht w) !! Z.to_nat b) as [p|] eqn:Hp; [|done].
  pose proof (chain_NoDup _ _ _ Hbc) as Hnd.
  assert (Hnk : has_id (mem w) k n) by (unfold has_id; by rewrite Hn).
  assert (Hnhome : homed w b n) by (by exists new).
  assert (Hrun : ∃ r w' p' l',
            insert_obj fuel w n = Done (r, w') ∧
            ptr_table (ht w') !! Z.to_nat b = Some p' ∧
            chain (mem w') p' l' ∧ distinct_ids (mem w') l' ∧
            Forall (homed w b) l' ∧
            hashpower (ht w') = hashpower (ht w) ∧
            length (ptr_table (ht w')) = length (ptr_table (ht w)) ∧
            (∀ i, i ≠ Z.to_nat b → ptr_table (ht w') !! i = ptr_table (ht w) !! i) ∧
            same_ids (mem w) (mem w') ∧
            (∀ a, ¬ homed w b a →
                  hash_next <$> mem w' !! a = hash_next <$> mem w !! a) ∧
            in_cache <$> mem w' !! n = Some false ∧
            ((∃ i a, r = Some a ∧ l !! i = Some a ∧ has_id (mem w) k a ∧
                     l' = <[i := n]> l ∧ n_obj (ht w') = n_obj (ht w)) ∨
             (r = None ∧ Forall (λ a, ¬ has_id (mem w) k a) l ∧
              l' = l ++ [n] ∧ n_obj (ht w') = wrap64 (n_obj (ht w) + 1)))).
  { destruct (list_find (has_id (mem w) k) l) as [[i a]|] eqn:Hfind.
    - destruct (chain_find_Some _ _ _ _ _ _ Hbc Hfind)
        as (oa & Hsplit & Hno & Ha & Hk & Hseg1 & Hseg2).
      assert (Hia : l !! i = Some a).
      { by apply list_find_Some in Hfind as (? & _). }
      assert (Hak : has_id (mem w) k a).
      { unfold has_id. rewrite Ha. simpl. by rewrite Hk. }
      rewrite Hsplit in Hnd, Hd, Hhome.
      pose proof (distinct_ids_after _ _ _ _ _ Hd Hak) as Hno2.
      destruct (insert_obj_core hash w n new b p (take i l) (Some a)
                  (hash_next oa) (drop (S i) l) fuel)
        as (w' & p' & Hrun & Hp' & Hch' & Hn' & _ & Hnobj & Hhp' & Hlen' & Hother
            & Hids & Hframe); try done.
      { by rewrite Ha. }
      { intros Hin. rewrite Forall_forall in Hno2. by apply (Hno2 n). }
      { rewrite length_take. lia. }
      exists (Some a), w', p', (take i l ++ n :: drop (S i) l).
      split; [done|]. split; [done|]. split; [done|].
      split.
      { eapply distinct_ids_same; [exact Hids|].
        unfold distinct_ids in *. rewrite fmap_app, fmap_cons in *.
        unfold has_id in Hnk, Hak. by rewrite Hnk, <- Hak. }
      split.
      { apply Forall_app in Hhome as [Hh1 Hh2].
        apply Forall_cons in Hh2 as [_ Hh2].
        apply Forall_app. split; [done|]. by constructor. }
      split; [done|]. split; [done|]. split; [done|]. split; [done|].
      split.
      { intros x Hx. apply Hframe.
        + intros Hin. apply Hx. apply Forall_app in Hhome as [Hh1 _].
          rewrite Forall_forall in Hh1. by apply Hh1.
        + by intros ->. }
      split; [by rewrite Hn'|].
      left. exists i, a. split; [done|]. split; [done|]. split; [done|].
      split; [|done].
      rewrite insert_take_drop; [done|]. by eapply lookup_lt_Some.
    - pose proof (chain_find_None _ _ _ _ Hbc Hfind) as Hno.
      destruct (insert_obj_core hash w n new b p l None None [] fuel)
        as (w' & p' & Hrun & Hp' & Hch' & Hn' & _ & Hnobj & Hhp' & Hlen' & Hother
            & Hids & Hframe); try done.
      { simpl. by rewrite app_nil_r. }
      { apply not_elem_of_nil. }
      exists None, w', p', (l ++ [n]).
      split; [done|]. split; [done|]. split; [done|].
      split.
      { eapply distinct_ids_same; [exact Hids|].
        unfold distinct_ids in *. rewrite fmap_app. simpl.
        apply NoDup_app. split; [done|]. split; [|apply NoDup_singleton].
        intros x Hx Hx'. apply list_elem_of_singleton in Hx'. subst x.
        apply list_elem_of_fmap in Hx as (y & Hy & Hyl).
        rewrite Forall_forall in Hno. apply (Hno y Hyl).
        unfold has_id in *. by rewrite <- Hy. }
      split.
      { apply Forall_app. split; [done|]. by repeat constructor. }
      split; [done|]. split; [done|]. split; [done|]. split; [done|].
      split.
      { intros x Hx. apply Hframe.
        + intros Hin. apply Hx. rewrite Forall_forall in Hhome. by apply Hhome.
        + by intros ->. }
      split; [by rewrite Hn'|].
      right. done. }
  destruct Hrun as (r & w' & p' & l' & Hrun & Hp' & Hch' & Hd' & Hhome' & Hhp'
                    & Hlen' & Hother & Hids & Hframe & Hflag & Hrel).
  assert (Hkeep : ∀ i p0 l0, i ≠ Z.to_nat b →
            ptr_table (ht w) !! i = Some p0 → chain (mem w) p0 l0 →
            chain (mem w') p0 l0 ∧ distinct_ids (mem w') l0 ∧
            Forall (homed w' (Z.of_nat i)) l0).
  { intros i p0 l0 Hi Hp0 Hch0.
    destruct (Hall (Z.of_nat i) p0) as (l1 & Hch1 & Hd1 & Hhome1); [lia| |].
    { by rewrite Nat2Z.id. }
    rewrite (chain_functional _ _ _ _ Hch0 Hch1).
    eapply (other_bucket_kept hash w w' b (Z.of_nat i)); try done. lia. }
  exists r, w', l'. split; [done|].
  split.
  { split; [by rewrite Hhp'|]. split; [by rewrite Hlen', Hhp'|].
    intros b0 p0 Hb0 Hp0.
    destruct (decide (b0 = b)) as [->|Hne].
    - rewrite Hp' in Hp0. injection Hp0 as <-. exists l'.
      split; [done|]. split; [done|]. by eapply homed_same.
    - rewrite Hother in Hp0 by lia.
      destruct (Hall b0 p0 Hb0 Hp0) as (l0 & Hch0 & _).
      exists l0.
      destruct (Hkeep (Z.to_nat b0) p0 l0) as (? & ? & Hh); [lia|done|done|].
      rewrite Z2Nat.id in Hh by done. done. }
  split; [unfold bucket_chain; by rewrite Hp'|].
  split; [done|]. split; [done|]. split; [done|]. split; [done|].
  split; [|done].
  intros i p0 l0 Hi Hp0 Hch0. rewrite Hother by done. split; [done|].
  by apply (Hkeep i p0 l0).
Qed.

Lemma delete_obj_id_effect w k l fuel :
  table_wf w →
  bucket_chain w (bucket_of hash (ht w) k) l →
  (length l < fuel)%nat →
  ∃ r w' l',
    delete_obj_id fuel w k = Done (r, w') ∧
    table_wf w' ∧
    bucket_chain w' (bucket_of hash (ht w) k) l' ∧
    length (ptr_table (ht w')) = length (ptr_table (ht w)) ∧
    hashpower (ht w') = hashpower (ht w) ∧
    same_ids (mem w) (mem w') ∧
    (∀ i p l0, i ≠ Z.to_nat (bucket_of hash (ht w) k) →
       ptr_table (ht w) !! i = Some p → chain (mem w) p l0 →
       ptr_table (ht w') !! i = Some p ∧ chain (mem w') p l0) ∧
    ((∃ i a, r = Some a ∧ l !! i = Some a ∧ has_id (mem w) k a ∧
             l' = take i l ++ drop (S i) l ∧
             Forall (λ a, ¬ has_id (mem w') k a) l' ∧
             in_cache <$> mem w' !! a = Some false ∧
             n_obj (ht w') = wrap64 (n_obj (ht w) - 1)) ∨
     (r = None ∧ Forall (λ a, ¬ has_id (mem w) k a) l ∧ w' = w ∧ l' = l)).
Proof.
  intros Hwf Hbc Hfuel. pose proof Hwf as (Hhp & Hlen & Hall).
  set (b := bucket_of hash (ht w) k) in *.
  destruct (bucket_chain_wf w k l Hwf Hbc) as [Hd Hhome]. fold b in Hhome.
  pose proof (bucket_of_nonneg hash (ht w) k Hhp) as Hb. fold b in Hb.
  pose proof Hbc as Hbc0. unfold bucket_chain in Hbc.
  destruct (ptr_table (ht w) !! Z.to_nat b) as [p|] eqn:Hp; [|done].
  pose proof (chain_NoDup _ _ _ Hbc) as Hnd.
  destruct (list_find (has_id (mem w) k) l) as [[i a]|] eqn:Hfind.
  - destruct (chain_find_Some _ _ _ _ _ _ Hbc Hfind)
      as (oa & Hsplit & Hno & Ha & Hk & Hseg1 & Hseg2).
    assert (Hia : l !! i = Some a).
    { by apply list_find_Some in Hfind as (? & _). }
    assert (Hak : has_id (mem w) k a).
    { unfold has_id. rewrite Ha. simpl. by rewrite Hk. }
    rewrite Hsplit in Hnd, Hd, Hhome.
    pose proof (distinct_ids_after _ _ _ _ _ Hd Hak) as Hno2.
    destruct (delete_obj_id_core hash w k b p (take i l) a oa (drop (S i) l) fuel)
      as (w' & p' & Hrun & Hp' & Hch' & Ha' & Hnobj & Hhp' & Hlen' & Hother & Hids
          & Hframe); try done.
    { rewrite length_take. lia. }
    apply Forall_app in Hhome as [Hh1 Hh2].
    apply Forall_cons in Hh2 as [Hha Hh2].
    assert (Hkeep : ∀ j p0 l0, j ≠ Z.to_nat b →
              ptr_table (ht w) !! j = Some p0 → chain (mem w) p0 l0 →
              chain (mem w') p0 l0 ∧ distinct_ids (mem w') l0 ∧
              Forall (homed w' (Z.of_nat j)) l0).
    { intros j p0 l0 Hj Hp0 Hch0.
      destruct (Hall (Z.of_nat j) p0) as (l1 & Hch1 & Hd1 & Hhome1); [lia| |].
      { by rewrite Nat2Z.id. }
      rewrite (chain_functional _ _ _ _ Hch0 Hch1).
      eapply (other_bucket_kept hash w w' b (Z.of_nat j)); try done; [lia|].
      intros x Hx. apply Hframe. intros Hin. apply Hx.
      rewrite Forall_forall in Hh1. by apply Hh1. }
    exists (Some a), w', (take i l ++ drop (S i) l). split; [done|].
    split.
    { split; [by rewrite Hhp'|]. split; [by rewrite Hlen', Hhp'|].
      intros b0 p0 Hb0 Hp0.
      destruct (decide (b0 = b)) as [->|Hne].
      + rewrite Hp' in Hp0. injection Hp0 as <-.
        exists (take i l ++ drop (S i) l). split; [done|].
        split.
        * eapply distinct_ids_same; [exact Hids|].
          unfold distinct_ids in *. rewrite fmap_app, fmap_cons in Hd.
          rewrite fmap_app.
          apply NoDup_app in Hd as (Hd1 & Hd12 & Hd2).
          apply NoDup_cons in Hd2 as [_ Hd2].
          apply NoDup_app. split; [done|]. split; [|done].
          intros x Hx Hx'. apply (Hd12 x Hx). by right.
        * eapply homed_same; [exact Hids|done|]. by apply Forall_app.
      + rewrite Hother in Hp0 by lia.
        destruct (Hall b0 p0 Hb0 Hp0) as (l0 & Hch0 & _).
        exists l0.
        destruct (Hkeep (Z.to_nat b0) p0 l0) as (? & ? & Hh); [lia|done|done|].
        rewrite Z2Nat.id in Hh by done. done. }
    split; [unfold bucket_chain; by rewrite Hp'|].
    split; [done|]. split; [done|]. split; [done|].
    split.
    { intros j p0 l0 Hj Hp0 Hch0. rewrite Hother by done. split; [done|].
      by apply (Hkeep j p0 l0). }
    left. exists i, a. split; [done|]. split; [done|]. split; [done|].
    split; [done|]. split.
    { eapply no_id_same; [exact Hids|]. by apply Forall_app. }
    split; [by rewrite Ha'|done].
  - pose proof (chain_find_None _ _ _ _ Hbc Hfind) as Hno.
    exists None, w, l. split; [by eapply delete_obj_id_absent|].
    split; [done|]. split; [done|]. split; [done|]. split; [done|].
    split; [done|]. split; [done|]. right. done.
Qed.

(** *** Counting the linked objects *)

Lemma concat_length_insert (chains : list (list addr)) i l l' :
  chains !! i = Some l →
  Z.of_nat (length (concat (<[i := l']> chains)))
  = Z.of_nat (length (concat chains)) - Z.of_nat (length l)
    + Z.of_nat (length l').
Proof.
  intros Hi. pose proof (lookup_lt_Some _ _ _ Hi) as Hlt.
  rewrite insert_take_drop by done.
  rewrite <- (take_drop_middle _ _ _ Hi) at 3.
  rewrite !concat_app, !concat_cons, !length_app. lia.
Qed.

Lemma wrap64_succ z : wrap64 (wrap64 z + 1) = wrap64 (z + 1).
Proof. unfold wrap64. by rewrite Zplus_mod_idemp_l. Qed.

Lemma wrap64_pred z : wrap64 (wrap64 z - 1) = wrap64 (z - 1).
Proof. unfold wrap64. by rewrite Zminus_mod_idemp_l. Qed.

(** Rewriting the chain of one bucket in a family of chains. *)
Lemma chains_of_update w w' chains b l l' :
  chains_of w chains →
  0 ≤ b →
  bucket_chain w b l →
  bucket_chain w' b l' →
  length (ptr_table (ht w')) = length (ptr_table (ht w)) →
  (∀ i p l0, i ≠ Z.to_nat b →
     ptr_table (ht w) !! i = Some p → chain (mem w) p l0 →
     ptr_table (ht w') !! i = Some p ∧ chain (mem w') p l0) →
  chains !! Z.to_nat b = Some l ∧
  chains_of w' (<[Z.to_nat b := l']> chains).
Proof.
  unfold chains_of. intros Hch Hb Hbc Hbc' Hlen Hother.
  apply Forall2_same_length_lookup in Hch as [Hlen2 Hch].
  unfold bucket_chain in Hbc, Hbc'.
  destruct (ptr_table (ht w) !! Z.to_nat b) as [p|] eqn:Hp; [|done].
  destruct (ptr_table (ht w') !! Z.to_nat b) as [p'|] eqn:Hp'; [|done].
  destruct (lookup_lt_is_Some_2 chains (Z.to_nat b)) as [l1 Hl1].
  { rewrite <- Hlen2. by eapply lookup_lt_Some. }
  pose proof (Hch _ _ _ Hp Hl1) as Hch1.
  rewrite (chain_functional _ _ _ _ Hch1 Hbc) in Hl1.
  split; [done|].
  apply Forall2_same_length_lookup. split; [by rewrite length_insert, Hlen|].
  intros i x y Hx Hy.
  apply list_lookup_insert_Some in Hy as [(<- & <- & _)|[Hne Hy]].
  - rewrite Hp' in Hx. by injection Hx as <-.
  - destruct (lookup_lt_is_Some_2 (ptr_table (ht w)) i) as [x0 Hx0].
    { rewrite <- Hlen. by eapply lookup_lt_Some. }
    destruct (Hother i x0 y) as [Hx' Hc]; [done|done|by eapply Hch|].
    rewrite Hx' in Hx. by injection Hx as <-.
Qed.

Lemma bucket_of_same_hp h h' k :
  hashpower h' = hashpower h → bucket_of hash h' k = bucket_of hash h k.
Proof. unfold bucket_of. by intros ->. Qed.

(** One operation that runs to its end keeps the invariant and the
    count. *)
Lemma step_keeps_invariant fuel w o w' t :
  table_wf w → counted w →
  step fuel w o = Done (w', t) →
  table_wf w' ∧ counted w'.
Proof.
  intros Hwf (chains & Hch & Hcount) Hstep.
  pose proof Hwf as (Hhp & _ & _).
  destruct o as [k|n|k|rnd]; simpl in Hstep.
  - apply bind_Done in Hstep as (r & _ & H). injection H as <- <-.
    split; [done|]. by exists chains.
  - apply bind_Done in Hstep as ([r w1] & Hrun & H). injection H as <- <-.
    simpl.
    assert (∃ new, mem w !! n = Some new) as [new Hn].
    { unfold concurrent_chained_hashtable_insert_obj in Hrun.
      apply bind_Done in Hrun as (new & Hnew & _).
      apply of_option_Done in Hnew. eauto. }
    destruct (table_wf_bucket hash w (obj_id new) Hwf) as (l & Hbc & _).
    destruct (insert_obj_effect w n new l (fuel `max` S (length l)))
      as (r' & w' & l' & Hrun' & Hwf' & Hbc' & Hlen' & _ & _ & _ & Hother & Hrel);
      [done|done|done|lia|].
    rewrite (insert_obj_mono _ _ _ _ _ Hrun) in Hrun' by lia.
    injection Hrun' as <- <-. split; [done|].
    destruct (chains_of_update w w1 chains _ l l' Hch
                (bucket_of_nonneg hash (ht w) (obj_id new) Hhp) Hbc Hbc' Hlen'
                Hother) as [Hl Hch'].
    eexists. split; [exact Hch'|].
    rewrite (concat_length_insert _ _ _ _ Hl).
    destruct Hrel as [(i & a & _ & _ & _ & -> & ->)|(_ & _ & -> & ->)].
    + rewrite length_insert, Hcount. f_equal. lia.
    + rewrite length_app, Hcount, wrap64_succ. simpl. f_equal. lia.
  - apply bind_Done in Hstep as ([r w1] & Hrun & H). injection H as <- <-.
    simpl.
    destruct (table_wf_bucket hash w k Hwf) as (l & Hbc & _).
    destruct (delete_obj_id_effect w k l (fuel `max` S (length l)))
      as (r' & w' & l' & Hrun' & Hwf' & Hbc' & Hlen' & _ & _ & Hother & Hrel);
      [done|done|lia|].
    rewrite (delete_obj_id_mono _ _ _ _ _ Hrun) in Hrun' by lia.
    injection Hrun' as <- <-. split; [done|].
    destruct (chains_of_update w w1 chains _ l l' Hch
                (bucket_of_nonneg hash (ht w) k Hhp) Hbc Hbc' Hlen'
                Hother) as [Hl Hch'].
    destruct Hrel as [(i & a & _ & Hia & _ & -> & _ & _ & Hn)|(_ & _ & -> & ->)].
    + eexists. split; [exact Hch'|].
      rewrite (concat_length_insert _ _ _ _ Hl), Hn, Hcount, wrap64_pred.
      pose proof (lookup_lt_Some _ _ _ Hia).
      rewrite length_app, length_take, length_drop. f_equal. lia.
    + by exists chains.
  - apply bind_Done in Hstep as (r & _ & H). injection H as <- <-.
    split; [done|]. by exists chains.
Qed.

(** Property X2.  From a well-formed table whose counter is right, any
    sequence of lookups, insertions, deletions and random probes that runs
    to its end leaves a well-formed table (every bucket a finite chain of
    objects that hash there, with pairwise distinct ids) whose [n_obj] is
    again the number of linked objects. *)
Theorem run_keeps_table_invariant fuel ops : ∀ w w' touched,
  table_wf w → counted w →
  run fuel w ops = Done (w', touched) →
  table_wf w' ∧ counted w'.
Proof.
  induction ops as [|o ops IH]; intros w w' touched Hwf Hcnt H; simpl in H.
  - injection H as <- <-. done.
  - apply bind_Done in H as ([w1 t1] & Hstep & H).
    apply bind_Done in H as ([w2 t2] & Hrun & H). simpl in *.
    injection H as <- <-.
    destruct (step_keeps_invariant _ _ _ _ _ Hwf Hcnt Hstep) as [Hwf1 Hcnt1].
    by eapply IH.
Qed.

(** *** The entry points that take an object *)

Lemma deref_Done w a o : mem w !! a = Some o → deref w a = Done o.
Proof. unfold deref. by intros ->. Qed.

Lemma find_obj_id_list_find w k l fuel :
  0 ≤ hashpower (ht w) →
  bucket_chain w (bucket_of hash (ht w) k) l →
  (length l < fuel)%nat →
  find_obj_id fuel w k = Done (snd <$> list_find (has_id (mem w) k) l).
Proof.
  intros Hhp Hbc Hfuel.
  set (b := bucket_of hash (ht w) k) in *.
  pose proof (bucket_of_nonneg hash (ht w) k Hhp) as Hb. fold b in Hb.
  unfold bucket_chain in Hbc.
  destruct (ptr_table (ht w) !! Z.to_nat b) as [p|] eqn:Hp; [|done].
  destruct (list_find (has_id (mem w) k) l) as [[i a]|] eqn:Hfind.
  - destruct (chain_find_Some _ _ _ _ _ _ Hbc Hfind)
      as (oa & Hsplit & Hno & Ha & Hk & Hseg1 & Hseg2).
    apply (find_obj_id_core hash w k b p (take i l) (Some a)); try done.
    + unfold stops, has_id. rewrite Ha. simpl. by rewrite Hk.
    + rewrite length_take. lia.
  - pose proof (chain_find_None _ _ _ _ Hbc Hfind) as Hno.
    by apply (find_obj_id_core hash w k b p l None).
Qed.

(** In a chain with pairwise distinct ids an id names one object. *)
Lemma distinct_ids_inj m k l x y :
  distinct_ids m l → x ∈ l → y ∈ l → has_id m k x → has_id m k y → x = y.
Proof.
  unfold distinct_ids, has_id. intros Hd Hx Hy Hkx Hky.
  apply list_elem_of_lookup in Hx as [i Hi].
  apply list_elem_of_lookup in Hy as [j Hj].
  assert (i = j) as ->.
  { eapply NoDup_lookup; [exact Hd| |].
    - rewrite list_lookup_fmap, Hi. simpl. by rewrite Hkx.
    - rewrite list_lookup_fmap, Hj. simpl. by rewrite Hky. }
  congruence.
Qed.

(** Property X3.  [find_obj], [delete] and [try_delete] only read the id of
    the object they are given and then act on the table's entry for that
    id: [find_obj] returns that entry, [try_delete] reports whether there
    was one, and the object that is unlinked is the entry, which is the
    given object exactly when the given object is linked.  Afterwards the
    id is not in the table; without an entry the state is unchanged. *)
Theorem delete_by_object_acts_on_id w obj o l fuel :
  table_wf w →
  mem w !! obj = Some o →
  bucket_chain w (bucket_of hash (ht w) (obj_id o)) l →
  (length l < fuel)%nat →
  ∃ w',
    find_obj fuel w obj
      = Done (snd <$> list_find (has_id (mem w) (obj_id o)) l) ∧
    delete_by_obj fuel w obj = Done w' ∧
    try_delete fuel w obj
      = Done (bool_decide (is_Some (list_find (has_id (mem w) (obj_id o)) l)),
              w') ∧
    table_wf w' ∧
    find_obj_id fuel w' (obj_id o) = Done None ∧
    match list_find (has_id (mem w) (obj_id o)) l with
    | Some (i, a) =>
        (a = obj ↔ obj ∈ l) ∧
        bucket_chain w' (bucket_of hash (ht w) (obj_id o)) (delete i l) ∧
        in_cache <$> mem w' !! a = Some false ∧
        n_obj (ht w') = wrap64 (n_obj (ht w) - 1)
    | None => w' = w
    end.
Proof.
  intros Hwf Hobj Hbc Hfuel. pose proof Hwf as (Hhp & _ & _).
  set (k := obj_id o) in *.
  destruct (bucket_chain_wf w k l Hwf Hbc) as [Hd Hhome].
  destruct (delete_obj_id_effect w k l fuel Hwf Hbc Hfuel)
    as (r & w' & l' & Hrun & Hwf' & Hbc' & Hlen' & Hhp' & Hids & Hother & Hrel).
  pose proof Hwf' as (Hhpw' & _ & _).
  exists w'.
  unfold concurrent_chained_hashtable_find_obj,
    concurrent_chained_hashtable_delete,
    concurrent_chained_hashtable_try_delete.
  rewrite (deref_Done _ _ _ Hobj). simpl. fold k. rewrite Hrun. simpl.
  split; [by apply find_obj_id_list_find|].
  split; [done|].
  assert (Hnone : Forall (λ a, ¬ has_id (mem w') k a) l' →
                  find_obj_id fuel w' k = Done None).
  { intros Hno.
    assert (Hfuel' : (length l' < fuel)%nat).
    { destruct Hrel as [(i & a & _ & Hia & _ & -> & _)|(_ & _ & _ & ->)];
        [|done].
      pose proof (lookup_lt_Some _ _ _ Hia).
      rewrite length_app, length_take, length_drop. lia. }
    rewrite <- (bucket_of_same_hp _ _ k Hhp') in Hbc'.
    rewrite (find_obj_id_list_find w' k l' fuel Hhpw' Hbc' Hfuel').
    apply (list_find_None (has_id (mem w') k)) in Hno. by rewrite Hno. }
  destruct Hrel as [(i & a & -> & Hia & Hak & -> & Hno' & Hflag & Hn)
                   |(-> & Hno & -> & ->)].
  - assert (Hfind : list_find (has_id (mem w) k) l = Some (i, a)).
    { destruct (list_find (has_id (mem w) k) l) as [[j a']|] eqn:Hfind.
      - pose proof Hfind as Hfind'.
        apply list_find_Some in Hfind' as (Hj & Hka' & _).
        assert (a' = a) as ->.
        { eapply distinct_ids_inj; [exact Hd| | |exact Hka'|exact Hak];
            apply list_elem_of_lookup; eauto. }
        f_equal. f_equal.
        eapply NoDup_lookup; [|exact Hj|exact Hia].
        unfold bucket_chain in Hbc.
        destruct (ptr_table (ht w) !! _); [|done].
        by eapply chain_NoDup.
      - apply list_find_None in Hfind. rewrite Forall_forall in Hfind.
        exfalso. apply (Hfind a); [|done]. apply list_elem_of_lookup. eauto. }
    rewrite Hfind. simpl.
    split.
    { reflexivity. }
    split; [done|]. split; [by apply Hnone|].
    split.
    { split.
      - intros <-. apply list_elem_of_lookup. eauto.
      - intros Hin. eapply distinct_ids_inj; [exact Hd| |exact Hin|exact Hak|].
        + apply list_elem_of_lookup. eauto.
        + unfold has_id. by rewrite Hobj. }
    split; [by rewrite delete_take_drop|]. done.
  - assert (Hfind : list_find (has_id (mem w) k) l = None).
    { by apply list_find_None. }
    rewrite Hfind. simpl.
    split.
    { reflexivity. }
    split; [done|]. split; [by apply Hnone|]. done.
Qed.

(** Property X4.  Inserting an object that is already linked in the
    table finds the object itself as the entry to replace: the call returns
    the object itself as the replaced one, its bucket keeps the same chain,
    [n_obj] is unchanged and the object is left with [in_cache = false]. *)
Theorem insert_obj_linked_returns_itself w n new l fuel :
  table_wf w →
  mem w !! n = Some new →
  bucket_chain w (bucket_of hash (ht w) (obj_id new)) l →
  n ∈ l →
  (length l < fuel)%nat →
  ∃ w',
    insert_obj fuel w n = Done (Some n, w') ∧
    bucket_chain w' (bucket_of hash (ht w) (obj_id new)) l ∧
    n_obj (ht w') = n_obj (ht w) ∧
    in_cache <$> mem w' !! n = Some false ∧
    table_wf w'.
Proof.
  intros Hwf Hn Hbc Hin Hfuel.
  destruct (bucket_chain_wf w (obj_id new) l Hwf Hbc) as [Hd Hhome].
  destruct (insert_obj_effect w n new l fuel Hwf Hn Hbc Hfuel)
    as (r & w' & l' & Hrun & Hwf' & Hbc' & Hlen' & Hhp' & Hids & Hflag & Hother
        & Hrel).
  assert (Hnk : has_id (mem w) (obj_id new) n) by (unfold has_id; by rewrite Hn).
  exists w'.
  destruct Hrel as [(i & a & -> & Hia & Hak & -> & Hnobj)|(_ & Hno & _)].
  - assert (a = n) as ->.
    { eapply distinct_ids_inj; [exact Hd| |exact Hin|exact Hak|exact Hnk].
      apply list_elem_of_lookup. eauto. }
    rewrite list_insert_id in Hbc' by done. done.
  - rewrite Forall_forall in Hno. by destruct (Hno n Hin).
Qed.

(** Property X5.  Inserting an object whose id is not in the table and
    then deleting that id undoes the insertion: the deletion returns the
    inserted object, every bucket has the chain it had before, [n_obj] has
    its old value (modulo 2^64) and the invariant of the table still
    holds. *)
Theorem insert_then_delete_restores w n new l fuel :
  table_wf w →
  mem w !! n = Some new →
  bucket_chain w (bucket_of hash (ht w) (obj_id new)) l →
  Forall (λ a, ¬ has_id (mem w) (obj_id new) a) l →
  (S (length l) < fuel)%nat →
  ∃ w1 w2,
    insert_obj fuel w n = Done (None, w1) ∧
    delete_obj_id fuel w1 (obj_id new) = Done (Some n, w2) ∧
    (∀ chains, chains_of w chains → chains_of w2 chains) ∧
    n_obj (ht w2) = wrap64 (n_obj (ht w)) ∧
    in_cache <$> mem w2 !! n = Some false ∧
    table_wf w2.
Proof.
  intros Hwf Hn Hbc Hno Hfuel. pose proof Hwf as (Hhp & _ & _).
  set (k := obj_id new) in *.
  pose proof (bucket_of_nonneg hash (ht w) k Hhp) as Hb.
  destruct (insert_obj_effect w n new l fuel Hwf Hn Hbc)
    as (r & w1 & l1 & Hrun1 & Hwf1 & Hbc1 & Hlen1 & Hhp1 & Hids1 & _ & Hother1
        & Hrel1); [lia|].
  fold k in Hrun1, Hbc1, Hother1, Hrel1.
  destruct Hrel1 as [(i & a & _ & Hia & Hak & _)|(-> & _ & -> & Hn1)].
  { rewrite Forall_forall in Hno. destruct (Hno a); [|done].
    apply list_elem_of_lookup. eauto. }
  assert (Hbc1' : bucket_chain w1 (bucket_of hash (ht w1) k) (l ++ [n])).
  { by rewrite (bucket_of_same_hp _ _ k Hhp1). }
  destruct (delete_obj_id_effect w1 k (l ++ [n]) fuel Hwf1 Hbc1')
    as (r & w2 & l2 & Hrun2 & Hwf2 & Hbc2 & Hlen2 & Hhp2 & Hids2 & Hother2
        & Hrel2); [rewrite length_app; simpl; lia|].
  rewrite (bucket_of_same_hp _ _ k Hhp1) in Hbc2, Hother2.
  assert (Hnk1 : has_id (mem w1) k n).
  { unfold has_id. rewrite Hids1, Hn. done. }
  destruct Hrel2 as [(i & a & -> & Hia & Hak & -> & _ & Hflag & Hn2)
                    |(_ & Hno2 & _)]; last first.
  { apply Forall_app in Hno2 as [_ Hno2]. rewrite Forall_singleton in Hno2.
    done. }
  assert (i = length l ∧ a = n) as [-> ->].
  { destruct (decide (i < length l)%nat) as [Hlt|Hge].
    - rewrite lookup_app_l in Hia by done.
      rewrite Forall_forall in Hno. destruct (Hno a).
      + apply list_elem_of_lookup. eauto.
      + unfold has_id in *. by rewrite <- Hids1.
    - rewrite lookup_app_r in Hia by lia.
      apply list_lookup_singleton_Some in Hia as [Hi <-]. split; [lia|done]. }
  rewrite take_app_length, drop_ge, app_nil_r in Hbc2
    by (rewrite length_app; simpl; lia).
  exists w1, w2. split; [done|]. split; [done|].
  split.
  { intros chains Hch.
    destruct (chains_of_update w w1 chains _ l (l ++ [n]) Hch Hb Hbc Hbc1 Hlen1
                Hother1) as [Hl Hch1].
    destruct (chains_of_update w1 w2 _ _ (l ++ [n]) l Hch1 Hb Hbc1 Hbc2 Hlen2
                Hother2) as [_ Hch2].
    rewrite list_insert_insert_eq, list_insert_id in Hch2; done. }
  split; [by rewrite Hn2, Hn1, wrap64_pred; f_equal; lia|].
  done.
Qed.

(** Property X6.  On a well-formed table, whatever [rand_obj] returns
    is a mapped object that the lookup finds again under its own id, as the
    first object of its chain. *)
Theorem rand_obj_result_is_findable w rnd fuel r :
  table_wf w →
  concurrent_chained_hashtable_rand_obj fuel rnd w = Done r →
  ∃ a o, r = Some a ∧ mem w !! a = Some o ∧
         ∀ fuel', (0 < fuel')%nat → find_obj_id fuel' w (obj_id o) = Done (Some a).
Proof.
  intros (Hhp & Hlen & Hall) Hrun.
  unfold concurrent_chained_hashtable_rand_obj in Hrun.
  apply rand_obj_loop_result in Hrun as (pos & a & -> & Hhead).
  unfold bucket_head in Hhead. destruct (decide (0 ≤ pos)) as [Hpos|]; [|done].
  destruct (Hall pos (Some a) Hpos Hhead) as (l & Hch & Hd & Hhome).
  destruct l as [|a' l]; [done|]. destruct Hch as [[= <-] Hch].
  apply Forall_cons in Hhome as [(o & Ho & Hb) _].
  exists a, o. split; [done|]. split; [done|].
  intros fuel' Hfuel'.
  apply (find_obj_id_core hash w (obj_id o) pos (Some a) [] (Some a));
    try done.
  unfold stops, has_id. by rewrite Ho.
Qed.

(** *** Termination *)

(** Property X19.  On a well-formed table the walk of
    [find_pointer_locked] comes to an end: with more steps than the longest
    chain has objects, the lookup returns for every id, and the insertion
    (of any mapped object) and the deletion (of any id) return and leave a
    well-formed table. *)
Theorem table_operations_return w fuel :
  table_wf w →
  (∀ b l, bucket_chain w b l → (length l < fuel)%nat) →
  (∀ k, ∃ r, find_obj_id fuel w k = Done r) ∧
  (∀ n, is_Some (mem w !! n) →
        ∃ r w', insert_obj fuel w n = Done (r, w') ∧ table_wf w') ∧
  (∀ k, ∃ r w', delete_obj_id fuel w k = Done (r, w') ∧ table_wf w').
Proof.
  intros Hwf Hfuel. pose proof Hwf as (Hhp & _ & _). split; [|split].
  - intros k. destruct (table_wf_bucket hash w k Hwf) as (l & Hbc & _).
    eexists. apply (find_obj_id_list_find w k l); [done|done|].
    apply (Hfuel _ _ Hbc).
  - intros n [new Hn].
    destruct (table_wf_bucket hash w (obj_id new) Hwf) as (l & Hbc & _).
    destruct (insert_obj_effect w n new l fuel Hwf Hn Hbc)
      as (r & w' & _ & Hrun & Hwf' & _); [apply (Hfuel _ _ Hbc)|]. eauto.
  - intros k. destruct (table_wf_bucket hash w k Hwf) as (l & Hbc & _).
    destruct (delete_obj_id_effect w k l fuel Hwf Hbc)
      as (r & w' & _ & Hrun & Hwf' & _); [apply (Hfuel _ _ Hbc)|]. eauto.
Qed.

Lemma find_pointer_from_endless (S : addr → Prop) w k :
  (∀ a, S a → ∃ o a', mem w !! a = Some o ∧ obj_id o ≠ k ∧
                      hash_next o = Some a' ∧ S a') →
  ∀ fuel ptr a, load w ptr = Done (Some a) → S a →
    find_pointer_from fuel w ptr k = Timeout.
Proof.
  intros Hclosed. induction fuel as [|fuel IH]; intros ptr a Hload Ha; [done|].
  destruct (Hclosed a Ha) as (o & a' & Ho & Hk & Hnext & Ha').
  simpl. rewrite Hload. simpl. rewrite (deref_Done _ _ _ Ho). simpl.
  rewrite decide_True by done.
  apply (IH _ a'); [|done]. simpl. rewrite (deref_Done _ _ _ Ho). simpl.
  by rewrite Hnext.
Qed.

(** Property X20.  The walk has no guard of its own against a chain that
    does not end: when the bucket of an id heads objects that all carry
    other ids and each point to a next one (a cycle), the lookup, the
    deletion and the insertion of that id never return, however long they
    run. *)
Theorem endless_chain_never_returns (S : addr → Prop) w k a :
  0 ≤ hashpower (ht w) →
  ptr_table (ht w) !! Z.to_nat (bucket_of hash (ht w) k) = Some (Some a) →
  S a →
  (∀ a, S a → ∃ o a', mem w !! a = Some o ∧ obj_id o ≠ k ∧
                      hash_next o = Some a' ∧ S a') →
  ∀ fuel,
    find_obj_id fuel w k = Timeout ∧
    delete_obj_id fuel w k = Timeout ∧
    (∀ n new, mem w !! n = Some new → obj_id new = k →
              insert_obj fuel w n = Timeout).
Proof.
  intros Hhp Hhead Ha Hclosed fuel.
  pose proof (bucket_of_nonneg hash (ht w) k Hhp) as Hb.
  assert (Hwalk : find_pointer_locked fuel w (bucket_of hash (ht w) k) k
                  = Timeout).
  { apply (find_pointer_from_endless S w k Hclosed fuel _ a); [|done].
    simpl. rewrite decide_True by done. by rewrite Hhead. }
  split; [|split].
  - unfold concurrent_chained_hashtable_find_obj_id. by rewrite Hwalk.
  - unfold concurrent_chained_hashtable_delete_obj_id. by rewrite Hwalk.
  - intros n new Hn <-. unfold concurrent_chained_hashtable_insert_obj.
    rewrite (deref_Done _ _ _ Hn). simpl. by rewrite Hwalk.
Qed.

End More_ops.

Lemma find_obj_id_returns_first_match_witness :
  concurrent_chained_hashtable_find_obj_id (λ x, x) 3 ex_world 20
    = Done (Some 2%positive) ∧
  concurrent_chained_hashtable_find_obj_id (λ x, x) 3 ex_world 40 = Done None.
Proof.
  split.
  - destruct (find_obj_id_returns_first_match (λ x, x) ex_world 20
                [1%positive; 2%positive] 3) as (H & _ & _).
    + simpl. lia.
    + vm_compute. auto.
    + simpl. lia.
    + exact H.
  - destruct (find_obj_id_returns_first_match (λ x, x) ex_world 40
                [1%positive; 2%positive] 3) as (H & _ & _).
    + simpl. lia.
    + vm_compute. auto.
    + simpl. lia.
    + exact H.
Defined.

Lemma ex_world_wf : table_wf (λ x, x) ex_world.
Proof.
  split; [simpl; lia|]. split; [reflexivity|].
  intros b p Hb Hp. simpl in Hp.
  destruct (Z.to_nat b) as [|[|n]] eqn:Hn; simpl in Hp; [| |done].
  - injection Hp as <-. exists [1%positive; 2%positive].
    assert (b = 0) as -> by lia.
    split; [vm_compute; tauto|].
    split.
    + unfold distinct_ids. vm_compute.
      repeat constructor; set_solver.
    + repeat constructor; eexists; (split; [vm_compute; reflexivity|]);
        vm_compute; reflexivity.
  - injection Hp as <-. exists []. split; [done|].
    split; [apply NoDup_nil_2|constructor].
Qed.

Lemma ex_world_counted : counted ex_world.
Proof.
  exists [[1%positive; 2%positive]; []]. split; [|reflexivity].
  repeat constructor; vm_compute; tauto.
Qed.

Lemma run_keeps_table_invariant_witness :
  ∃ w' touched,
    run (λ x, x) 3 ex_world
        [Insert 3%positive; Delete 10; Find 20; RandObj (λ _, 0);
         Insert 4%positive]
      = Done (w', touched) ∧
    n_obj (ht w') = 2 ∧
    table_wf (λ x, x) w' ∧ counted w'.
Proof.
  eexists _, _. split; [vm_compute; reflexivity|].
  split; [reflexivity|].
  eapply (run_keeps_table_invariant (λ x, x) 3
            [Insert 3%positive; Delete 10; Find 20; RandObj (λ _, 0);
             Insert 4%positive] ex_world);
    [exact ex_world_wf|exact ex_world_counted|vm_compute; reflexivity].
Defined.

Lemma delete_by_object_acts_on_id_witness :
  ∃ w',
    concurrent_chained_hashtable_find_obj (λ x, x) 3 ex_world 3%positive
      = Done (Some 2%positive) ∧
    concurrent_chained_hashtable_try_delete (λ x, x) 3 ex_world 3%positive
      = Done (true, w') ∧
    bucket_chain w' 0 [1%positive] ∧
    in_cache <$> mem w' !! 2%positive = Some false ∧
    concurrent_chained_hashtable_find_obj_id (λ x, x) 3 w' 20 = Done None.
Proof.
  destruct (delete_by_object_acts_on_id (λ x, x) ex_world 3%positive
              (mk_obj 20 5 None true) [1%positive; 2%positive] 3 ex_world_wf)
    as (w' & Hfind & _ & Htry & _ & Hnone & Hm).
  - reflexivity.
  - vm_compute. tauto.
  - simpl. lia.
  - assert (Hlf : list_find (has_id (mem ex_world) 20) [1%positive; 2%positive]
                  = Some (1%nat, 2%positive)) by (vm_compute; reflexivity).
    cbn [obj_id] in *. rewrite Hlf in Hfind, Htry, Hm.
    destruct Hm as (_ & Hbc & Hflag & _).
    exists w'. split; [exact Hfind|]. split; [exact Htry|].
    split; [exact Hbc|]. split; [exact Hflag|exact Hnone].
Defined.

Lemma insert_obj_linked_returns_itself_witness :
  ∃ w',
    concurrent_chained_hashtable_insert_obj (λ x, x) 3 ex_world 2%positive
      = Done (Some 2%positive, w') ∧
    bucket_chain w' 0 [1%positive; 2%positive] ∧
    n_obj (ht w') = 2 ∧
    in_cache <$> mem w' !! 2%positive = Some false ∧
    table_wf (λ x, x) w'.
Proof.
  apply (insert_obj_linked_returns_itself (λ x, x) ex_world 2%positive
           (mk_obj 20 1 None true) [1%positive; 2%positive] 3 ex_world_wf).
  - reflexivity.
  - vm_compute. tauto.
  - set_solver.
  - simpl. lia.
Defined.

Lemma insert_then_delete_restores_witness :
  ∃ w1 w2,
    concurrent_chained_hashtable_insert_obj (λ x, x) 4 ex_world 4%positive
      = Done (None, w1) ∧
    concurrent_chained_hashtable_delete_obj_id (λ x, x) 4 w1 30
      = Done (Some 4%positive, w2) ∧
    (∀ chains, chains_of ex_world chains → chains_of w2 chains) ∧
    n_obj (ht w2) = wrap64 2 ∧
    in_cache <$> mem w2 !! 4%positive = Some false ∧
    table_wf (λ x, x) w2.
Proof.
  apply (insert_then_delete_restores (λ x, x) ex_world 4%positive
           (mk_obj 30 1 None true) [1%positive; 2%positive] 4 ex_world_wf).
  - reflexivity.
  - vm_compute. tauto.
  - repeat constructor; vm_compute; congruence.
  - simpl. lia.
Defined.

Lemma rand_obj_result_is_findable_witness :
  ∃ a o, Some 1%positive = Some a ∧ mem ex_world !! a = Some o ∧
         ∀ fuel', (0 < fuel')%nat →
           concurrent_chained_hashtable_find_obj_id (λ x, x) fuel' ex_world
             (obj_id o) = Done (Some a).
Proof.
  apply (rand_obj_result_is_findable (λ x, x) ex_world (λ i, Z.of_nat i + 1) 2
           (Some 1%positive) ex_world_wf).
  vm_compute. reflexivity.
Defined.

Lemma table_operations_return_witness :
  (∀ k, ∃ r, concurrent_chained_hashtable_find_obj_id (λ x, x) 3 ex_world k
             = Done r) ∧
  (∀ n, is_Some (mem ex_world !! n) →
        ∃ r w', concurrent_chained_hashtable_insert_obj (λ x, x) 3 ex_world n
                = Done (r, w') ∧ table_wf (λ x, x) w') ∧
  (∀ k, ∃ r w', concurrent_chained_hashtable_delete_obj_id (λ x, x) 3 ex_world k
                = Done (r, w') ∧ table_wf (λ x, x) w').
Proof.
  apply (table_operations_return (λ x, x) ex_world 3 ex_world_wf).
  intros b l Hbc. unfold bucket_chain in Hbc. simpl in Hbc.
  destruct (Z.to_nat b) as [|[|n]]; simpl in Hbc; [| |done].
  - assert (Hch : chain (mem ex_world) (Some 1%positive) [1%positive; 2%positive])
      by (vm_compute; tauto).
    rewrite (chain_functional _ _ _ _ Hbc Hch). simpl. lia.
  - assert (Hch : chain (mem ex_world) None []) by done.
    rewrite (chain_functional _ _ _ _ Hbc Hch). simpl. lia.
Defined.

Lemma endless_chain_never_returns_witness :
  bucket_head ex_cyclic 0 = Some (Some 1%positive) ∧
  ∀ fuel,
    concurrent_chained_hashtable_find_obj_id (λ x, x) fuel ex_cyclic 20 = Timeout ∧
    concurrent_chained_hashtable_delete_obj_id (λ x, x) fuel ex_cyclic 20
      = Timeout ∧
    (∀ n new, mem ex_cyclic !! n = Some new → obj_id new = 20 →
              concurrent_chained_hashtable_insert_obj (λ x, x) fuel ex_cyclic n
              = Timeout).
Proof.
  split; [reflexivity|].
  apply (endless_chain_never_returns (λ x, x) (λ a, a = 1%positive) ex_cyclic 20
           1%positive).
  - simpl. lia.
  - reflexivity.
  - reflexivity.
  - intros a ->. exists (mk_obj 10 1 (Some 1%positive) true), 1%positive.
    split; [reflexivity|]. split; [simpl; lia|]. split; reflexivity.
Defined.

(** *** Creation *)

Lemma chains_of_no_objects (m : gmap addr cache_obj_t) (pt : list (option addr)) :
  Forall (λ p, p = None) pt →
  Forall2 (chain m) pt (replicate (length pt) []).
Proof.
  induction 1 as [|p pt -> _ IH]; simpl; constructor; done.
Qed.

Lemma concat_replicate_nil {A} n : concat (replicate n (@nil A)) = [].
Proof. induction n; simpl; done. Qed.

(** Property X7.  [create_concurrent_chained_hashtable] computes the number
    of bytes to clear from the [hashpower] field of the structure it has
    just zeroed, not from its parameter: whatever the allocation of the
    [2^hashpower] bucket slots held, the created table has [hashpower] and
    [n_obj = 0] set, bucket 0 cleared, and every other bucket holding what
    the allocation held.  So the created table is the empty well-formed
    table when the slots after the first were already [NULL] (always so for
    [hashpower = 0]), and it is not well-formed when one of them holds a
    pointer to no object. *)
Theorem create_clears_only_first_bucket hp allocated :
  0 ≤ hp →
  Z.of_nat (length allocated) = hashsize hp →
  hashpower (create_concurrent_chained_hashtable hp allocated) = hp ∧
  n_obj (create_concurrent_chained_hashtable hp allocated) = 0 ∧
  ptr_table (create_concurrent_chained_hashtable hp allocated)
    = None :: drop 1 allocated ∧
  length (ptr_table (create_concurrent_chained_hashtable hp allocated))
    = length allocated ∧
  (hp = 0 → ptr_table (create_concurrent_chained_hashtable hp allocated) = [None]) ∧
  (∀ hash m,
     Forall (λ p, p = None) (drop 1 allocated) →
     table_wf hash (mk_world (create_concurrent_chained_hashtable hp allocated) m) ∧
     counted (mk_world (create_concurrent_chained_hashtable hp allocated) m)) ∧
  (∀ hash m i a,
     allocated !! S i = Some (Some a) → m !! a = None →
     ¬ table_wf hash (mk_world (create_concurrent_chained_hashtable hp allocated) m)).
Proof.
  intros Hhp Hlen. unfold hashsize in Hlen. rewrite Z.shiftl_1_l in Hlen.
  assert (0 < 2 ^ hp) by (by apply Z.pow_pos_nonneg).
  destruct allocated as [|x rest]; [simpl in Hlen; lia|].
  assert (Hpt : ptr_table (create_concurrent_chained_hashtable hp (x :: rest))
                = None :: rest) by reflexivity.
  split; [done|]. split; [done|]. split; [done|]. split; [by rewrite Hpt|].
  split.
  { intros ->. rewrite Hpt. destruct rest; [done|]. simpl in Hlen. lia. }
  split.
  - intros hash m Hnone. simpl in Hnone.
    assert (Hall : Forall (λ p : option addr, p = None) (None :: rest))
      by (by constructor).
    split.
    + apply table_wf_no_objects; simpl; [done| |done].
      rewrite <- Hlen. done.
    + exists (replicate (length (None :: rest)) []). split.
      * unfold chains_of. cbn [ht mem]. rewrite Hpt.
        by apply chains_of_no_objects.
      * by rewrite concat_replicate_nil.
  - intros hash m i a Hi Hm (_ & _ & Hall).
    destruct (Hall (Z.of_nat (S i)) (Some a)) as (l & Hch & _); [lia| |].
    { rewrite Nat2Z.id. cbn [ht]. rewrite Hpt. done. }
    destruct l as [|a' l]; [done|]. destruct Hch as [[= <-] Hch].
    cbn [mem] in Hch. by rewrite Hm in Hch.
Qed.

Lemma create_clears_only_first_bucket_witness :
  ptr_table (create_concurrent_chained_hashtable 1 [Some 7%positive; Some 9%positive])
    = [None; Some 9%positive] ∧
  (∀ hash, ¬ table_wf hash
               (mk_world (create_concurrent_chained_hashtable 1
                            [Some 7%positive; Some 9%positive]) ∅)) ∧
  (∀ hash, table_wf hash
             (mk_world (create_concurrent_chained_hashtable 1
                          [Some 7%positive; None]) ∅)).
Proof.
  split; [reflexivity|]. split.
  - intros hash.
    destruct (create_clears_only_first_bucket 1 [Some 7%positive; Some 9%positive])
      as (_ & _ & _ & _ & _ & _ & Hbad); [lia|reflexivity|].
    apply (Hbad hash ∅ 0%nat 9%positive); reflexivity.
  - intros hash.
    destruct (create_clears_only_first_bucket 1 [Some 7%positive; None])
      as (_ & _ & _ & _ & _ & Hgood & _); [lia|reflexivity|].
    apply (Hgood hash ∅). repeat constructor.
Defined.

End CHT_Facts.

Module SLRU_Facts.
Import SLRU.

(** ** Bounded loops *)

Section Loops.

Context {S : Type}.
Implicit Types (cond : S → outcome bool) (s : S).

Lemma while_loop_S cond body n s :
  while_loop cond body (Datatypes.S n) s =
  (b ← cond s;
   if b : bool then s' ← body s; while_loop cond body n s' else Done s).
Proof. done. Qed.

(** Partial correctness: an invariant of the body holds at the exit, where
    the condition is false. *)
Lemma while_loop_inv cond body (Inv : S → Prop) n : ∀ s s',
  (∀ s1 s2, Inv s1 → cond s1 = Done true → body s1 = Done s2 → Inv s2) →
  Inv s →
  while_loop cond body n s = Done s' →
  Inv s' ∧ cond s' = Done false.
Proof.
  induction n as [|n IH]; intros s s' Hbody Hs Hrun; [done|].
  rewrite while_loop_S in Hrun.
  apply bind_Done in Hrun as (b & Hb & Hrun). destruct b.
  - apply bind_Done in Hrun as (s1 & Hs1 & Hrun).
    eapply IH; [done| |exact Hrun]. by eapply Hbody.
  - injection Hrun as <-. done.
Qed.

(** Total correctness: when every iteration of the body returns (given
    enough fuel of its own) and lowers a measure, the loop returns. *)
Lemma while_loop_total cond (body : nat → S → outcome S) (Inv : S → Prop)
    (m : S → nat) :
  (∀ s, Inv s → ∃ b, cond s = Done b) →
  (∀ s, Inv s → cond s = Done true →
     ∃ f0 s', (∀ f, (f0 ≤ f)%nat → body f s = Done s') ∧
              Inv s' ∧ (m s' < m s)%nat) →
  ∀ s, Inv s →
    ∃ f0 s', (∀ f n, (f0 ≤ f)%nat → (f0 ≤ n)%nat →
                while_loop cond (body f) n s = Done s') ∧
             Inv s' ∧ cond s' = Done false.
Proof.
  intros Hcond Hbody s.
  remember (m s) as k eqn:Hk. revert s Hk.
  induction k as [k IH] using lt_wf_ind. intros s Hk Hs.
  destruct (Hcond s Hs) as [[|] Hb].
  - destruct (Hbody s Hs Hb) as (f1 & s1 & Hrun1 & Hs1 & Hlt).
    destruct (IH (m s1) ltac:(lia) s1 eq_refl Hs1) as (f2 & s2 & Hrun2 & Hs2 & Hex).
    exists (Datatypes.S (f1 `max` f2)), s2. split; [|done].
    intros f n Hf Hn. destruct n as [|n]; [lia|].
    rewrite while_loop_S, Hb. simpl.
    rewrite Hrun1 by lia. simpl. apply Hrun2; lia.
  - exists 1%nat, s. split; [|done].
    intros f n Hf Hn. destruct n as [|n]; [lia|].
    rewrite while_loop_S, Hb. done.
Qed.

End Loops.

(** ** Tiers and their accounting *)

Lemma same_shape_refl c : same_shape c c.
Proof. done. Qed.

Lemma same_shape_trans c1 c2 c3 :
  same_shape c1 c2 → same_shape c2 c3 → same_shape c1 c3.
Proof. unfold same_shape. intros (?&?&?&?) (?&?&?&?). repeat split; congruence. Qed.

Lemma tier_Done c i t : tier c i = Done t ↔ tiers c !! i = Some t.
Proof. apply of_option_Done. Qed.

Lemma tier_eq c i t : tiers c !! i = Some t → tier c i = Done t.
Proof. apply tier_Done. Qed.

Lemma tiers_set_tier c i t : tiers (set_tier c i t) = <[i := t]> (tiers c).
Proof. done. Qed.

Lemma same_shape_set_tier c i t : same_shape c (set_tier c i t).
Proof. unfold same_shape, tiers. simpl. by rewrite length_insert. Qed.

Lemma set_tier_same c i t : tiers c !! i = Some t → set_tier c i t = c.
Proof.
  intros H. destruct c as [ts oh [n l]]. unfold set_tier, tiers in *. simpl in *.
  by rewrite list_insert_id.
Qed.

Lemma tier_capacity_set_tier c i t :
  tier_capacity (set_tier c i t) = tier_capacity c.
Proof. done. Qed.

Lemma wf_set_tier c i t :
  wf c → tier_ok (overhead c) (tier_capacity c) t → wf (set_tier c i t).
Proof.
  intros [Hlen Hall] Ht. split.
  - rewrite tiers_set_tier, length_insert. done.
  - rewrite tiers_set_tier. simpl. rewrite tier_capacity_set_tier.
    by apply Forall_insert.
Qed.

Lemma wf_tier c i t :
  wf c → tiers c !! i = Some t → tier_ok (overhead c) (tier_capacity c) t.
Proof. intros [_ Hall] Hi. by eapply Forall_lookup_1. Qed.

Lemma absent_set_tier c k i t :
  absent c k → occurrences k (q t) = 0%nat → absent (set_tier c i t) k.
Proof.
  unfold absent. rewrite tiers_set_tier. intros Hc Ht. by apply Forall_insert.
Qed.

Lemma absent_tier c k i t :
  absent c k → tiers c !! i = Some t → occurrences k (q t) = 0%nat.
Proof. intros Hc Hi. by eapply (Forall_lookup_1 _ _ _ _ Hc). Qed.

(** *** Lists of objects *)

Lemma used_app oh l1 l2 : used oh (l1 ++ l2) = used oh l1 + used oh l2.
Proof. induction l1 as [|o l1 IH]; simpl; lia. Qed.

Lemma occurrences_cons k o l :
  occurrences k (o :: l) = ((if has_id k o then 1 else 0) + occurrences k l)%nat.
Proof. done. Qed.

Lemma occurrences_app k l1 l2 :
  occurrences k (l1 ++ l2) = (occurrences k l1 + occurrences k l2)%nat.
Proof. induction l1 as [|o l1 IH]; simpl; lia. Qed.

Lemma used_nonneg oh l : Forall (λ o, 0 ≤ obj_size o + oh) l → 0 ≤ used oh l.
Proof. induction 1; simpl; lia. Qed.

Lemma find_None_occurrences k l :
  List.find (has_id k) l = None ↔ occurrences k l = 0%nat.
Proof.
  induction l as [|o l IH]; simpl; [done|].
  destruct (has_id k o); [split; [done|lia]|]. by rewrite IH.
Qed.

Lemma find_Some_id k l o : List.find (has_id k) l = Some o → obj_id o = k.
Proof.
  intros H. apply List.find_some in H as [_ H].
  unfold has_id in H. by apply bool_decide_eq_true in H.
Qed.

Lemma used_unlink oh k l o :
  List.find (has_id k) l = Some o →
  used oh (unlink k l) = used oh l - (obj_size o + oh).
Proof.
  induction l as [|x l IH]; simpl; [done|].
  destruct (has_id k x).
  - intros [= ->]. lia.
  - intros H. simpl. rewrite IH by done. lia.
Qed.

Lemma occurrences_unlink k l :
  occurrences k (unlink k l) = pred (occurrences k l).
Proof.
  induction l as [|x l IH]; simpl; [done|].
  destruct (has_id k x) eqn:Hx; simpl; [done|]. by rewrite Hx, IH.
Qed.

Lemma occurrences_unlink_other k k' l :
  occurrences k l = 0%nat → occurrences k (unlink k' l) = 0%nat.
Proof.
  induction l as [|x l IH]; simpl; [done|].
  intros H. destruct (has_id k' x); simpl; [lia|].
  destruct (has_id k x); [lia|]. apply IH. lia.
Qed.

Lemma Forall_unlink (P : cache_obj_t → Prop) k l :
  Forall P l → Forall P (unlink k l).
Proof.
  induction 1 as [|x l Hx Hl IH]; simpl; [constructor|].
  destruct (has_id k x); [done|]. by constructor.
Qed.

Lemma find_Some_Forall (P : cache_obj_t → Prop) k l o :
  List.find (has_id k) l = Some o → Forall P l → P o.
Proof.
  intros H Hall. apply List.find_some in H as [H _].
  rewrite Forall_forall in Hall. apply Hall. by apply list_elem_of_In.
Qed.

(** *** The LRU primitive *)

Lemma LRU_evict_Done t e t' :
  LRU_evict t = Done (e, t') ↔ ∃ q', q t = q' ++ [e] ∧ t' = evicted t e q'.
Proof.
  unfold LRU_evict. destruct (last (q t)) as [o|] eqn:Hlast.
  - apply last_Some in Hlast as (q' & Hq). rewrite Hq, removelast_last. split.
    + intros [= -> <-]. by exists q'.
    + intros (q'' & Heq & ->). apply app_inj_tail in Heq as [-> ->]. done.
  - apply last_None in Hlast. rewrite Hlast. split; [done|].
    intros (q' & Heq & _). by destruct q'.
Qed.

Lemma LRU_evict_snoc t e q' :
  q t = q' ++ [e] → LRU_evict t = Done (e, evicted t e q').
Proof. intros H. apply LRU_evict_Done. eauto. Qed.

Lemma tier_ok_evicted oh cap t e q' :
  tier_ok oh cap t → q t = q' ++ [e] →
  tier_ok oh cap (evicted t e q') ∧
  0 ≤ obj_size e + oh ∧ obj_size e + oh ≤ cap.
Proof.
  intros (Hoh & Hcap & Hocc & Hpos & Hle) Hq.
  rewrite Hq in Hocc, Hpos. rewrite used_app in Hocc. simpl in Hocc.
  apply Forall_app in Hpos as [Hpos He].
  rewrite Forall_singleton in He.
  pose proof (used_nonneg _ _ Hpos).
  unfold tier_ok, evicted. simpl. repeat split; try done; lia.
Qed.

Lemma tier_ok_insert oh cap t req :
  tier_ok oh cap t →
  0 ≤ req_obj_size req + oh →
  occupied_size t + req_obj_size req + oh ≤ cache_size t →
  tier_ok oh cap (LRU_insert t req).
Proof.
  intros (Hoh & Hcap & Hocc & Hpos & Hle) Hreq Hfit.
  unfold tier_ok, LRU_insert. simpl. rewrite Hoh.
  repeat split; try done; try lia.
  by constructor.
Qed.

Lemma tier_ok_remove oh cap t k :
  tier_ok oh cap t → tier_ok oh cap (LRU_remove t k).
Proof.
  intros (Hoh & Hcap & Hocc & Hpos & Hle). unfold LRU_remove.
  destruct (List.find (has_id k) (q t)) as [o|] eqn:Hfind; [|done].
  pose proof (find_Some_Forall _ _ _ _ Hfind Hpos) as Ho. simpl in Ho.
  unfold tier_ok. simpl. rewrite Hoh.
  rewrite (used_unlink _ _ _ _ Hfind).
  repeat split; try done; try lia.
  by apply Forall_unlink.
Qed.

Lemma is_full_Done c i size b :
  is_full c i size = Done b ↔
  ∃ t, tiers c !! i = Some t ∧
       b = bool_decide (occupied_size t + size + overhead c > cache_size t).
Proof.
  unfold is_full, tier. fold (tiers c).
  destruct (tiers c !! i) as [t|]; simpl.
  - split; [intros [= <-]; eauto | by intros (t' & [= <-] & ->)].
  - split; [done | by intros (? & ? & _)].
Qed.

Lemma SLRU_cool_S fuel c i :
  SLRU_cool (S fuel) c i =
  (t ← tier c i;
   r ← LRU_evict t;
   if decide (i = 0%nat) then Done (set_tier c i (snd r))
   else
     cache2 ← while_loop (λ c', is_full c' (i - 1) (obj_size (fst r)))
                         (λ c', SLRU_cool fuel c' (i - 1)) fuel
                         (set_tier c i (snd r));
     tl ← tier cache2 (i - 1);
     Done (set_tier cache2 (i - 1)
             (LRU_insert tl (copy_cache_obj_to_request (fst r))))).
Proof. done. Qed.

Lemma occurrences_snoc_zero k q' e :
  occurrences k (q' ++ [e]) = 0%nat →
  occurrences k q' = 0%nat ∧ has_id k e = false.
Proof.
  rewrite occurrences_app. simpl. destruct (has_id k e); [lia|]. split; [lia|done].
Qed.

(** What one cooling step does, whenever it returns: it takes the LRU-end
    object [e] out of tier [i], leaves the tiers above [i] alone and, for
    [i > 0], puts [e] at the MRU end of tier [i - 1] once that tier has
    room.  No id enters the cache, and the invariant is kept. *)
Lemma SLRU_cool_post fuel : ∀ c i c',
  SLRU_cool fuel c i = Done c' →
  ∃ t e q',
    tiers c !! i = Some t ∧ q t = q' ++ [e] ∧
    same_shape c c' ∧
    (∀ j, (i < j)%nat → tiers c' !! j = tiers c !! j) ∧
    tiers c' !! i = Some (evicted t e q') ∧
    (i = 0%nat → c' = set_tier c 0 (evicted t e q')) ∧
    (i ≠ 0%nat →
       ∃ tl, tiers c' !! (i - 1)%nat
             = Some (LRU_insert tl (copy_cache_obj_to_request e)) ∧
             occupied_size tl + obj_size e + overhead c ≤ cache_size tl) ∧
    (∀ k, absent c k → absent c' k) ∧
    (wf c → wf c').
Proof.
  induction fuel as [|fuel IH]; intros c i c' Hrun; [done|].
  rewrite SLRU_cool_S in Hrun.
  apply bind_Done in Hrun as (t & Ht & Hrun). apply tier_Done in Ht.
  apply bind_Done in Hrun as ([e t'] & Hev & Hrun).
  apply LRU_evict_Done in Hev as (q' & Hq & ->). simpl in Hrun.
  pose proof (lookup_lt_Some _ _ _ Ht) as Hi.
  set (c1 := set_tier c i (evicted t e q')) in *.
  assert (Hc1i : tiers c1 !! i = Some (evicted t e q')).
  { unfold c1. rewrite tiers_set_tier. by apply list_lookup_insert_eq. }
  assert (Hwf1 : wf c → wf c1).
  { intros Hwf. apply wf_set_tier; [done|].
    eapply tier_ok_evicted; [by eapply wf_tier|done]. }
  assert (Habs1 : ∀ k, absent c k → absent c1 k).
  { intros k Hk. apply absent_set_tier; [done|]. simpl.
    pose proof (absent_tier _ _ _ _ Hk Ht) as H0. rewrite Hq in H0.
    by apply occurrences_snoc_zero in H0 as [? _]. }
  exists t, e, q'. split; [done|]. split; [done|].
  case_decide as Hi0.
  - injection Hrun as <-. split; [apply same_shape_set_tier|].
    split.
    { intros j Hj. fold c1. unfold c1. rewrite tiers_set_tier.
      apply list_lookup_insert_ne. lia. }
    split; [done|]. split; [by subst i|]. split; [done|]. split; done.
  - apply bind_Done in Hrun as (c2 & Hloop & Hrun).
    apply bind_Done in Hrun as (tl & Htl & Hrun). apply tier_Done in Htl.
    injection Hrun as <-.
    set (Inv := λ s : cache_t,
           same_shape c1 s ∧
           (∀ j, (i ≤ j)%nat → tiers s !! j = tiers c1 !! j) ∧
           (∀ k, absent c1 k → absent s k) ∧
           (wf c1 → wf s)).
    apply (while_loop_inv _ _ Inv) in Hloop as [(Hsh2 & Habove2 & Habs2 & Hwf2) Hexit].
    2:{ intros s1 s2 (Hsh & Habove & Habs & Hwf) _ Hbody.
        apply IH in Hbody
          as (tb & eb & qb & _ & _ & Hshb & Haboveb & _ & _ & _ & Habsb & Hwfb).
        split; [by eapply same_shape_trans|].
        split; [intros j Hj; rewrite Haboveb by lia; by apply Habove|].
        split; [intros k Hk; by apply Habsb, Habs|].
        intros Hw. by apply Hwfb, Hwf. }
    2:{ unfold Inv. split; [apply same_shape_refl|]. split; done. }
    apply is_full_Done in Hexit as (tl' & Htl' & Hfull).
    rewrite Htl in Htl'. injection Htl' as <-.
    symmetry in Hfull. apply bool_decide_eq_false in Hfull.
    assert (Hoh2 : overhead c2 = overhead c).
    { destruct Hsh2 as (_ & -> & _). done. }
    split.
    { eapply same_shape_trans; [apply same_shape_set_tier|].
      eapply same_shape_trans; [exact Hsh2|apply same_shape_set_tier]. }
    split.
    { intros j Hj. rewrite tiers_set_tier.
      rewrite list_lookup_insert_ne by lia. rewrite Habove2 by lia.
      unfold c1. rewrite tiers_set_tier. apply list_lookup_insert_ne. lia. }
    split.
    { rewrite tiers_set_tier. rewrite list_lookup_insert_ne by lia.
      rewrite Habove2 by lia. done. }
    split; [done|].
    split.
    { intros _. exists tl. split.
      - rewrite tiers_set_tier. apply list_lookup_insert_eq.
        by eapply lookup_lt_Some.
      - lia. }
    split.
    { intros k Hk. apply absent_set_tier; [by apply Habs2, Habs1|].
      simpl. pose proof (absent_tier _ _ _ _ Hk Ht) as H0. rewrite Hq in H0.
      apply occurrences_snoc_zero in H0 as [_ He].
      unfold has_id in *. simpl. rewrite He.
      by eapply absent_tier; [apply Habs2, Habs1|]. }
    intros Hwf. pose proof (Hwf2 (Hwf1 Hwf)) as Hwfc2.
    apply wf_set_tier; [done|].
    pose proof (wf_tier _ _ _ Hwf Ht) as Hokt.
    destruct (tier_ok_evicted _ _ _ _ _ Hokt Hq) as (_ & Hpos & _).
    apply tier_ok_insert; [by eapply wf_tier| |].
    + simpl. by rewrite Hoh2.
    + simpl. lia.
Qed.

Lemma nonempty_snoc {A} (l : list A) : l ≠ [] → ∃ l' x, l = l' ++ [x].
Proof.
  destruct l as [|x l'] using rev_ind; [done|]. intros _. eauto.
Qed.

(** Under the invariant, cooling a non-empty tier returns. *)
Lemma SLRU_cool_total i : ∀ c t,
  wf c → tiers c !! i = Some t → q t ≠ [] →
  ∃ f0 c', ∀ fuel, (f0 ≤ fuel)%nat → SLRU_cool fuel c i = Done c'.
Proof.
  induction i as [|i IH]; intros c t Hwf Ht Hne.
  - apply nonempty_snoc in Hne as (q' & e & Hq).
    exists 1%nat, (set_tier c 0 (evicted t e q')).
    intros fuel Hfuel. destruct fuel as [|fuel]; [lia|].
    rewrite SLRU_cool_S, (tier_eq _ _ _ Ht). simpl.
    rewrite (LRU_evict_snoc _ _ _ Hq). done.
  - apply nonempty_snoc in Hne as (q' & e & Hq).
    set (c1 := set_tier c (S i) (evicted t e q')).
    pose proof (wf_tier _ _ _ Hwf Ht) as Hokt.
    destruct (tier_ok_evicted _ _ _ _ _ Hokt Hq) as (Hok' & Hpos & Hfits).
    assert (Hwf1 : wf c1) by (by apply wf_set_tier).
    pose proof (lookup_lt_Some _ _ _ Ht) as Hlt.
    set (Inv := λ s : cache_t, wf s ∧ same_shape c s).
    destruct (while_loop_total
                (λ c', is_full c' i (obj_size e))
                (λ f c', SLRU_cool f c' i) Inv (tier_length i))
      with (s := c1) as (f0 & c2 & Hloop & [Hwf2 Hsh2] & Hexit).
    { intros s [Hwfs (_ & _ & _ & Hlen)].
      destruct (lookup_lt_is_Some_2 (tiers s) i) as [tl Htl]; [lia|].
      eexists. apply is_full_Done. eauto. }
    { intros s [Hwfs Hshs] Hfull.
      apply is_full_Done in Hfull as (tl & Htl & Hfull).
      symmetry in Hfull. apply bool_decide_eq_true in Hfull.
      pose proof (wf_tier _ _ _ Hwfs Htl) as (Hoh & Hcap & Hocc & _ & _).
      assert (Hcap_eq : tier_capacity s = tier_capacity c).
      { unfold tier_capacity. destruct Hshs as (-> & _ & -> & _). done. }
      assert (Hoh_eq : overhead s = overhead c) by (by destruct Hshs as (_ & -> & _)).
      assert (Hne : q tl ≠ []).
      { intros Hnil. rewrite Hnil in Hocc. simpl in Hocc. lia. }
      destruct (IH s tl Hwfs Htl Hne) as (f1 & s' & Hbody).
      exists f1, s'. split; [done|].
      pose proof (Hbody f1 (le_n _)) as Hrun.
      apply SLRU_cool_post in Hrun
        as (tb & eb & qb & Htb & Hqb & Hshb & _ & Hafter & _ & _ & _ & Hwfb).
      split; [split; [by apply Hwfb|by eapply same_shape_trans]|].
      unfold tier_length. rewrite Hafter, Htb, Hqb. simpl.
      rewrite length_app. simpl. lia. }
    { split; [done|apply same_shape_set_tier]. }
    apply is_full_Done in Hexit as (tl & Htl & _).
    exists (S f0), (set_tier c2 i (LRU_insert tl (copy_cache_obj_to_request e))).
    intros fuel Hfuel. destruct fuel as [|fuel]; [lia|].
    rewrite SLRU_cool_S, (tier_eq _ _ _ Ht). simpl.
    rewrite (LRU_evict_snoc _ _ _ Hq). simpl.
    replace (i - 0)%nat with i by lia. fold c1.
    rewrite Hloop by lia. simpl.
    rewrite (tier_eq _ _ _ Htl). done.
Qed.

Lemma create_copy e :
  create_cache_obj_from_request (copy_cache_obj_to_request e) = e.
Proof. by destruct e. Qed.

(** *** [SLRU_cool] against the specification of the cascade *)

Lemma while_loop_repeat {S} (cond : S → outcome bool) (body : S → outcome S)
    (P : S → Prop) (R : S → S → Prop) n : ∀ s s',
  (∀ s1, cond s1 = Done true → P s1) →
  (∀ s1, cond s1 = Done false → ¬ P s1) →
  (∀ s1 s2, body s1 = Done s2 → R s1 s2) →
  while_loop cond body n s = Done s' →
  repeat_while P R s s'.
Proof.
  induction n as [|n IH]; intros s s' Htrue Hfalse Hbody H; [done|].
  rewrite while_loop_S in H. apply bind_Done in H as (b & Hb & H).
  destruct b.
  - apply bind_Done in H as (s1 & Hs1 & H).
    eapply repeat_step; [by apply Htrue|by apply Hbody|by eapply IH].
  - injection H as <-. apply repeat_done. by apply Hfalse.
Qed.

Lemma repeat_while_end {S} (P : S → Prop) (R : S → S → Prop) s s' :
  repeat_while P R s s' → ¬ P s'.
Proof. induction 1; done. Qed.

Lemma is_full_cannot_fit c j size b :
  is_full c j size = Done b → (b = true ↔ cannot_fit j size c).
Proof.
  intros H. apply is_full_Done in H as (t & Ht & ->).
  unfold cannot_fit. split.
  - intros Hb. apply bool_decide_eq_true in Hb. eauto.
  - intros (t' & Ht' & Hfull). rewrite Ht in Ht'. injection Ht' as <-.
    by apply bool_decide_eq_true.
Qed.

(** Whenever [SLRU_cool] returns, it has done what the specification of
    the cascade says. *)
Lemma SLRU_cool_cascade fuel : ∀ c i c',
  SLRU_cool fuel c i = Done c' → cool_spec i c c'.
Proof.
  induction fuel as [|fuel IH]; intros c i c' Hrun; [done|].
  rewrite SLRU_cool_S in Hrun.
  apply bind_Done in Hrun as (t & Ht & Hrun). apply tier_Done in Ht.
  apply bind_Done in Hrun as ([e t'] & Hev & Hrun).
  apply LRU_evict_Done in Hev as (q' & Hq & ->). simpl in Hrun.
  destruct i as [|j]; simpl.
  - injection Hrun as <-. exists t, e, q'. done.
  - rewrite decide_False in Hrun by done.
    replace (S j - 1)%nat with j in Hrun by lia.
    apply bind_Done in Hrun as (c2 & Hloop & Hrun).
    apply bind_Done in Hrun as (tl & Htl & Hrun). apply tier_Done in Htl.
    injection Hrun as <-.
    exists t, e, q'. split; [done|]. split; [done|].
    exists c2, tl. split; [|done].
    eapply while_loop_repeat; [| | |exact Hloop].
    + intros s1 H1. by apply (is_full_cannot_fit _ _ _ _ H1).
    + intros s1 H1 Hfit. by apply (is_full_cannot_fit _ _ _ _ H1) in Hfit.
    + intros s1 s2 Hbody. by eapply IH.
Qed.

Lemma while_loop_mono {S} (cond : S → outcome bool) (body body' : S → outcome S)
    n : ∀ n' s s',
  (∀ s1 s2, body s1 = Done s2 → body' s1 = Done s2) →
  (n ≤ n')%nat →
  while_loop cond body n s = Done s' →
  while_loop cond body' n' s = Done s'.
Proof.
  induction n as [|n IH]; intros n' s s' Hbody Hn H; [done|].
  destruct n' as [|n']; [lia|].
  rewrite while_loop_S in H. rewrite while_loop_S.
  apply bind_Done in H as (b & Hb & H). rewrite Hb. simpl.
  destruct b; [|done].
  apply bind_Done in H as (s1 & Hs1 & H).
  rewrite (Hbody _ _ Hs1). simpl. apply (IH n'); [done|lia|done].
Qed.

Lemma SLRU_cool_mono fuel : ∀ fuel' c i c',
  SLRU_cool fuel c i = Done c' → (fuel ≤ fuel')%nat →
  SLRU_cool fuel' c i = Done c'.
Proof.
  induction fuel as [|fuel IH]; intros fuel' c i c' H Hle; [done|].
  destruct fuel' as [|fuel']; [lia|].
  rewrite SLRU_cool_S in H. rewrite SLRU_cool_S.
  apply bind_Done in H as (t & Ht & H). rewrite Ht. simpl.
  apply bind_Done in H as (r & Hr & H). rewrite Hr. simpl.
  case_decide; [done|].
  apply bind_Done in H as (c2 & Hloop & H).
  rewrite (while_loop_mono _ _ (λ c', SLRU_cool fuel' c' (i - 1)) fuel fuel'
             _ _ (λ s1 s2 Hb, IH fuel' s1 (i - 1)%nat s2 Hb ltac:(lia))
             ltac:(lia) Hloop).
  done.
Qed.

Lemma is_full_tier c i t size :
  tiers c !! i = Some t →
  is_full c i size = Done (bool_decide (tier_full c t size)).
Proof. intros H. apply is_full_Done. eauto. Qed.

(** Conversely, a cascade that the specification allows is the one
    [SLRU_cool] runs, given enough steps. *)
Lemma cool_spec_run i : ∀ c c',
  cool_spec i c c' →
  ∃ f0, ∀ fuel, (f0 ≤ fuel)%nat → SLRU_cool fuel c i = Done c'.
Proof.
  induction i as [|j IH]; intros c c' (t & e & q' & Ht & Hq & Hrest).
  - subst c'. exists 1%nat. intros fuel Hfuel.
    destruct fuel as [|fuel]; [lia|].
    rewrite SLRU_cool_S, (tier_eq _ _ _ Ht). simpl.
    by rewrite (LRU_evict_snoc _ _ _ Hq).
  - destruct Hrest as (c2 & tl & Hrep & Htl & ->).
    assert (Hloop : ∃ f1, ∀ f n, (f1 ≤ f)%nat → (f1 ≤ n)%nat →
              while_loop (λ c', is_full c' j (obj_size e))
                         (λ c', SLRU_cool f c' j) n
                         (set_tier c (S j) (evicted t e q')) = Done c2).
    { clear Ht Hq. induction Hrep as [s Hfit|s s1 s2 Hfull Hbody _ IHrep].
      - exists 1%nat. intros f n _ Hn. destruct n as [|n]; [lia|].
        rewrite while_loop_S, (is_full_tier _ _ _ _ Htl). simpl.
        rewrite bool_decide_eq_false_2; [done|].
        intros Hfull. apply Hfit. by exists tl.
      - destruct (IHrep Htl) as [f1 Hf1].
        destruct (IH _ _ Hbody) as [f2 Hf2].
        destruct Hfull as (ts & Hts & Hfull).
        exists (S (f1 `max` f2)). intros f n Hf Hn.
        destruct n as [|n]; [lia|].
        rewrite while_loop_S, (is_full_tier _ _ _ _ Hts). simpl.
        rewrite bool_decide_eq_true_2 by done.
        rewrite Hf2 by lia. simpl. apply Hf1; lia. }
    destruct Hloop as [f1 Hf1].
    exists (S f1). intros fuel Hfuel. destruct fuel as [|fuel]; [lia|].
    rewrite SLRU_cool_S, (tier_eq _ _ _ Ht). simpl.
    rewrite (LRU_evict_snoc _ _ _ Hq). simpl.
    replace (j - 0)%nat with j by lia.
    rewrite Hf1 by lia. simpl.
    by rewrite (tier_eq _ _ _ Htl).
Qed.

Lemma LRU_insert_inj t1 t2 req :
  LRU_insert t1 req = LRU_insert t2 req → t1 = t2.
Proof.
  destruct t1 as [cs1 occ1 oh1 q1], t2 as [cs2 occ2 oh2 q2].
  unfold LRU_insert. simpl. intros [= -> Hocc -> ->]. f_equal. lia.
Qed.

(** Claim C5.  Let tier [i] be non-empty with LRU-end object [e], and let
    every tier be within its budget.  Whenever [SLRU_cool] on tier [i]
    returns, it has run the cascade of the specification: tier [i] has lost
    exactly [e] and has at least [obj_size e + per_obj_overhead] free
    bytes; for [i = 0] nothing else changed ([e] is gone); for [i > 0] tier
    [i - 1] has been cooled, recursively, as long as it could not fit [e]
    (each of these coolings demoting its own evictee in the same way), the
    tier [tl] this leaves has room for [e], and [e] has been put at its MRU
    end.  Conversely every cascade of the specification is what
    [SLRU_cool] returns, given enough steps.  Under the cache invariant,
    the call does return, and keeps the invariant. *)
Theorem SLRU_cool_frees_room c i t q' e :
  tiers c !! i = Some t →
  q t = q' ++ [e] →
  Forall (λ t, occupied_size t ≤ cache_size t) (tiers c) →
  (∀ fuel c', SLRU_cool fuel c i = Done c' →
     cool_spec i c c' ∧
     ∃ t', tiers c' !! i = Some t' ∧ q t' = q' ∧
       obj_size e + per_obj_overhead t' ≤ cache_size t' - occupied_size t' ∧
       (i = 0%nat → c' = set_tier c 0 t') ∧
       (i ≠ 0%nat →
          ∃ c2 tl tl',
            repeat_while (cannot_fit (i - 1) (obj_size e)) (cool_spec (i - 1))
                         (set_tier c i t') c2 ∧
            tiers c2 !! (i - 1)%nat = Some tl ∧
            ¬ tier_full c2 tl (obj_size e) ∧
            c' = set_tier c2 (i - 1) tl' ∧
            tiers c' !! (i - 1)%nat = Some tl' ∧
            occupied_size tl + obj_size e + overhead c ≤ cache_size tl ∧
            q tl' = e :: q tl ∧
            occupied_size tl' =
              occupied_size tl + (obj_size e + per_obj_overhead tl))) ∧
  (∀ c', cool_spec i c c' →
     ∃ f0, ∀ fuel, (f0 ≤ fuel)%nat → SLRU_cool fuel c i = Done c') ∧
  (wf c →
     ∃ f0 c', wf c' ∧ cool_spec i c c' ∧
              ∀ fuel, (f0 ≤ fuel)%nat → SLRU_cool fuel c i = Done c').
Proof.
  intros Ht Hq Hle. split; [|split; [apply cool_spec_run|]].
  - intros fuel c' Hrun.
    pose proof (SLRU_cool_cascade _ _ _ _ Hrun) as Hspec.
    split; [done|].
    apply SLRU_cool_post in Hrun
      as (t0 & e0 & q0 & Ht0 & Hq0 & _ & _ & Hi & Hzero & Hpos & _).
    rewrite Ht in Ht0. injection Ht0 as <-.
    rewrite Hq in Hq0. apply app_inj_tail in Hq0 as [<- <-].
    exists (evicted t e q'). split; [done|]. split; [done|].
    split.
    { simpl. pose proof (Forall_lookup_1 _ _ _ _ Hle Ht) as H. simpl in H. lia. }
    split; [done|].
    intros Hne. destruct (Hpos Hne) as (tl & Htl & Hfit).
    destruct i as [|j]; [done|].
    replace (S j - 1)%nat with j in * by lia.
    simpl in Hspec.
    destruct Hspec as (t1 & e1 & q1 & Ht1 & Hq1 & c2 & tl2 & Hrep & Htl2 & Hc').
    rewrite Ht in Ht1. injection Ht1 as <-.
    rewrite Hq in Hq1. apply app_inj_tail in Hq1 as [<- <-].
    assert (tl2 = tl) as ->.
    { rewrite Hc', tiers_set_tier, list_lookup_insert_eq in Htl
        by (by eapply lookup_lt_Some).
      apply (LRU_insert_inj _ _ (copy_cache_obj_to_request e)). congruence. }
    exists c2, tl, (LRU_insert tl (copy_cache_obj_to_request e)).
    split; [done|]. split; [done|].
    split.
    { intros Hfull. apply (repeat_while_end _ _ _ _ Hrep). by exists tl. }
    split; [done|]. split; [done|]. split; [done|].
    simpl. by rewrite create_copy.
  - intros Hwf.
    destruct (SLRU_cool_total i c t Hwf Ht) as (f0 & c' & Hrun).
    { rewrite Hq. by destruct q'. }
    exists f0, c'.
    pose proof (Hrun f0 (le_n _)) as Hrun0.
    pose proof (SLRU_cool_cascade _ _ _ _ Hrun0) as Hspec.
    apply SLRU_cool_post in Hrun0 as (_ & _ & _ & _ & _ & _ & _ & _ & _ & _ & _ & Hwf').
    split; [by apply Hwf'|]. split; done.
Qed.

(** ** Insertion *)

Lemma is_full_eq c i t size :
  tiers c !! i = Some t →
  is_full c i size = Done (bool_decide (tier_full c t size)).
Proof. intros H. apply is_full_Done. eauto. Qed.

Lemma evict_n_q m : ∀ t,
  (m ≤ length (q t))%nat →
  q (evict_n m t) = take (length (q t) - m) (q t).
Proof.
  induction m as [|m IH]; intros t Hm; simpl.
  - by rewrite Nat.sub_0_r, firstn_all.
  - destruct (nonempty_snoc (q t)) as (q' & e & Hq).
    { intros Hnil. rewrite Hnil in Hm. simpl in Hm. lia. }
    rewrite (LRU_evict_snoc _ _ _ Hq). simpl.
    rewrite Hq, length_app in Hm. simpl in Hm.
    rewrite IH by (simpl; lia). simpl.
    rewrite Hq, length_app. simpl.
    rewrite take_app_le by lia. f_equal. lia.
Qed.

(** The scan of [SLRU_insert] stops at the first tier with room. *)
Lemma SLRU_insert_from_fit fuel c req n : ∀ i0 i t,
  (i0 ≤ i < i0 + n)%nat →
  tiers c !! i = Some t →
  ¬ tier_full c t (req_obj_size req) →
  (∀ j tj, (i0 ≤ j < i)%nat → tiers c !! j = Some tj →
           tier_full c tj (req_obj_size req)) →
  (∀ j, (i0 ≤ j < i)%nat → is_Some (tiers c !! j)) →
  SLRU_insert_from fuel n i0 c req = Done (set_tier c i (LRU_insert t req)).
Proof.
  induction n as [|n IH]; intros i0 i t Hi Ht Hfit Hfull Hsome; [lia|].
  simpl. destruct (decide (i0 = i)) as [->|Hne].
  - rewrite (is_full_eq _ _ _ _ Ht). simpl.
    rewrite bool_decide_eq_false_2 by done.
    by rewrite (tier_eq _ _ _ Ht).
  - destruct (Hsome i0 ltac:(lia)) as [t0 Ht0].
    rewrite (is_full_eq _ _ _ _ Ht0). simpl.
    rewrite bool_decide_eq_true_2 by (apply (Hfull i0); [lia|done]).
    apply IH; [lia|done|done| |].
    + intros j tj Hj. apply Hfull. lia.
    + intros j Hj. apply Hsome. lia.
Qed.

(** When no tier has room, the scan runs to its end. *)
Lemma SLRU_insert_from_full fuel c req n : ∀ i0,
  (i0 + n = length (tiers c))%nat →
  Forall (λ t, tier_full c t (req_obj_size req)) (tiers c) →
  SLRU_insert_from fuel n i0 c req = SLRU_insert_from fuel 0 (i0 + n) c req.
Proof.
  induction n as [|n IH]; intros i0 Hlen Hfull.
  - by rewrite Nat.add_0_r.
  - destruct (lookup_lt_is_Some_2 (tiers c) i0) as [t0 Ht0]; [lia|].
    replace (i0 + S n)%nat with (S i0 + n)%nat by lia.
    rewrite <- IH by (done || lia). simpl.
    rewrite (is_full_eq _ _ _ _ Ht0). simpl.
    by rewrite bool_decide_eq_true_2
      by (by eapply (Forall_lookup_1 _ _ _ _ Hfull)).
Qed.

(** The eviction loop of [SLRU_insert] evicts from the LRU end of tier 0
    as long as the tier is full. *)
Lemma evict_loop size m : ∀ c t0 fuel,
  tiers c !! 0%nat = Some t0 →
  (m ≤ length (q t0))%nat →
  (∀ m', (m' < m)%nat → tier_full c (evict_n m' t0) size) →
  ¬ tier_full c (evict_n m t0) size →
  (m < fuel)%nat →
  while_loop (λ c', is_full c' 0 size) SLRU_evict fuel c
  = Done (set_tier c 0 (evict_n m t0)).
Proof.
  induction m as [|m IH]; intros c t0 fuel Ht0 Hm Hfull Hfit Hfuel;
    (destruct fuel as [|fuel]; [lia|]); rewrite while_loop_S.
  - rewrite (is_full_eq _ _ _ _ Ht0). simpl in *.
    rewrite bool_decide_eq_false_2 by done. simpl.
    by rewrite set_tier_same.
  - rewrite (is_full_eq _ _ _ _ Ht0). simpl.
    rewrite bool_decide_eq_true_2 by (apply (Hfull 0%nat); lia).
    destruct (nonempty_snoc (q t0)) as (q' & e & Hq).
    { intros Hnil. rewrite Hnil in Hm. simpl in Hm. lia. }
    unfold SLRU_evict, cache_evict_LRU. rewrite (tier_eq _ _ _ Ht0). simpl.
    rewrite (LRU_evict_snoc _ _ _ Hq). simpl.
    simpl in Hfit. rewrite (LRU_evict_snoc _ _ _ Hq) in Hfit. simpl in Hfit.
    rewrite (IH (set_tier c 0 (evicted t0 e q')) (evicted t0 e q')).
    + f_equal. unfold set_tier. simpl. by rewrite list_insert_insert_eq.
    + rewrite tiers_set_tier. apply list_lookup_insert_eq.
      by eapply lookup_lt_Some.
    + simpl. rewrite Hq, length_app in Hm. simpl in Hm. lia.
    + intros m' Hm'. pose proof (Hfull (S m') ltac:(lia)) as H. simpl in H.
      by rewrite (LRU_evict_snoc _ _ _ Hq) in H.
    + done.
    + lia.
Qed.

Lemma tier_ok_evict_n oh cap m : ∀ t,
  tier_ok oh cap t → tier_ok oh cap (evict_n m t).
Proof.
  induction m as [|m IH]; intros t Hok; simpl; [done|].
  destruct (LRU_evict t) as [[e t']| |] eqn:Hev; try done.
  apply LRU_evict_Done in Hev as (q' & Hq & ->). simpl.
  apply IH. by eapply tier_ok_evicted.
Qed.

(** Under exact accounting, a tier that could hold the object when empty
    has room for it after some least number of evictions. *)
Lemma evict_until_room c size n : ∀ t0,
  tier_ok (overhead c) (tier_capacity c) t0 →
  length (q t0) = n →
  size + overhead c ≤ tier_capacity c →
  ∃ m, (m ≤ n)%nat ∧
       (∀ m', (m' < m)%nat → tier_full c (evict_n m' t0) size) ∧
       ¬ tier_full c (evict_n m t0) size.
Proof.
  induction n as [|n IH]; intros t0 Hok Hlen Hfits.
  - exists 0%nat. split; [done|]. split; [intros m' Hm'; lia|].
    destruct Hok as (_ & Hcap & Hocc & _ & _).
    apply length_zero_iff_nil in Hlen. rewrite Hlen in Hocc. simpl in *.
    unfold tier_full. lia.
  - destruct (decide (tier_full c t0 size)) as [Hfull|Hroom].
    + destruct (nonempty_snoc (q t0)) as (q' & e & Hq).
      { intros Hnil. by rewrite Hnil in Hlen. }
      destruct (tier_ok_evicted _ _ _ _ _ Hok Hq) as (Hok' & _ & _).
      destruct (IH (evicted t0 e q') Hok') as (m & Hm & Hbefore & Hafter).
      { simpl. rewrite Hq, length_app in Hlen. simpl in Hlen. lia. }
      { done. }
      exists (S m). split; [lia|]. split.
      * intros m' Hm'. destruct m' as [|m']; [done|]. simpl.
        rewrite (LRU_evict_snoc _ _ _ Hq). simpl. apply Hbefore. lia.
      * simpl. by rewrite (LRU_evict_snoc _ _ _ Hq).
    + exists 0%nat. split; [lia|]. split; [intros m' Hm'; lia|done].
Qed.

(** Claim C4 (as amended).  [SLRU_insert] puts the object at the MRU end
    of the lowest-indexed tier that has room for it and changes nothing
    else: when some tier has room there is such a lowest tier, and the call
    returns with the object there, for any number of steps.  When no tier
    has room, it evicts from the LRU end of tier 0 until tier 0 has room
    ([m] evictions, none of which could be spared) and then puts the object
    at the MRU end of tier 0; under the cache invariant this happens for
    every object that a tier can hold
    ([obj_size + per_obj_overhead] at most [cache_size / n_seg]): there is
    such an [m] and the call returns. *)
Theorem SLRU_insert_lowest_tier_with_room c req :
  Z.of_nat (length (tiers c)) = n_seg (eviction_params c) →
  (∀ i t,
     tiers c !! i = Some t →
     ¬ tier_full c t (req_obj_size req) →
     (∀ j tj, (j < i)%nat → tiers c !! j = Some tj →
              tier_full c tj (req_obj_size req)) →
     ∀ fuel, SLRU_insert fuel c req = Done (set_tier c i (LRU_insert t req))) ∧
  (Exists (λ t, ¬ tier_full c t (req_obj_size req)) (tiers c) →
   ∃ i t,
     tiers c !! i = Some t ∧
     ¬ tier_full c t (req_obj_size req) ∧
     (∀ j tj, (j < i)%nat → tiers c !! j = Some tj →
              tier_full c tj (req_obj_size req)) ∧
     ∀ fuel, SLRU_insert fuel c req = Done (set_tier c i (LRU_insert t req))) ∧
  (∀ t0 m,
     Forall (λ t, tier_full c t (req_obj_size req)) (tiers c) →
     tiers c !! 0%nat = Some t0 →
     (m ≤ length (q t0))%nat →
     (∀ m', (m' < m)%nat → tier_full c (evict_n m' t0) (req_obj_size req)) →
     ¬ tier_full c (evict_n m t0) (req_obj_size req) →
     q (evict_n m t0) = take (length (q t0) - m) (q t0) ∧
     ∀ fuel, (m < fuel)%nat →
       SLRU_insert fuel c req
       = Done (set_tier c 0 (LRU_insert (evict_n m t0) req))) ∧
  (wf c →
   0 < n_seg (eviction_params c) →
   req_obj_size req + overhead c ≤ tier_capacity c →
   Forall (λ t, tier_full c t (req_obj_size req)) (tiers c) →
   ∃ t0 m,
     tiers c !! 0%nat = Some t0 ∧
     (m ≤ length (q t0))%nat ∧
     (∀ m', (m' < m)%nat → tier_full c (evict_n m' t0) (req_obj_size req)) ∧
     ¬ tier_full c (evict_n m t0) (req_obj_size req) ∧
     q (evict_n m t0) = take (length (q t0) - m) (q t0) ∧
     ∀ fuel, (m < fuel)%nat →
       SLRU_insert fuel c req
       = Done (set_tier c 0 (LRU_insert (evict_n m t0) req))).
Proof.
  intros Hlen.
  assert (Hfitcase : ∀ i t,
            tiers c !! i = Some t →
            ¬ tier_full c t (req_obj_size req) →
            (∀ j tj, (j < i)%nat → tiers c !! j = Some tj →
                     tier_full c tj (req_obj_size req)) →
            ∀ fuel, SLRU_insert fuel c req
                    = Done (set_tier c i (LRU_insert t req))).
  { intros i t Ht Hfit Hfull fuel. unfold SLRU_insert.
    rewrite <- Hlen, Nat2Z.id.
    pose proof (lookup_lt_Some _ _ _ Ht) as Hi.
    apply SLRU_insert_from_fit; try done.
    + lia.
    + intros j tj Hj. apply Hfull. lia.
    + intros j Hj. apply lookup_lt_is_Some_2. lia. }
  assert (Hfullcase : ∀ t0 m,
            Forall (λ t, tier_full c t (req_obj_size req)) (tiers c) →
            tiers c !! 0%nat = Some t0 →
            (m ≤ length (q t0))%nat →
            (∀ m', (m' < m)%nat →
                   tier_full c (evict_n m' t0) (req_obj_size req)) →
            ¬ tier_full c (evict_n m t0) (req_obj_size req) →
            q (evict_n m t0) = take (length (q t0) - m) (q t0) ∧
            ∀ fuel, (m < fuel)%nat →
              SLRU_insert fuel c req
              = Done (set_tier c 0 (LRU_insert (evict_n m t0) req))).
  { intros t0 m Hfull Ht0 Hm Hbefore Hfit.
    split; [by apply evict_n_q|]. intros fuel Hfuel.
    unfold SLRU_insert. rewrite <- Hlen, Nat2Z.id.
    rewrite SLRU_insert_from_full by done. simpl.
    rewrite decide_True by done.
    rewrite (evict_loop _ m c t0) by done. simpl.
    rewrite (tier_eq _ 0 (evict_n m t0)); last first.
    { rewrite tiers_set_tier. apply list_lookup_insert_eq.
      by eapply lookup_lt_Some. }
    simpl. f_equal. unfold set_tier. simpl. by rewrite list_insert_insert_eq. }
  split; [done|]. split; [|split; [done|]].
  - intros Hroom.
    destruct (list_find (λ t, ¬ tier_full c t (req_obj_size req)) (tiers c))
      as [[i t]|] eqn:Hfind.
    + apply list_find_Some in Hfind as (Ht & Hfit & Hlow).
      assert (Hfull : ∀ j tj, (j < i)%nat → tiers c !! j = Some tj →
                        tier_full c tj (req_obj_size req)).
      { intros j tj Hj Htj.
        destruct (decide (tier_full c tj (req_obj_size req))); [done|].
        by destruct (Hlow j tj Htj Hj). }
      exists i, t. split; [done|]. split; [done|]. split; [done|].
      by apply Hfitcase.
    + apply list_find_None in Hfind.
      apply Exists_exists in Hroom as (x & Hx & Hfit).
      rewrite Forall_forall in Hfind. by destruct (Hfind x Hx).
  - intros Hwf Hn Hfits Hfull.
    destruct (lookup_lt_is_Some_2 (tiers c) 0) as [t0 Ht0]; [lia|].
    destruct (evict_until_room c (req_obj_size req) (length (q t0)) t0)
      as (m & Hm & Hbefore & Hfit); [by eapply wf_tier|done|done|].
    destruct (Hfullcase t0 m Hfull Ht0 Hm Hbefore Hfit) as [Hq Hrun].
    exists t0, m. split; [done|]. split; [done|]. split; [done|].
    split; [done|]. split; done.
Qed.

(** ** Lookup *)

Section Lookup.

Variable is_expired : cache_obj_t → request_t → bool.

Abbreviation LRU_check := (SLRU.LRU_check is_expired).
Abbreviation SLRU_check_from := (SLRU.SLRU_check_from is_expired).
Abbreviation SLRU_check := (SLRU.SLRU_check is_expired).
Abbreviation SLRU_get := (SLRU.SLRU_get is_expired).

Lemma LRU_check_absent t req upd :
  occurrences (req_obj_id req) (q t) = 0%nat →
  LRU_check t req upd = (cache_ck_miss, t).
Proof.
  intros H. apply find_None_occurrences in H.
  unfold SLRU.LRU_check. by rewrite H.
Qed.

(** A tier that reports Miss or Expired is left as it was. *)
Lemma LRU_check_not_hit t req upd :
  fst (LRU_check t req upd) ≠ cache_ck_hit →
  snd (LRU_check t req upd) = t.
Proof.
  unfold SLRU.LRU_check.
  destruct (List.find _ (q t)) as [o|]; [|done].
  by destruct (is_expired o req).
Qed.

Lemma SLRU_check_from_S fuel n i c req upd :
  SLRU_check_from fuel (S n) i c req upd =
  (t ← tier c i;
   let r := LRU_check t req upd in
   let cache1 := set_tier c i (snd r) in
   match fst r with
   | cache_ck_hit =>
       if decide (Z.of_nat i ≠ n_seg (eviction_params c) - 1) then
         t1 ← tier cache1 i;
         let cache2 := set_tier cache1 i (LRU_remove t1 (req_obj_id req)) in
         cache3 ← while_loop (λ c', is_full c' (i + 1) (req_obj_size req))
                             (λ c', SLRU_cool fuel c' (i + 1)) fuel cache2;
         tu ← tier cache3 (i + 1);
         Done (cache_ck_hit, set_tier cache3 (i + 1) (LRU_insert tu req))
       else Done (cache_ck_hit, cache1)
   | cache_ck_expired => Done (cache_ck_expired, cache1)
   | cache_ck_miss => SLRU_check_from fuel n (S i) cache1 req upd
   end).
Proof. done. Qed.

(** The scan passes over the tiers that report Miss without changing
    them. *)
Lemma SLRU_check_from_skip fuel c req upd d : ∀ n i0,
  (∀ j, (i0 ≤ j < i0 + d)%nat →
     ∃ tj, tiers c !! j = Some tj ∧ fst (LRU_check tj req upd) = cache_ck_miss) →
  SLRU_check_from fuel (d + n) i0 c req upd
  = SLRU_check_from fuel n (i0 + d) c req upd.
Proof.
  induction d as [|d IH]; intros n i0 Hmiss.
  - by rewrite Nat.add_0_r.
  - destruct (Hmiss i0 ltac:(lia)) as (t0 & Ht0 & Hr0).
    change (S d + n)%nat with (S (d + n)).
    rewrite SLRU_check_from_S, (tier_eq _ _ _ Ht0). simpl.
    rewrite Hr0. rewrite LRU_check_not_hit by (by rewrite Hr0).
    rewrite set_tier_same by done.
    rewrite IH.
    + f_equal. lia.
    + intros j Hj. apply Hmiss. lia.
Qed.

(** Claim C8.  When the tiers below [i] report Miss and tier [i] reports
    Expired, [SLRU_check] returns Expired at once, whatever the fuel: the
    cache is left exactly as it was (nothing is promoted), and the outcome
    is the same whatever stands in the tiers above [i] (they are not
    consulted). *)
Theorem SLRU_check_expired_stops_scan fuel c req upd i t :
  (i < Z.to_nat (n_seg (eviction_params c)))%nat →
  tiers c !! i = Some t →
  (∀ j, (j < i)%nat →
     ∃ tj, tiers c !! j = Some tj ∧ fst (LRU_check tj req upd) = cache_ck_miss) →
  fst (LRU_check t req upd) = cache_ck_expired →
  SLRU_check fuel c req upd = Done (cache_ck_expired, c) ∧
  ∀ above,
    SLRU_check fuel (with_tiers c (take (S i) (tiers c) ++ above)) req upd
    = Done (cache_ck_expired, with_tiers c (take (S i) (tiers c) ++ above)).
Proof.
  assert (Hcore : ∀ c', (i < Z.to_nat (n_seg (eviction_params c')))%nat →
            tiers c' !! i = Some t →
            (∀ j, (j < i)%nat →
               ∃ tj, tiers c' !! j = Some tj ∧
                     fst (LRU_check tj req upd) = cache_ck_miss) →
            fst (LRU_check t req upd) = cache_ck_expired →
            SLRU_check fuel c' req upd = Done (cache_ck_expired, c')).
  { intros c' Hi Ht Hbelow Hexp. unfold SLRU.SLRU_check.
    replace (Z.to_nat (n_seg (eviction_params c')))
      with (i + S (Z.to_nat (n_seg (eviction_params c')) - S i))%nat by lia.
    rewrite SLRU_check_from_skip by (intros j Hj; apply Hbelow; lia).
    rewrite SLRU_check_from_S. simpl. rewrite (tier_eq _ _ _ Ht). simpl.
    rewrite Hexp. rewrite LRU_check_not_hit by (by rewrite Hexp).
    by rewrite set_tier_same. }
  intros Hi Ht Hbelow Hexp. split; [by apply Hcore|].
  intros above. pose proof (lookup_lt_Some _ _ _ Ht) as Hlt.
  apply Hcore; try done.
  - unfold with_tiers, tiers. simpl.
    rewrite lookup_app_l by (rewrite length_take; unfold tiers in Hlt; lia).
    rewrite lookup_take_lt by lia. exact Ht.
  - intros j Hj. destruct (Hbelow j Hj) as (tj & Htj & Hr).
    exists tj. split; [|done].
    unfold with_tiers, tiers. simpl.
    rewrite lookup_app_l by (rewrite length_take; unfold tiers in Hlt; lia).
    rewrite lookup_take_lt by lia. exact Htj.
Qed.

(** *** Promotion *)

Lemma SLRU_check_from_hit fuel n i c req upd t :
  tiers c !! i = Some t →
  fst (LRU_check t req upd) = cache_ck_hit →
  SLRU_check_from fuel (S n) i c req upd =
  if decide (Z.of_nat i ≠ n_seg (eviction_params c) - 1)
  then promote fuel (set_tier c i (snd (LRU_check t req upd))) i req
  else Done (cache_ck_hit, set_tier c i (snd (LRU_check t req upd))).
Proof.
  intros Ht Hhit. rewrite SLRU_check_from_S, (tier_eq _ _ _ Ht). simpl.
  by rewrite Hhit.
Qed.

Lemma tier_ok_check oh cap t req upd :
  tier_ok oh cap t → tier_ok oh cap (snd (LRU_check t req upd)).
Proof.
  intros Hok. unfold SLRU.LRU_check.
  destruct (List.find _ (q t)) as [o|] eqn:Hfind; [|done].
  destruct (is_expired o req); [done|]. destruct upd; [|done]. simpl.
  destruct Hok as (Hoh & Hcap & Hocc & Hpos & Hle).
  pose proof (find_Some_Forall _ _ _ _ Hfind Hpos) as Ho. simpl in Ho.
  unfold tier_ok. simpl. rewrite (used_unlink _ _ _ _ Hfind).
  repeat split; try done; try lia.
  constructor; [done|]. by apply Forall_unlink.
Qed.

Lemma absent_remove c k k' i t :
  absent c k → tiers c !! i = Some t → absent (set_tier c i (LRU_remove t k')) k.
Proof.
  intros Habs Ht. apply absent_set_tier; [done|].
  pose proof (absent_tier _ _ _ _ Habs Ht) as H0.
  unfold LRU_remove. destruct (List.find _ (q t)); [|done]. simpl.
  by apply occurrences_unlink_other.
Qed.

(** What a promotion does, whenever it returns. *)
Lemma promote_post fuel c i req r c' :
  promote fuel c i req = Done (r, c') →
  r = cache_ck_hit ∧
  ∃ t1 c3 tu,
    tiers c !! i = Some t1 ∧
    same_shape c c3 ∧
    (∀ k, absent (set_tier c i (LRU_remove t1 (req_obj_id req))) k → absent c3 k) ∧
    (wf c → wf c3) ∧
    tiers c3 !! (i + 1)%nat = Some tu ∧
    ¬ tier_full c3 tu (req_obj_size req) ∧
    c' = set_tier c3 (i + 1) (LRU_insert tu req).
Proof.
  unfold promote. intros H.
  apply bind_Done in H as (t1 & Ht1 & H). apply tier_Done in Ht1.
  apply bind_Done in H as (c3 & Hloop & H).
  apply bind_Done in H as (tu & Htu & H). apply tier_Done in Htu.
  injection H as <- <-. split; [done|].
  set (c2 := set_tier c i (LRU_remove t1 (req_obj_id req))) in *.
  set (Inv := λ s : cache_t,
         same_shape c2 s ∧ (∀ k, absent c2 k → absent s k) ∧ (wf c2 → wf s)).
  apply (while_loop_inv _ _ Inv) in Hloop as [(Hsh & Habs & Hwf) Hexit].
  2:{ intros s1 s2 (Hsh & Habs & Hwf) _ Hbody.
      apply SLRU_cool_post in Hbody
        as (tb & eb & qb & _ & _ & Hshb & _ & _ & _ & _ & Habsb & Hwfb).
      split; [by eapply same_shape_trans|].
      split; [intros k Hk; by apply Habsb, Habs|].
      intros Hw. by apply Hwfb, Hwf. }
  2:{ unfold Inv. split; [apply same_shape_refl|]. split; done. }
  apply is_full_Done in Hexit as (tu' & Htu' & Hfull).
  rewrite Htu in Htu'. injection Htu' as <-.
  symmetry in Hfull. apply bool_decide_eq_false in Hfull.
  exists t1, c3, tu. split; [done|].
  split; [eapply same_shape_trans; [apply same_shape_set_tier|exact Hsh]|].
  split; [done|].
  split.
  { intros Hw. apply Hwf. apply wf_set_tier; [done|].
    apply tier_ok_remove. by eapply wf_tier. }
  split; [done|]. split; [done|]. done.
Qed.

Lemma wf_promoted c3 tu i req :
  wf c3 → tiers c3 !! i = Some tu →
  ¬ tier_full c3 tu (req_obj_size req) →
  0 ≤ req_obj_size req + overhead c3 →
  wf (set_tier c3 i (LRU_insert tu req)).
Proof.
  intros Hwf Htu Hfit Hpos. apply wf_set_tier; [done|].
  apply tier_ok_insert; [by eapply wf_tier|done|].
  unfold tier_full in Hfit. lia.
Qed.

(** [SLRU_check] keeps the shape of the cache and its invariant. *)
Lemma SLRU_check_from_post fuel req upd n : ∀ i c r c',
  SLRU_check_from fuel n i c req upd = Done (r, c') →
  same_shape c c' ∧
  (wf c → 0 ≤ req_obj_size req + overhead c → wf c').
Proof.
  induction n as [|n IH]; intros i c r c' H.
  - injection H as <- <-. done.
  - rewrite SLRU_check_from_S in H.
    apply bind_Done in H as (t & Ht & H). apply tier_Done in Ht. simpl in H.
    assert (Hwf1 : wf c → wf (set_tier c i (snd (LRU_check t req upd)))).
    { intros Hw. apply wf_set_tier; [done|].
      apply tier_ok_check. by eapply wf_tier. }
    destruct (fst (LRU_check t req upd)) eqn:Hres.
    + case_decide.
      * apply promote_post in H
          as (_ & t1 & c3 & tu & _ & Hsh & _ & Hwf3 & Htu & Hfit & ->).
        split.
        { eapply same_shape_trans; [apply same_shape_set_tier|].
          eapply same_shape_trans; [exact Hsh|apply same_shape_set_tier]. }
        intros Hw Hpos. apply wf_promoted; try done.
        -- by apply Hwf3, Hwf1.
        -- destruct Hsh as (_ & -> & _). done.
      * injection H as <- <-. split; [apply same_shape_set_tier|]. auto.
    + apply IH in H as [Hsh Hwf].
      split; [eapply same_shape_trans; [apply same_shape_set_tier|exact Hsh]|].
      intros Hw Hpos. apply Hwf; [by apply Hwf1|done].
    + injection H as <- <-. split; [apply same_shape_set_tier|]. auto.
Qed.

(** ** The miss path of [SLRU_get] *)

Lemma sum_capacity_replicate n t :
  foldr (λ t acc, cache_size t + acc) 0 (replicate n t)
  = Z.of_nat n * cache_size t.
Proof. induction n as [|n IH]; simpl; [done|]. rewrite IH. lia. Qed.

(** [SLRU_init] keeps the requested size in the cache itself and gives
    every tier the quotient. *)
Lemma SLRU_init_sizes p n c0 :
  0 < n →
  SLRU_init p n = Done c0 →
  total_cache_size c0 = param_cache_size p ∧
  overhead c0 = param_per_obj_overhead p ∧
  n_seg (eviction_params c0) = n ∧
  Z.of_nat (length (tiers c0)) = n ∧
  Forall (λ t, cache_size t = param_cache_size p / n) (tiers c0) ∧
  sum_capacity c0 = n * (param_cache_size p / n) ∧
  sum_capacity c0 ≤ total_cache_size c0.
Proof.
  intros Hn. unfold SLRU_init. rewrite decide_False by lia.
  intros [= <-]. unfold sum_capacity, tiers. simpl.
  rewrite length_replicate, sum_capacity_replicate. simpl.
  repeat split; try done; try lia.
  - apply Forall_replicate. reflexivity.
  - rewrite Z2Nat.id by lia. by apply Z.mul_div_le.
Qed.

(** After a lookup that did not hit, [SLRU_get] compares
    [obj_size + per_obj_overhead] with the cache's own [cache_size]: above
    it the lookup result is returned at once, otherwise [SLRU_insert] is
    called on the state the lookup left. *)
Lemma SLRU_get_after_lookup fuel c req r c1 :
  SLRU_check fuel c req true = Done (r, c1) →
  r ≠ cache_ck_hit →
  (req_obj_size req + overhead c > total_cache_size c →
     SLRU_get fuel c req = Done (r, c1)) ∧
  (req_obj_size req + overhead c ≤ total_cache_size c →
     SLRU_get fuel c req = (c2 ← SLRU_insert fuel c1 req; Done (r, c2))).
Proof.
  intros Hcheck Hr.
  pose proof Hcheck as Hpost. apply SLRU_check_from_post in Hpost as [Hsh _].
  destruct Hsh as (Htot & Hoh & _).
  assert (Hnonhit : r = cache_ck_miss ∨ r = cache_ck_expired)
    by (destruct r; auto; done).
  split.
  - intros Hbig. unfold SLRU.SLRU_get. rewrite Hcheck. simpl.
    rewrite decide_True by done. rewrite Hoh, Htot.
    by rewrite decide_True by done.
  - intros Hsmall. unfold SLRU.SLRU_get. rewrite Hcheck. simpl.
    rewrite decide_True by done. rewrite Hoh, Htot.
    by rewrite decide_False by lia.
Qed.

(** ** Promotion on a hit *)

(** Under the invariant, the promotion of an object that fits a tier
    returns. *)
Lemma promote_total c i req t1 :
  wf c →
  tiers c !! i = Some t1 →
  (S i < length (tiers c))%nat →
  req_obj_size req + overhead c ≤ tier_capacity c →
  ∃ f0 c', ∀ fuel, (f0 ≤ fuel)%nat →
    promote fuel c i req = Done (cache_ck_hit, c').
Proof.
  intros Hwf Ht1 Hlen Hfits.
  set (c2 := set_tier c i (LRU_remove t1 (req_obj_id req))).
  assert (Hwf2 : wf c2).
  { apply wf_set_tier; [done|]. apply tier_ok_remove. by eapply wf_tier. }
  set (Inv := λ s : cache_t, wf s ∧ same_shape c s).
  destruct (while_loop_total
              (λ c', is_full c' (i + 1) (req_obj_size req))
              (λ f c', SLRU_cool f c' (i + 1)) Inv (tier_length (i + 1)))
    with (s := c2) as (f0 & c3 & Hloop & [Hwf3 Hsh3] & Hexit).
  { intros s [Hwfs (_ & _ & _ & Hlens)].
    destruct (lookup_lt_is_Some_2 (tiers s) (i + 1)) as [tl Htl]; [lia|].
    eexists. apply is_full_Done. eauto. }
  { intros s [Hwfs Hshs] Hfull.
    apply is_full_Done in Hfull as (tl & Htl & Hfull).
    symmetry in Hfull. apply bool_decide_eq_true in Hfull.
    pose proof (wf_tier _ _ _ Hwfs Htl) as (Hoh & Hcap & Hocc & _ & _).
    assert (Hcap_eq : tier_capacity s = tier_capacity c).
    { unfold tier_capacity. destruct Hshs as (-> & _ & -> & _). done. }
    assert (Hoh_eq : overhead s = overhead c) by (by destruct Hshs as (_ & -> & _)).
    assert (Hne : q tl ≠ []).
    { intros Hnil. rewrite Hnil in Hocc. simpl in Hocc. lia. }
    destruct (SLRU_cool_total (i + 1) s tl Hwfs Htl Hne) as (f1 & s' & Hbody).
    exists f1, s'. split; [done|].
    pose proof (Hbody f1 (le_n _)) as Hrun.
    apply SLRU_cool_post in Hrun
      as (tb & eb & qb & Htb & Hqb & Hshb & _ & Hafter & _ & _ & _ & Hwfb).
    split; [split; [by apply Hwfb|by eapply same_shape_trans]|].
    unfold tier_length. rewrite Hafter, Htb, Hqb. simpl.
    rewrite length_app. simpl. lia. }
  { split; [done|apply same_shape_set_tier]. }
  apply is_full_Done in Hexit as (tu & Htu & _).
  exists f0, (set_tier c3 (i + 1) (LRU_insert tu req)).
  intros fuel Hfuel. unfold promote. rewrite (tier_eq _ _ _ Ht1). simpl.
  fold c2. rewrite Hloop by lia. simpl. by rewrite (tier_eq _ _ _ Htu).
Qed.

(** Under the invariant, a lookup whose first non-Miss tier reports Hit
    returns Hit. *)
Lemma SLRU_check_hit_total c req upd i t :
  wf c →
  tiers c !! i = Some t →
  (∀ j tj, (j < i)%nat → tiers c !! j = Some tj →
           occurrences (req_obj_id req) (q tj) = 0%nat) →
  fst (LRU_check t req upd) = cache_ck_hit →
  req_obj_size req + overhead c ≤ tier_capacity c →
  ∃ f0 c', ∀ fuel, (f0 ≤ fuel)%nat →
    SLRU_check fuel c req upd = Done (cache_ck_hit, c').
Proof.
  intros Hwf Ht Hbelow Hhit Hfits.
  pose proof (lookup_lt_Some _ _ _ Ht) as Hlt.
  destruct Hwf as [Hlen Hall]. pose proof (conj Hlen Hall : wf c) as Hwf.
  assert (Hscan : ∀ fuel, SLRU_check fuel c req upd =
            SLRU_check_from fuel (S (length (tiers c) - S i)) i c req upd).
  { intros fuel. unfold SLRU.SLRU_check.
    rewrite <- Hlen, Nat2Z.id.
    replace (length (tiers c)) with (i + S (length (tiers c) - S i))%nat at 1
      by lia.
    rewrite SLRU_check_from_skip; [done|].
    intros j Hj. destruct (lookup_lt_is_Some_2 (tiers c) j) as [tj Htj]; [lia|].
    exists tj. split; [done|].
    rewrite LRU_check_absent; [done|]. eapply Hbelow; [|done]. lia. }
  set (c1 := set_tier c i (snd (LRU_check t req upd))).
  assert (Hwf1 : wf c1).
  { apply wf_set_tier; [done|]. apply tier_ok_check. by eapply wf_tier. }
  destruct (decide (Z.of_nat i ≠ n_seg (eviction_params c) - 1)) as [Hnot|Htop].
  - destruct (promote_total c1 i req (snd (LRU_check t req upd)))
      as (f0 & c' & Hrun); try done.
    { unfold c1. rewrite tiers_set_tier. by apply list_lookup_insert_eq. }
    { unfold c1. rewrite tiers_set_tier, length_insert. lia. }
    exists f0, c'. intros fuel Hfuel.
    rewrite Hscan, (SLRU_check_from_hit _ _ _ _ _ _ _ Ht Hhit).
    rewrite decide_True by done. by apply Hrun.
  - exists 0%nat, c1. intros fuel _.
    rewrite Hscan, (SLRU_check_from_hit _ _ _ _ _ _ _ Ht Hhit).
    by rewrite decide_False by done.
Qed.


Lemma has_id_create req :
  has_id (req_obj_id req) (create_cache_obj_from_request req) = true.
Proof. unfold has_id. by apply bool_decide_eq_true. Qed.

Lemma find_has_id_head k o l :
  has_id k o = true → List.find (has_id k) (o :: l) = Some o.
Proof. intros H. simpl. by rewrite H. Qed.



End Lookup.

(** ** The statements on the example cache *)

Lemma ex_cache_wf : wf ex_cache.
Proof.
  split; [reflexivity|].
  repeat constructor; simpl; lia.
Qed.


Lemma SLRU_cool_frees_room_witness :
  ∃ c', SLRU_cool 4 ex_full 2 = Done c' ∧
    tiers c' = [mk_lru 2 2 0 [mk_obj 4 1; mk_obj 1 1];
                mk_lru 2 2 0 [mk_obj 6 1; mk_obj 3 1];
                mk_lru 2 1 0 [mk_obj 5 1]] ∧
    cool_spec 2 ex_full c' ∧
    (∃ t', tiers c' !! 2%nat = Some t' ∧ q t' = [mk_obj 5 1] ∧
           1 + per_obj_overhead t' ≤ cache_size t' - occupied_size t') ∧
    (∃ c2 tl tl',
       repeat_while (cannot_fit 1 1) (cool_spec 1)
                    (set_tier ex_full 2 (mk_lru 2 1 0 [mk_obj 5 1])) c2 ∧
       tiers c2 !! 1%nat = Some tl ∧ ¬ tier_full c2 tl 1 ∧
       c' = set_tier c2 1 tl' ∧ q tl' = mk_obj 6 1 :: q tl).
Proof.
  destruct (SLRU_cool_frees_room ex_full 2
              (mk_lru 2 2 0 [mk_obj 5 1; mk_obj 6 1]) [mk_obj 5 1] (mk_obj 6 1))
    as [Hpost _].
  - reflexivity.
  - reflexivity.
  - repeat constructor; simpl; lia.
  - eexists. split; [vm_compute; reflexivity|].
    split; [reflexivity|].
    destruct (Hpost 4%nat _ ltac:(vm_compute; reflexivity))
      as (Hspec & t' & Ht' & Hq & Hfree & _ & Hlow).
    split; [exact Hspec|].
    split; [exists t'; split; [exact Ht'|split; [exact Hq|exact Hfree]]|].
    destruct Hlow as (c2 & tl & tl' & Hrep & Htl & Hroom & Hc' & _ & _ & Hqtl & _);
      [done|].
    assert (Ht'eq : t' = mk_lru 2 1 0 [mk_obj 5 1]).
    { vm_compute in Ht'. by injection Ht' as <-. }
    rewrite Ht'eq in Hrep.
    exists c2, tl, tl'. split; [exact Hrep|]. split; [exact Htl|].
    split; [exact Hroom|]. split; [exact Hc'|exact Hqtl].
Defined.

Lemma SLRU_insert_lowest_tier_with_room_witness :
  SLRU_insert 0 ex_cache (mk_req 7 1)
  = Done (set_tier ex_cache 2 (LRU_insert (mk_lru 2 1 0 [mk_obj 5 1]) (mk_req 7 1))) ∧
  SLRU_insert 2 ex_full (mk_req 7 1)
  = Done (set_tier ex_full 0 (mk_lru 2 2 0 [mk_obj 7 1; mk_obj 1 1])) ∧
  ∃ t0 m,
    tiers ex_full !! 0%nat = Some t0 ∧ (m ≤ length (q t0))%nat ∧
    ∀ fuel, (m < fuel)%nat →
      SLRU_insert fuel ex_full (mk_req 7 1)
      = Done (set_tier ex_full 0 (LRU_insert (evict_n m t0) (mk_req 7 1))).
Proof.
  assert (Hfull : Forall (λ t, tier_full ex_full t 1) (tiers ex_full))
    by (repeat constructor; unfold tier_full; simpl; lia).
  split; [|split].
  - destruct (SLRU_insert_lowest_tier_with_room ex_cache (mk_req 7 1) eq_refl)
      as [Hfit _].
    apply (Hfit 2%nat (mk_lru 2 1 0 [mk_obj 5 1])).
    + reflexivity.
    + unfold tier_full. simpl. lia.
    + intros j tj Hj Htj. destruct j as [|[|j]]; [| |lia];
        injection Htj as <-; unfold tier_full; simpl; lia.
  - destruct (SLRU_insert_lowest_tier_with_room ex_full (mk_req 7 1) eq_refl)
      as (_ & _ & Hevict & _).
    destruct (Hevict (mk_lru 2 2 0 [mk_obj 1 1; mk_obj 2 1]) 1%nat) as [_ Hrun].
    + exact Hfull.
    + reflexivity.
    + simpl. lia.
    + intros m' Hm'. assert (m' = 0%nat) as -> by lia.
      unfold tier_full. simpl. lia.
    + unfold tier_full. simpl. lia.
    + apply Hrun. lia.
  - destruct (SLRU_insert_lowest_tier_with_room ex_full (mk_req 7 1) eq_refl)
      as (_ & _ & _ & Htotal).
    destruct Htotal as (t0 & m & Ht0 & Hm & _ & _ & _ & Hrun).
    + split; [reflexivity|]. repeat constructor; simpl; lia.
    + simpl. lia.
    + vm_compute. congruence.
    + exact Hfull.
    + exists t0, m. split; [exact Ht0|]. split; [exact Hm|exact Hrun].
Defined.

Lemma SLRU_check_expired_stops_scan_witness :
  SLRU_check ex_expired 0 ex_cache (mk_req 4 1) true
  = Done (cache_ck_expired, ex_cache) ∧
  ∀ above,
    SLRU_check ex_expired 0
      (with_tiers ex_cache (take 2 (tiers ex_cache) ++ above)) (mk_req 4 1) true
    = Done (cache_ck_expired,
            with_tiers ex_cache (take 2 (tiers ex_cache) ++ above)).
Proof.
  apply (SLRU_check_expired_stops_scan ex_expired 0 ex_cache (mk_req 4 1) true
           1 (mk_lru 2 2 0 [mk_obj 3 1; mk_obj 4 1])).
  - simpl. lia.
  - reflexivity.
  - intros j Hj. assert (j = 0%nat) as -> by lia.
    eexists. split; reflexivity.
  - reflexivity.
Defined.

(** ** The other entry points of the policy *)

Lemma SLRU_evict_post c c' :
  SLRU_evict c = Done c' →
  ∃ t e q', tiers c !! 0%nat = Some t ∧ q t = q' ++ [e] ∧
            c' = set_tier c 0 (evicted t e q').
Proof.
  unfold SLRU_evict, cache_evict_LRU. intros H.
  apply bind_Done in H as (t & Ht & H). apply tier_Done in Ht.
  apply bind_Done in H as (t' & H & [= <-]).
  apply bind_Done in H as ([e t''] & He & [= <-]).
  apply LRU_evict_Done in He as (q' & Hq & ->). simpl. eauto 10.
Qed.

Lemma SLRU_evict_keeps c c' :
  SLRU_evict c = Done c' →
  same_shape c c' ∧ (wf c → wf c') ∧ (∀ k, absent c k → absent c' k).
Proof.
  intros H. apply SLRU_evict_post in H as (t & e & q' & Ht & Hq & ->).
  split; [apply same_shape_set_tier|]. split.
  - intros Hwf. apply wf_set_tier; [done|].
    by apply (tier_ok_evicted _ _ t e q'); [eapply wf_tier|].
  - intros k Hk. apply absent_set_tier; [done|]. simpl.
    pose proof (absent_tier _ _ _ _ Hk Ht) as Ho. rewrite Hq in Ho.
    by apply occurrences_snoc_zero in Ho as [? _].
Qed.

(** Whenever [SLRU_insert] returns, it has put the object into a tier that
    had room for it, either of the cache as it was or (tier 0) of the cache
    after evictions from tier 0. *)
Lemma SLRU_insert_from_post fuel req n : ∀ i0 c c',
  SLRU_insert_from fuel n i0 c req = Done c' →
  (c' = c ∧ Z.of_nat (i0 + n) ≠ n_seg (eviction_params c)) ∨
  ∃ c0 i t,
    same_shape c c0 ∧ (wf c → wf c0) ∧ (∀ k, absent c k → absent c0 k) ∧
    tiers c0 !! i = Some t ∧
    ¬ tier_full c0 t (req_obj_size req) ∧
    c' = set_tier c0 i (LRU_insert t req) ∧
    (c0 = c ∨ i = 0%nat).
Proof.
  induction n as [|n IH]; intros i0 c c' H; simpl in H.
  - case_decide as Hi; [|injection H as <-; left; split; [done|lia]].
    right.
    apply bind_Done in H as (c1 & Hloop & H).
    apply bind_Done in H as (t0 & Ht0 & [= <-]). apply tier_Done in Ht0.
    apply (while_loop_inv _ _
             (λ s, same_shape c s ∧ (wf c → wf s) ∧
                   (∀ k, absent c k → absent s k))) in Hloop
      as [(Hsh & Hwf & Habs) Hcond].
    + apply is_full_Done in Hcond as (t & Ht & Hb).
      rewrite Ht0 in Ht. injection Ht as <-.
      symmetry in Hb. apply bool_decide_eq_false in Hb.
      exists c1, 0%nat, t0. split; [done|]. split; [done|]. split; [done|].
      split; [done|]. split; [done|]. split; [done|]. by right.
    + intros s1 s2 (Hsh & Hwf & Habs) _ Hev.
      apply SLRU_evict_keeps in Hev as (Hsh' & Hwf' & Habs').
      split; [by eapply same_shape_trans|]. split; auto.
    + split; [apply same_shape_refl|]. auto.
  - apply bind_Done in H as (full & Hfull & H).
    destruct full.
    + apply IH in H as [[-> Hne]|H]; [left; split; [done|lia]|by right].
    + apply bind_Done in H as (t & Ht & [= <-]). apply tier_Done in Ht.
      apply is_full_Done in Hfull as (t' & Ht' & Hb).
      rewrite Ht in Ht'. injection Ht' as <-.
      symmetry in Hb. apply bool_decide_eq_false in Hb.
      right. exists c, i0, t. split; [apply same_shape_refl|].
      split; [done|]. split; [done|]. split; [done|]. split; [done|].
      split; [done|]. by left.
Qed.

Lemma SLRU_insert_post fuel c req c' :
  Z.of_nat (length (tiers c)) = n_seg (eviction_params c) →
  SLRU_insert fuel c req = Done c' →
  ∃ c0 i t,
    same_shape c c0 ∧ (wf c → wf c0) ∧ (∀ k, absent c k → absent c0 k) ∧
    tiers c0 !! i = Some t ∧
    ¬ tier_full c0 t (req_obj_size req) ∧
    c' = set_tier c0 i (LRU_insert t req) ∧
    (c0 = c ∨ i = 0%nat).
Proof.
  intros Hlen H. unfold SLRU_insert in H.
  apply SLRU_insert_from_post in H as [[_ Hne]|H]; [lia|done].
Qed.

Lemma SLRU_insert_keeps fuel c req c' :
  wf c → 0 ≤ req_obj_size req + overhead c →
  SLRU_insert fuel c req = Done c' →
  wf c' ∧ same_shape c c'.
Proof.
  intros Hwf Hpos H. pose proof Hwf as [Hlen _].
  apply SLRU_insert_post in H
    as (c0 & i & t & Hsh & Hwf0 & _ & Ht & Hfit & -> & _); [|done].
  split.
  - apply wf_promoted; auto. destruct Hsh as (_ & -> & _). done.
  - eapply same_shape_trans; [exact Hsh|apply same_shape_set_tier].
Qed.

(** The two calls [SLRU_remove] makes for a found object are the tier's
    own removal by id. *)
Lemma remove_base_eq t o k :
  List.find (has_id k) (q t) = Some o →
  cache_remove_obj_base (remove_obj_from_list t o) o = LRU_remove t k.
Proof.
  intros Hfind. unfold cache_remove_obj_base, remove_obj_from_list, LRU_remove.
  rewrite Hfind. simpl. by rewrite (find_Some_id _ _ _ Hfind).
Qed.

Lemma SLRU_remove_from_absent k c n : ∀ i obj,
  (∀ j, (i ≤ j < i + n)%nat →
     ∃ t, tiers c !! j = Some t ∧ occurrences k (q t) = 0%nat) →
  (n ≠ 0%nat ∨ obj ≠ None) →
  SLRU_remove_from n i c k obj = Done c.
Proof.
  induction n as [|n IH]; intros i obj Hall Hn; simpl.
  - destruct Hn as [|Hn]; [done|]. by destruct obj.
  - destruct (Hall i) as (t & Ht & Ho); [lia|].
    rewrite (tier_eq _ _ _ Ht). simpl.
    unfold cache_get_obj_by_id.
    apply find_None_occurrences in Ho. rewrite Ho.
    apply IH; [|by right]. intros j Hj. apply Hall. lia.
Qed.

Lemma SLRU_remove_from_found k c t d : ∀ n i obj,
  (d < n)%nat →
  (∀ j, (i ≤ j < i + d)%nat →
     ∃ tj, tiers c !! j = Some tj ∧ occurrences k (q tj) = 0%nat) →
  tiers c !! (i + d)%nat = Some t →
  occurrences k (q t) ≠ 0%nat →
  SLRU_remove_from n i c k obj = Done (set_tier c (i + d) (LRU_remove t k)).
Proof.
  induction d as [|d IH]; intros n i obj Hd Hall Ht Ho;
    (destruct n as [|n]; [lia|]); simpl.
  - rewrite Nat.add_0_r in *. rewrite (tier_eq _ _ _ Ht). simpl.
    unfold cache_get_obj_by_id.
    destruct (List.find (has_id k) (q t)) as [o|] eqn:Hfind.
    + by rewrite (remove_base_eq _ _ _ Hfind).
    + by apply find_None_occurrences in Hfind.
  - destruct (Hall i) as (ti & Hti & Hoi); [lia|].
    rewrite (tier_eq _ _ _ Hti). simpl.
    unfold cache_get_obj_by_id.
    apply find_None_occurrences in Hoi. rewrite Hoi.
    replace (i + S d)%nat with (S i + d)%nat in * by lia.
    apply IH; [lia| |done|done]. intros j Hj. apply Hall. lia.
Qed.

Lemma SLRU_remove_from_post k c c' n : ∀ i obj,
  SLRU_remove_from n i c k obj = Done c' →
  c' = c ∨ ∃ j t, tiers c !! j = Some t ∧ c' = set_tier c j (LRU_remove t k).
Proof.
  induction n as [|n IH]; intros i obj H; simpl in H.
  - destruct obj; [|done]. injection H as <-. by left.
  - apply bind_Done in H as (t & Ht & H). apply tier_Done in Ht.
    unfold cache_get_obj_by_id in H.
    destruct (List.find (has_id k) (q t)) as [o|] eqn:Hfind.
    + injection H as <-. rewrite (remove_base_eq _ _ _ Hfind). right. eauto.
    + by eapply IH.
Qed.

Lemma SLRU_remove_keeps c k c' :
  SLRU_remove c k = Done c' →
  same_shape c c' ∧ (wf c → wf c') ∧ (∀ k', absent c k' → absent c' k').
Proof.
  intros H. apply SLRU_remove_from_post in H as [->|(j & t & Ht & ->)].
  - split; [apply same_shape_refl|]. auto.
  - split; [apply same_shape_set_tier|]. split.
    + intros Hwf. apply wf_set_tier; [done|].
      apply tier_ok_remove. by eapply wf_tier.
    + intros k' Hk'. by apply absent_remove.
Qed.

Lemma sum_occupied_le c : wf c → sum_occupied c ≤ sum_capacity c.
Proof.
  intros [_ Hall]. unfold sum_occupied, sum_capacity.
  induction Hall as [|t l (_ & _ & _ & _ & Hle) _ IH]; simpl; lia.
Qed.

Lemma tier_set_tier_eq c i t x :
  tiers c !! i = Some t → tier (set_tier c i x) i = Done x.
Proof.
  intros Ht. apply tier_eq. rewrite tiers_set_tier.
  apply list_lookup_insert_eq. by eapply lookup_lt_Some.
Qed.

Lemma set_tier_set_tier c i x y :
  set_tier (set_tier c i x) i y = set_tier c i y.
Proof. unfold set_tier. simpl. by rewrite list_insert_insert_eq. Qed.

Lemma tier_capacity_same_shape c c' :
  same_shape c c' → tier_capacity c' = tier_capacity c.
Proof. intros (Ht & _ & Hn & _). unfold tier_capacity. by rewrite Ht, Hn. Qed.

(** Taking out again what has just been put in. *)
Lemma LRU_remove_insert t req :
  LRU_remove (LRU_insert t req) (req_obj_id req) = t.
Proof.
  unfold LRU_remove, LRU_insert. cbn [q].
  rewrite (find_has_id_head _ _ _ (has_id_create req)).
  cbn [unlink]. rewrite has_id_create.
  destruct t as [cs occ oh l]. cbn. f_equal. lia.
Qed.

Lemma SLRU_remove_after_insert c i t req :
  Z.of_nat (length (tiers c)) = n_seg (eviction_params c) →
  absent c (req_obj_id req) →
  tiers c !! i = Some t →
  SLRU_remove (set_tier c i (LRU_insert t req)) (req_obj_id req) = Done c.
Proof.
  intros Hlen Habs Ht. pose proof (lookup_lt_Some _ _ _ Ht) as Hi.
  unfold SLRU_remove.
  rewrite (SLRU_remove_from_found (req_obj_id req) _ (LRU_insert t req) i
             _ 0 None).
  - simpl. rewrite LRU_remove_insert, set_tier_set_tier.
    by rewrite set_tier_same.
  - simpl. lia.
  - intros j Hj. rewrite tiers_set_tier, list_lookup_insert_ne by lia.
    destruct (lookup_lt_is_Some_2 (tiers c) j) as [tj Htj]; [lia|].
    exists tj. split; [done|]. by eapply absent_tier.
  - simpl. rewrite tiers_set_tier. by apply list_lookup_insert_eq.
  - simpl. rewrite has_id_create. done.
Qed.

(** Property X8.  [SLRU_init] with [n_seg > 0] tiers builds a cache that
    satisfies the invariant: [n_seg] empty tiers of [cache_size / n_seg]
    bytes each, no id resident, and [cache_size mod n_seg] bytes of the
    requested size given to no tier; with [n_seg = 0] the division is
    undefined. *)
Theorem SLRU_init_builds_empty_tiers p n :
  SLRU_init p 0 = Undefined ∧
  (0 < n → 0 ≤ param_cache_size p →
   ∃ c0, SLRU_init p n = Done c0 ∧
         wf c0 ∧
         Z.of_nat (length (tiers c0)) = n ∧
         Forall (λ t, q t = [] ∧ occupied_size t = 0 ∧
                      cache_size t = param_cache_size p / n) (tiers c0) ∧
         (∀ k, absent c0 k) ∧
         total_cache_size c0 = param_cache_size p ∧
         sum_capacity c0 = param_cache_size p - param_cache_size p mod n).
Proof.
  split; [done|]. intros Hn Hsize.
  unfold SLRU_init. rewrite decide_False by lia.
  eexists. split; [reflexivity|].
  unfold wf, absent, sum_capacity, tier_capacity, tiers. cbn.
  rewrite length_replicate, sum_capacity_replicate, Z2Nat.id by lia. cbn.
  split.
  { split; [done|]. apply Forall_replicate.
    unfold tier_ok. cbn. split; [done|]. split; [done|]. split; [done|].
    split; [constructor|]. by apply Z.div_pos. }
  split; [done|].
  split; [by apply Forall_replicate|].
  split; [intros k; by apply Forall_replicate|].
  split; [done|].
  rewrite Z.mod_eq by lia. lia.
Qed.

Lemma SLRU_init_builds_empty_tiers_witness :
  ∃ c0, SLRU_init (mk_common 10 0) 3 = Done c0 ∧
        wf c0 ∧
        Z.of_nat (length (tiers c0)) = 3 ∧
        Forall (λ t, q t = [] ∧ occupied_size t = 0 ∧ cache_size t = 10 / 3)
               (tiers c0) ∧
        (∀ k, absent c0 k) ∧
        total_cache_size c0 = 10 ∧
        sum_capacity c0 = 10 - 10 mod 3.
Proof.
  apply (SLRU_init_builds_empty_tiers (mk_common 10 0) 3); simpl; lia.
Defined.

(** Property X15.  [SLRU_to_evict] and [SLRU_evict] look at tier 0 only:
    the object [to_evict] names is the one [evict] takes, which leaves the
    other tiers as they are and keeps the invariant; when tier 0 is empty
    [to_evict] returns [NULL] and [evict] has nothing defined to do, whatever
    the upper tiers hold. *)
Theorem SLRU_evict_takes_to_evict c :
  (∀ e, SLRU_to_evict c = Done (Some e) →
     ∃ t q', tiers c !! 0%nat = Some t ∧ q t = q' ++ [e] ∧
             SLRU_evict c = Done (set_tier c 0 (evicted t e q')) ∧
             (wf c → wf (set_tier c 0 (evicted t e q')))) ∧
  (SLRU_to_evict c = Done None → SLRU_evict c = Undefined) ∧
  (∀ c', SLRU_evict c = Done c' →
     (∃ e, SLRU_to_evict c = Done (Some e)) ∧
     ∀ j, (0 < j)%nat → tiers c' !! j = tiers c !! j).
Proof.
  unfold SLRU_to_evict, LRU_to_evict. split; [|split].
  - intros e H. apply bind_Done in H as (t & Ht & [= Hlast]).
    apply tier_Done in Ht. apply last_Some in Hlast as [q' Hq].
    exists t, q'. split; [done|]. split; [done|].
    split.
    + unfold SLRU_evict, cache_evict_LRU. rewrite (tier_eq _ _ _ Ht). simpl.
      by rewrite (LRU_evict_snoc _ _ _ Hq).
    + intros Hwf. apply wf_set_tier; [done|].
      by apply (tier_ok_evicted _ _ t e q'); [eapply wf_tier|].
  - intros H. apply bind_Done in H as (t & Ht & [= Hlast]).
    unfold SLRU_evict, cache_evict_LRU, LRU_evict. rewrite Ht. simpl.
    by rewrite Hlast.
  - intros c' H. apply SLRU_evict_post in H as (t & e & q' & Ht & Hq & ->).
    split.
    + exists e. rewrite (tier_eq _ _ _ Ht). simpl. rewrite Hq.
      by rewrite last_snoc.
    + intros j Hj. rewrite tiers_set_tier. apply list_lookup_insert_ne. lia.
Qed.

(** Property X13.  [SLRU_remove] takes the id out of the lowest tier that
    holds it, one object, and leaves the other tiers alone; when no tier
    holds the id the cache is unchanged; and with no tier to scan the test
    behind the loop reads a variable that was never assigned. *)
Theorem SLRU_remove_first_match c k :
  (n_seg (eviction_params c) ≤ 0 → SLRU_remove c k = Undefined) ∧
  (Z.of_nat (length (tiers c)) = n_seg (eviction_params c) →
   (0 < n_seg (eviction_params c) → absent c k → SLRU_remove c k = Done c) ∧
   (∀ i t,
      tiers c !! i = Some t →
      occurrences k (q t) ≠ 0%nat →
      (∀ j tj, (j < i)%nat → tiers c !! j = Some tj →
               occurrences k (q tj) = 0%nat) →
      SLRU_remove c k = Done (set_tier c i (LRU_remove t k)) ∧
      occurrences k (q (LRU_remove t k)) = pred (occurrences k (q t)) ∧
      (wf c → wf (set_tier c i (LRU_remove t k))))).
Proof.
  split.
  { intros Hn. unfold SLRU_remove.
    replace (Z.to_nat (n_seg (eviction_params c))) with 0%nat by lia. done. }
  intros Hlen. unfold SLRU_remove. split.
  - intros Hn Habs. apply SLRU_remove_from_absent; [|left; lia].
    intros j Hj.
    destruct (lookup_lt_is_Some_2 (tiers c) j) as [tj Htj]; [lia|].
    exists tj. split; [done|]. by eapply absent_tier.
  - intros i t Ht Ho Hlow. pose proof (lookup_lt_Some _ _ _ Ht) as Hi.
    split; [|split].
    + apply (SLRU_remove_from_found k c t i _ 0%nat None); [lia| |done|done].
      intros j Hj.
      destruct (lookup_lt_is_Some_2 (tiers c) j) as [tj Htj]; [lia|].
      exists tj. split; [done|]. apply (Hlow j); [lia|done].
    + unfold LRU_remove.
      destruct (List.find (has_id k) (q t)) eqn:Hfind.
      * simpl. apply occurrences_unlink.
      * by apply find_None_occurrences in Hfind.
    + intros Hwf. apply wf_set_tier; [done|].
      apply tier_ok_remove. by eapply wf_tier.
Qed.

Lemma sum_capacity_wf c :
  wf c → sum_capacity c = n_seg (eviction_params c) * tier_capacity c.
Proof.
  intros [Hlen Hall]. unfold sum_capacity. rewrite <- Hlen.
  assert (Hcap : Forall (λ t, cache_size t = tier_capacity c) (tiers c)).
  { eapply Forall_impl; [exact Hall|]. by intros t (_ & ? & _). }
  clear Hlen Hall. induction Hcap as [|t l Ht _ IH]; simpl; [lia|].
  rewrite IH, Ht. lia.
Qed.

Lemma tier_capacity_nonneg c :
  wf c → 0 < n_seg (eviction_params c) → 0 ≤ tier_capacity c.
Proof.
  intros Hwf Hn. pose proof Hwf as [Hlen _].
  destruct (lookup_lt_is_Some_2 (tiers c) 0) as [t0 Ht0]; [lia|].
  pose proof (wf_tier _ _ _ Hwf Ht0) as (_ & Hcap & Hocc & Hnn & Hle).
  apply used_nonneg in Hnn. lia.
Qed.

(** An object above the budget of a tier finds no tier with room, in the
    cache as it is or after evictions: [SLRU_insert] does not return. *)
Lemma SLRU_insert_oversize fuel c req c' :
  wf c →
  tier_capacity c < req_obj_size req + overhead c →
  SLRU_insert fuel c req ≠ Done c'.
Proof.
  intros Hwf Hbig H. pose proof Hwf as [Hlen _].
  apply SLRU_insert_post in H
    as (c0 & i & t & Hsh & Hwf0 & _ & Ht & Hfit & _); [|done].
  pose proof (wf_tier _ _ _ (Hwf0 Hwf) Ht) as (_ & Hcap & Hocc & Hpos & _).
  apply used_nonneg in Hpos.
  rewrite (tier_capacity_same_shape _ _ Hsh) in Hcap.
  destruct Hsh as (_ & Hoh & _).
  unfold tier_full in Hfit. lia.
Qed.

Section Calls.

Variable is_expired : cache_obj_t → request_t → bool.

Abbreviation LRU_check := (SLRU.LRU_check is_expired).
Abbreviation SLRU_check_from := (SLRU.SLRU_check_from is_expired).
Abbreviation SLRU_check := (SLRU.SLRU_check is_expired).
Abbreviation SLRU_get := (SLRU.SLRU_get is_expired).
Abbreviation step := (SLRU.step is_expired).
Abbreviation run := (SLRU.run is_expired).

Lemma SLRU_get_keeps fuel c req r c' :
  wf c → 0 ≤ req_obj_size req + overhead c →
  SLRU_get fuel c req = Done (r, c') →
  wf c' ∧ same_shape c c'.
Proof.
  intros Hwf Hpos H. unfold SLRU.SLRU_get in H.
  apply bind_Done in H as ([r1 c1] & Hck & H). simpl in H.
  apply SLRU_check_from_post in Hck as [Hsh Hwf1].
  specialize (Hwf1 Hwf Hpos).
  repeat case_decide; try (injection H as <- <-; done).
  apply bind_Done in H as (c2 & Hins & [= <- <-]).
  apply SLRU_insert_keeps in Hins as [Hwf2 Hsh2]; [|done|].
  - split; [done|]. by eapply same_shape_trans.
  - destruct Hsh as (_ & -> & _). done.
Qed.

Lemma step_keeps fuel c o c' :
  wf c → size_ok (overhead c) o →
  step fuel c o = Done c' →
  wf c' ∧ same_shape c c'.
Proof.
  intros Hwf Hok H. destruct o as [req upd|req|req| |k]; simpl in H, Hok.
  - apply bind_Done in H as ([r c1] & Hck & [= <-]).
    apply SLRU_check_from_post in Hck as [Hsh Hwf1]. auto.
  - apply bind_Done in H as ([r c1] & Hget & [= <-]).
    by eapply SLRU_get_keeps.
  - by eapply SLRU_insert_keeps.
  - apply SLRU_evict_keeps in H as (? & ? & _). auto.
  - apply SLRU_remove_keeps in H as (? & ? & _). auto.
Qed.

(** Property X9.  From a cache that satisfies the invariant ([n_seg]
    tiers of equal budget, each with exact accounting and not over its
    budget), every sequence of [check], [get], [insert], [evict] and
    [remove] calls that runs to its end leaves a cache that satisfies it
    again, with the same sizes and number of tiers; in particular the bytes
    in use never exceed the sum of the tiers' budgets. *)
Theorem run_keeps_cache_invariant fuel ops : ∀ c c',
  wf c →
  Forall (size_ok (overhead c)) ops →
  run fuel c ops = Done c' →
  wf c' ∧ same_shape c c' ∧ sum_occupied c' ≤ sum_capacity c'.
Proof.
  induction ops as [|o ops IH]; intros c c' Hwf Hok H; simpl in H.
  - injection H as <-.
    split; [done|]. split; [apply same_shape_refl|by apply sum_occupied_le].
  - apply bind_Done in H as (c1 & Hstep & H).
    apply Forall_cons in Hok as [Ho Hok].
    apply step_keeps in Hstep as [Hwf1 Hsh1]; [|done|done].
    destruct (IH c1 c' Hwf1) as (Hwf' & Hsh' & Hle); [|done|].
    { destruct Hsh1 as (_ & -> & _). done. }
    split; [done|]. split; [by eapply same_shape_trans|done].
Qed.

Lemma LRU_check_miss_occurrences t req upd :
  fst (LRU_check t req upd) = cache_ck_miss ↔
  occurrences (req_obj_id req) (q t) = 0%nat.
Proof.
  rewrite <- find_None_occurrences. unfold SLRU.LRU_check.
  destruct (List.find _ (q t)) as [o|]; [|done].
  destruct (is_expired o req); simpl; split; done.
Qed.

Lemma SLRU_check_from_miss fuel req upd n : ∀ i c c',
  SLRU_check_from fuel n i c req upd = Done (cache_ck_miss, c') →
  c' = c ∧
  ∀ j, (i ≤ j < i + n)%nat →
    ∃ t, tiers c !! j = Some t ∧ occurrences (req_obj_id req) (q t) = 0%nat.
Proof.
  induction n as [|n IH]; intros i c c' H.
  - injection H as <-. split; [done|]. intros j Hj. lia.
  - rewrite SLRU_check_from_S in H.
    apply bind_Done in H as (t & Ht & H). apply tier_Done in Ht. simpl in H.
    destruct (fst (LRU_check t req upd)) eqn:Hres.
    + case_decide; [|done]. by apply promote_post in H as [[=] _].
    + rewrite LRU_check_not_hit, (set_tier_same _ _ _ Ht) in H
        by (rewrite Hres; done).
      apply IH in H as [-> Hall]. split; [done|].
      intros j Hj. destruct (decide (j = i)) as [->|Hne].
      * exists t. split; [done|]. by eapply LRU_check_miss_occurrences.
      * apply Hall. lia.
    + done.
Qed.

Lemma SLRU_check_absent c req fuel upd :
  Z.of_nat (length (tiers c)) = n_seg (eviction_params c) →
  absent c (req_obj_id req) →
  SLRU_check fuel c req upd = Done (cache_ck_miss, c).
Proof.
  intros Hlen Habs. unfold SLRU.SLRU_check.
  replace (Z.to_nat (n_seg (eviction_params c)))
    with (length (tiers c) + 0)%nat by lia.
  rewrite SLRU_check_from_skip; [done|].
  intros j Hj.
  destruct (lookup_lt_is_Some_2 (tiers c) j) as [tj Htj]; [lia|].
  exists tj. split; [done|].
  rewrite LRU_check_absent; [done|]. by eapply absent_tier.
Qed.

(** Property X10.  [SLRU_check] returns Miss exactly when no tier holds
    the id, and then it leaves the cache as it was, for either value of
    [update_cache]. *)
Theorem SLRU_check_miss_iff_absent c req :
  Z.of_nat (length (tiers c)) = n_seg (eviction_params c) →
  (absent c (req_obj_id req) →
   ∀ fuel upd, SLRU_check fuel c req upd = Done (cache_ck_miss, c)) ∧
  (∀ fuel upd c',
     SLRU_check fuel c req upd = Done (cache_ck_miss, c') →
     c' = c ∧ absent c (req_obj_id req)).
Proof.
  intros Hlen. split.
  - intros Habs fuel upd. by apply SLRU_check_absent.
  - intros fuel upd c' H. unfold SLRU.SLRU_check in H.
    apply SLRU_check_from_miss in H as [-> Hall].
    split; [done|]. apply Forall_lookup. intros j t Ht.
    destruct (Hall j) as (t' & Ht' & Ho).
    { pose proof (lookup_lt_Some _ _ _ Ht). lia. }
    rewrite Ht in Ht'. by injection Ht' as <-.
Qed.

(** The outcome of the tier's check does not depend on [update_cache], and
    the removal that follows a hit undoes the recency update. *)
Lemma LRU_check_fst_flag t req :
  fst (LRU_check t req true) = fst (LRU_check t req false).
Proof.
  unfold SLRU.LRU_check. destruct (List.find _ (q t)) as [o|]; [|done].
  by destruct (is_expired o req).
Qed.

Lemma LRU_remove_after_check t req :
  LRU_remove (snd (LRU_check t req true)) (req_obj_id req)
  = LRU_remove (snd (LRU_check t req false)) (req_obj_id req).
Proof.
  unfold SLRU.LRU_check.
  destruct (List.find _ (q t)) as [o|] eqn:Hfind; [|done].
  destruct (is_expired o req); [done|]. cbn [snd].
  assert (Ho : has_id (req_obj_id req) o = true).
  { apply find_some in Hfind as [_ Ho]. done. }
  unfold LRU_remove. cbn [q cache_size occupied_size per_obj_overhead].
  rewrite (find_has_id_head _ _ _ Ho), Hfind. cbn [unlink]. by rewrite Ho.
Qed.

Lemma SLRU_check_from_flag fuel c req n : ∀ i,
  (∀ t, tiers c !! Z.to_nat (n_seg (eviction_params c) - 1) = Some t →
        occurrences (req_obj_id req) (q t) = 0%nat) →
  SLRU_check_from fuel n i c req true = SLRU_check_from fuel n i c req false.
Proof.
  intros i Htop. revert i. induction n as [|n IH]; intros i; [done|].
  rewrite !SLRU_check_from_S.
  destruct (tiers c !! i) as [t|] eqn:Ht; last first.
  { unfold tier, tiers in *. by rewrite Ht. }
  rewrite (tier_eq _ _ _ Ht). cbn [mbind outcome_bind]. cbv zeta.
  rewrite LRU_check_fst_flag.
  destruct (fst (LRU_check t req false)) eqn:Hres.
  - case_decide as Hi.
    + rewrite !(tier_set_tier_eq _ _ _ _ Ht). cbn [mbind outcome_bind].
      by rewrite !set_tier_set_tier, LRU_remove_after_check.
    + assert (i = Z.to_nat (n_seg (eviction_params c) - 1)) as -> by lia.
      apply Htop, (LRU_check_miss_occurrences _ _ false) in Ht. congruence.
  - rewrite !LRU_check_not_hit, (set_tier_same _ _ _ Ht)
      by (rewrite ?LRU_check_fst_flag, Hres; done).
    apply IH.
  - by rewrite !LRU_check_not_hit
      by (rewrite ?LRU_check_fst_flag, Hres; done).
Qed.

(** Property X11.  [update_cache] only matters for a hit in the top
    tier: when the top tier does not hold the id, [SLRU_check] with
    [update_cache = false] does exactly what it does with [true], so a hit
    below the top tier promotes the object (and cools others) in a call
    that asked for no update. *)
Theorem SLRU_check_flag_only_matters_at_top fuel c req :
  (∀ t, tiers c !! Z.to_nat (n_seg (eviction_params c) - 1) = Some t →
        occurrences (req_obj_id req) (q t) = 0%nat) →
  SLRU_check fuel c req false = SLRU_check fuel c req true.
Proof.
  intros Htop. unfold SLRU.SLRU_check. symmetry. by apply SLRU_check_from_flag.
Qed.

(** Property X12.  A hit in the top tier moves nothing between tiers:
    without [update_cache] the cache is unchanged, with it the object found
    moves to the MRU end of the top tier and nothing else changes. *)
Theorem SLRU_check_top_tier_hit fuel c req i t o :
  Z.of_nat (length (tiers c)) = n_seg (eviction_params c) →
  Z.of_nat i = n_seg (eviction_params c) - 1 →
  tiers c !! i = Some t →
  (∀ j tj, (j < i)%nat → tiers c !! j = Some tj →
           occurrences (req_obj_id req) (q tj) = 0%nat) →
  List.find (has_id (req_obj_id req)) (q t) = Some o →
  is_expired o req = false →
  SLRU_check fuel c req false = Done (cache_ck_hit, c) ∧
  SLRU_check fuel c req true
  = Done (cache_ck_hit,
          set_tier c i
            (mk_lru (cache_size t) (occupied_size t) (per_obj_overhead t)
                    (o :: unlink (req_obj_id req) (q t)))).
Proof.
  intros Hlen Hi Ht Hlow Hfind Hexp.
  assert (Hck : ∀ upd, LRU_check t req upd
                = (cache_ck_hit,
                   if upd
                   then mk_lru (cache_size t) (occupied_size t)
                               (per_obj_overhead t)
                               (o :: unlink (req_obj_id req) (q t))
                   else t)).
  { intros upd. unfold SLRU.LRU_check. by rewrite Hfind, Hexp. }
  assert (Hgo : ∀ upd, SLRU_check fuel c req upd
                = Done (cache_ck_hit, set_tier c i (snd (LRU_check t req upd)))).
  { intros upd. unfold SLRU.SLRU_check.
    replace (Z.to_nat (n_seg (eviction_params c))) with (i + 1)%nat by lia.
    rewrite SLRU_check_from_skip.
    - rewrite (SLRU_check_from_hit _ _ _ _ _ _ _ _ Ht) by (by rewrite Hck).
      by rewrite decide_False by lia.
    - intros j Hj.
      destruct (lookup_lt_is_Some_2 (tiers c) j) as [tj Htj].
      { pose proof (lookup_lt_Some _ _ _ Ht). lia. }
      exists tj. split; [done|].
      rewrite LRU_check_absent; [done|]. apply (Hlow j); [lia|done]. }
  rewrite !Hgo, !Hck. cbn [snd]. by rewrite set_tier_same.
Qed.

(** Property X14.  An insertion of an id that no tier holds, followed by
    the removal of that id, leaves the id in no tier, so that a lookup
    misses; and when some tier had room for the object the two calls
    together leave the cache exactly as it was. *)
Theorem SLRU_insert_then_remove fuel c req c1 :
  wf c →
  absent c (req_obj_id req) →
  SLRU_insert fuel c req = Done c1 →
  ∃ c2,
    SLRU_remove c1 (req_obj_id req) = Done c2 ∧
    wf c2 ∧
    absent c2 (req_obj_id req) ∧
    (∀ fuel' upd, SLRU_check fuel' c2 req upd = Done (cache_ck_miss, c2)) ∧
    (Exists (λ t, ¬ tier_full c t (req_obj_size req)) (tiers c) → c2 = c).
Proof.
  intros Hwf Habs Hins. pose proof Hwf as [Hlen _].
  pose proof Hins as Hpost.
  apply SLRU_insert_post in Hpost
    as (c0 & i & t & Hsh & Hwf0 & Habs0 & Ht & Hfit & -> & Hc0); [|done].
  specialize (Hwf0 Hwf). specialize (Habs0 _ Habs).
  pose proof Hwf0 as [Hlen0 _].
  exists c0. split; [by apply SLRU_remove_after_insert|].
  split; [done|]. split; [done|].
  split.
  { intros fuel' upd.
    by apply SLRU_check_absent. }
  intros Hroom.
  assert (∃ j tj, tiers c !! j = Some tj ∧
                  ¬ tier_full c tj (req_obj_size req) ∧
                  ∀ j' tj', (j' < j)%nat → tiers c !! j' = Some tj' →
                            tier_full c tj' (req_obj_size req))
    as (j & tj & Htj & Hfitj & Hlow).
  { clear -Hroom. induction (tiers c) as [|x l IH] using rev_ind.
    - by apply Exists_nil in Hroom.
    - apply Exists_app in Hroom as [Hroom|Hroom].
      + destruct (IH Hroom) as (j & tj & Htj & Hfitj & Hlow).
        pose proof (lookup_lt_Some _ _ _ Htj).
        exists j, tj. rewrite lookup_app_l by done. split; [done|].
        split; [done|]. intros j' tj' Hj'. rewrite lookup_app_l by lia.
        by apply Hlow.
      + apply Exists_cons in Hroom as [Hx|Hroom];
          [|by apply Exists_nil in Hroom].
        destruct (decide (Exists (λ t, ¬ tier_full c t (req_obj_size req)) l))
          as [Hl|Hl].
        * destruct (IH Hl) as (j & tj & Htj & Hfitj & Hlow).
          pose proof (lookup_lt_Some _ _ _ Htj).
          exists j, tj. rewrite lookup_app_l by done. split; [done|].
          split; [done|]. intros j' tj' Hj'. rewrite lookup_app_l by lia.
          by apply Hlow.
        * exists (length l), x. rewrite list_lookup_middle by done.
          split; [done|]. split; [done|]. intros j' tj' Hj'.
          rewrite lookup_app_l by done. intros Hl'.
          destruct (decide (tier_full c tj' (req_obj_size req))); [done|].
          destruct Hl. apply Exists_exists. exists tj'.
          split; [|done]. apply list_elem_of_lookup. eauto. }
  unfold SLRU_insert in Hins.
  rewrite (SLRU_insert_from_fit fuel c req _ 0 j tj) in Hins.
  - assert (Heq : set_tier c j (LRU_insert tj req)
                  = set_tier c0 i (LRU_insert t req)) by congruence.
    assert (Hrm : SLRU_remove (set_tier c0 i (LRU_insert t req)) (req_obj_id req)
                  = Done c) by (rewrite <- Heq; by apply SLRU_remove_after_insert).
    rewrite SLRU_remove_after_insert in Hrm by done. congruence.
  - pose proof (lookup_lt_Some _ _ _ Htj). lia.
  - done.
  - done.
  - intros j' tj' Hj'. apply Hlow. lia.
  - intros j' Hj'. apply lookup_lt_is_Some_2.
    pose proof (lookup_lt_Some _ _ _ Htj). lia.
Qed.

(** Property X16.  An object that no tier can hold is never inserted:
    with [obj_size + per_obj_overhead] above the budget of a tier,
    [SLRU_insert] does not return (it evicts from tier 0 until that tier is
    empty and then evicts from the empty tier); so [SLRU_get] does not
    return either for such an object that misses and passes the guard on
    the cache's own size. *)
Theorem SLRU_insert_oversize_never_returns fuel c req :
  wf c →
  tier_capacity c < req_obj_size req + overhead c →
  (∀ c', SLRU_insert fuel c req ≠ Done c') ∧
  (absent c (req_obj_id req) →
   req_obj_size req + overhead c ≤ total_cache_size c →
   ∀ r c', SLRU_get fuel c req ≠ Done (r, c')).
Proof.
  intros Hwf Hbig. pose proof Hwf as [Hlen _].
  assert (Hins : ∀ c', SLRU_insert fuel c req ≠ Done c').
  { intros c' H.
    apply SLRU_insert_post in H
      as (c0 & i & t & Hsh & Hwf0 & _ & Ht & Hfit & _); [|done].
    pose proof (wf_tier _ _ _ (Hwf0 Hwf) Ht) as (_ & Hcap & Hocc & Hpos & _).
    apply used_nonneg in Hpos.
    rewrite (tier_capacity_same_shape _ _ Hsh) in Hcap.
    destruct Hsh as (_ & Hoh & _).
    unfold tier_full in Hfit. lia. }
  split; [done|].
  intros Habs Hguard r c' H. unfold SLRU.SLRU_get in H.
  rewrite (SLRU_check_absent c req fuel true Hlen Habs) in H.
  cbn [mbind outcome_bind fst snd] in H.
  rewrite decide_True in H by (by left).
  rewrite decide_False in H by lia.
  apply bind_Done in H as (c2 & H & _). by apply Hins in H.
Qed.

(** *** [SLRU_get] returns *)

Lemma occurrences_insert t req :
  occurrences (req_obj_id req) (q (LRU_insert t req)) ≠ 0%nat.
Proof.
  unfold LRU_insert. cbn [q]. rewrite occurrences_cons, has_id_create. lia.
Qed.

Lemma resident_set_tier c k i t x :
  tiers c !! i = Some t → occurrences k (q x) ≠ 0%nat →
  resident (set_tier c i x) k.
Proof.
  intros Ht Ho. apply Exists_exists. exists x. split; [|done].
  apply list_elem_of_lookup. exists i. rewrite tiers_set_tier.
  apply list_lookup_insert_eq. by eapply lookup_lt_Some.
Qed.

Lemma LRU_check_hit_occurrences t req upd :
  fst (LRU_check t req upd) = cache_ck_hit →
  occurrences (req_obj_id req) (q (snd (LRU_check t req upd))) ≠ 0%nat.
Proof.
  unfold SLRU.LRU_check.
  destruct (List.find _ (q t)) as [o|] eqn:Hfind; [|done].
  destruct (is_expired o req); [done|]. intros _. cbn [snd].
  destruct upd.
  - cbn [q]. rewrite occurrences_cons.
    apply find_some in Hfind as [_ ->]. lia.
  - intros H0. apply find_None_occurrences in H0. congruence.
Qed.

Lemma SLRU_check_from_hit_resident fuel req upd n : ∀ i c c',
  SLRU_check_from fuel n i c req upd = Done (cache_ck_hit, c') →
  resident c' (req_obj_id req).
Proof.
  induction n as [|n IH]; intros i c c' H; [done|].
  rewrite SLRU_check_from_S in H.
  apply bind_Done in H as (t & Ht & H). apply tier_Done in Ht. simpl in H.
  destruct (fst (LRU_check t req upd)) eqn:Hres.
  - case_decide.
    + apply promote_post in H
        as (_ & t1 & c3 & tu & _ & _ & _ & _ & Htu & _ & ->).
      eapply resident_set_tier; [exact Htu|apply occurrences_insert].
    + injection H as <-.
      eapply resident_set_tier; [exact Ht|by apply LRU_check_hit_occurrences].
  - by eapply IH.
  - done.
Qed.

Lemma SLRU_check_first_expired fuel c req upd i t :
  Z.of_nat (length (tiers c)) = n_seg (eviction_params c) →
  tiers c !! i = Some t →
  (∀ j tj, (j < i)%nat → tiers c !! j = Some tj →
           occurrences (req_obj_id req) (q tj) = 0%nat) →
  fst (LRU_check t req upd) = cache_ck_expired →
  SLRU_check fuel c req upd = Done (cache_ck_expired, c).
Proof.
  intros Hlen Ht Hlow Hexp. pose proof (lookup_lt_Some _ _ _ Ht) as Hi.
  unfold SLRU.SLRU_check.
  replace (Z.to_nat (n_seg (eviction_params c)))
    with (i + S (length (tiers c) - S i))%nat by lia.
  rewrite SLRU_check_from_skip.
  - rewrite SLRU_check_from_S. simpl. rewrite (tier_eq _ _ _ Ht). simpl.
    rewrite Hexp. rewrite LRU_check_not_hit by (by rewrite Hexp).
    by rewrite set_tier_same.
  - intros j Hj. destruct (lookup_lt_is_Some_2 (tiers c) j) as [tj Htj]; [lia|].
    exists tj. split; [done|].
    rewrite LRU_check_absent; [done|]. apply (Hlow j); [lia|done].
Qed.

Lemma SLRU_insert_total c req :
  wf c →
  0 < n_seg (eviction_params c) →
  0 ≤ req_obj_size req + overhead c →
  req_obj_size req + overhead c ≤ tier_capacity c →
  ∃ f0 c',
    (∀ fuel, (f0 ≤ fuel)%nat → SLRU_insert fuel c req = Done c') ∧
    wf c' ∧ same_shape c c' ∧ resident c' (req_obj_id req).
Proof.
  intros Hwf Hn Hpos Hfits. pose proof Hwf as [Hlen _].
  assert (Hend : ∀ f0 c',
            (∀ fuel, (f0 ≤ fuel)%nat → SLRU_insert fuel c req = Done c') →
            resident c' (req_obj_id req) →
            ∃ f0 c',
              (∀ fuel, (f0 ≤ fuel)%nat → SLRU_insert fuel c req = Done c') ∧
              wf c' ∧ same_shape c c' ∧ resident c' (req_obj_id req)).
  { intros f0 c' Hrun Hres. exists f0, c'. split; [done|].
    destruct (SLRU_insert_keeps f0 c req c' Hwf Hpos (Hrun f0 (le_n _))).
    done. }
  destruct (list_find (λ t, ¬ tier_full c t (req_obj_size req)) (tiers c))
    as [[i t]|] eqn:Hfind.
  - apply list_find_Some in Hfind as (Ht & Hfit & Hlow).
    pose proof (lookup_lt_Some _ _ _ Ht) as Hi.
    apply (Hend 0%nat (set_tier c i (LRU_insert t req))).
    + intros fuel _. unfold SLRU_insert. rewrite <- Hlen, Nat2Z.id.
      apply SLRU_insert_from_fit; try done.
      * lia.
      * intros j tj Hj Htj.
        destruct (decide (tier_full c tj (req_obj_size req))) as [|Hnot];
          [done|].
        destruct (Hlow j tj Htj); [lia|done].
      * intros j Hj. apply lookup_lt_is_Some_2. lia.
    + eapply resident_set_tier; [exact Ht|apply occurrences_insert].
  - apply list_find_None in Hfind.
    assert (Hfull : Forall (λ t, tier_full c t (req_obj_size req)) (tiers c)).
    { eapply Forall_impl; [exact Hfind|]. intros t Hnn. simpl in Hnn.
      destruct (decide (tier_full c t (req_obj_size req))); [done|].
      by destruct Hnn. }
    destruct (lookup_lt_is_Some_2 (tiers c) 0) as [t0 Ht0]; [lia|].
    destruct (evict_until_room c (req_obj_size req) (length (q t0)) t0)
      as (m & Hm & Hbefore & Hfit); [by eapply wf_tier|done|done|].
    apply (Hend (S m) (set_tier c 0 (LRU_insert (evict_n m t0) req))).
    + intros fuel Hfuel. unfold SLRU_insert. rewrite <- Hlen, Nat2Z.id.
      rewrite (SLRU_insert_from_full fuel c req (length (tiers c)) 0) by done.
      simpl. rewrite decide_True by done.
      rewrite (evict_loop _ m c t0) by (first [done|lia]). simpl.
      rewrite (tier_eq _ 0 (evict_n m t0)); last first.
      { rewrite tiers_set_tier. apply list_lookup_insert_eq.
        by eapply lookup_lt_Some. }
      simpl. f_equal. unfold set_tier. simpl.
      by rewrite list_insert_insert_eq.
    + eapply resident_set_tier; [exact Ht0|apply occurrences_insert].
Qed.

(** Property X17.  On a cache that satisfies the invariant, [SLRU_get]
    returns for every request that fits a tier
    ([obj_size + per_obj_overhead] at most [cache_size / n_seg]): all its
    loops (scan, promotion, cooling, eviction) come to an end, the result
    is Miss exactly when no tier held the id, and afterwards the invariant
    holds again and the id is resident. *)
Theorem SLRU_get_returns c req :
  wf c →
  0 < n_seg (eviction_params c) →
  0 ≤ req_obj_size req + overhead c →
  req_obj_size req + overhead c ≤ tier_capacity c →
  ∃ f0 r c',
    (∀ fuel, (f0 ≤ fuel)%nat → SLRU_get fuel c req = Done (r, c')) ∧
    wf c' ∧ same_shape c c' ∧
    resident c' (req_obj_id req) ∧
    (r = cache_ck_miss ↔ absent c (req_obj_id req)).
Proof.
  intros Hwf Hn Hpos Hfits. pose proof Hwf as [Hlen Hall].
  assert (Hguard : ¬ req_obj_size req + overhead c > total_cache_size c).
  { destruct (lookup_lt_is_Some_2 (tiers c) 0) as [t0 Ht0]; [lia|].
    pose proof (wf_tier _ _ _ Hwf Ht0) as (_ & Hcap & Hocc & Hnn & Hle).
    apply used_nonneg in Hnn. unfold tier_capacity in *.
    assert (0 ≤ total_cache_size c).
    { destruct (decide (0 ≤ total_cache_size c)); [done|].
      assert (total_cache_size c / n_seg (eviction_params c) < 0)
        by (apply Z.div_lt_upper_bound; lia).
      lia. }
    assert (total_cache_size c / n_seg (eviction_params c) ≤ total_cache_size c)
      by (apply Z.div_le_upper_bound; nia).
    lia. }
  assert (Hmiss : ∀ r,
            r ≠ cache_ck_hit →
            (∀ fuel, SLRU_check fuel c req true = Done (r, c)) →
            ∃ f0 c',
              (∀ fuel, (f0 ≤ fuel)%nat → SLRU_get fuel c req = Done (r, c')) ∧
              wf c' ∧ same_shape c c' ∧ resident c' (req_obj_id req)).
  { intros r Hr Hck.
    destruct (SLRU_insert_total c req Hwf Hn Hpos Hfits)
      as (f0 & c' & Hins & Hwf' & Hsh' & Hres').
    exists f0, c'. split; [|done]. intros fuel Hfuel.
    unfold SLRU.SLRU_get. rewrite Hck. cbn [mbind outcome_bind fst snd].
    rewrite decide_True by (destruct r; auto; done).
    rewrite decide_False by done.
    by rewrite (Hins fuel Hfuel). }
  destruct (list_find (λ t, occurrences (req_obj_id req) (q t) ≠ 0%nat) (tiers c))
    as [[i t]|] eqn:Hfind.
  - apply list_find_Some in Hfind as (Ht & Hocc & Hlow').
    assert (Hlow : ∀ j tj, (j < i)%nat → tiers c !! j = Some tj →
                     occurrences (req_obj_id req) (q tj) = 0%nat).
    { intros j tj Hj Htj. specialize (Hlow' j tj Htj Hj). lia. }
    assert (Hnabs : ¬ absent c (req_obj_id req)).
    { intros Habs. by apply Hocc, (absent_tier c _ i). }
    destruct (fst (LRU_check t req true)) eqn:Hres.
    + destruct (SLRU_check_hit_total is_expired c req true i t)
        as (f0 & c1 & Hck); try done.
      pose proof (Hck f0 (le_n _)) as H0. unfold SLRU.SLRU_check in H0.
      pose proof (SLRU_check_from_hit_resident _ _ _ _ _ _ _ H0) as Hres1.
      apply SLRU_check_from_post in H0 as [Hsh Hwf1].
      exists f0, cache_ck_hit, c1. split.
      { intros fuel Hfuel. unfold SLRU.SLRU_get. rewrite (Hck fuel Hfuel).
        cbn [mbind outcome_bind fst snd].
        rewrite decide_False; [done|]. by intros [|]. }
      split; [auto|]. split; [done|]. split; [done|]. split; done.
    + by apply LRU_check_miss_occurrences in Hres.
    + destruct (Hmiss cache_ck_expired) as (f0 & c' & Hrun & Hrest); [done| |].
      { intros fuel. by eapply SLRU_check_first_expired. }
      exists f0, cache_ck_expired, c'. split; [done|].
      destruct Hrest as (? & ? & ?).
      split; [done|]. split; [done|]. split; [done|]. split; done.
  - apply list_find_None in Hfind.
    assert (Habs : absent c (req_obj_id req)).
    { eapply Forall_impl; [exact Hfind|]. intros t Ho. simpl in Ho. lia. }
    destruct (Hmiss cache_ck_miss) as (f0 & c' & Hrun & Hrest); [done| |].
    { intros fuel. by apply SLRU_check_absent. }
    exists f0, cache_ck_miss, c'. split; [done|].
    destruct Hrest as (? & ? & ?).
    split; [done|]. split; [done|]. split; [done|]. split; done.
Qed.

Lemma occurrences_objects_set_tier c k i t x :
  tiers c !! i = Some t →
  (occurrences k (objects (set_tier c i x)) + occurrences k (q t)
   = occurrences k (objects c) + occurrences k (q x))%nat.
Proof.
  intros Ht. pose proof (lookup_lt_Some _ _ _ Ht) as Hi.
  unfold objects. rewrite tiers_set_tier, insert_take_drop by done.
  rewrite <- (take_drop_middle (tiers c) i t Ht) at 3.
  rewrite !fmap_app, !fmap_cons, !concat_app, !concat_cons, !occurrences_app.
  lia.
Qed.

Lemma occurrences_objects_tier c k i t :
  tiers c !! i = Some t →
  (occurrences k (q t) ≤ occurrences k (objects c))%nat.
Proof.
  intros Ht. unfold objects.
  rewrite <- (take_drop_middle (tiers c) i t Ht).
  rewrite fmap_app, fmap_cons, concat_app, concat_cons, !occurrences_app.
  lia.
Qed.

(** Property X18.  When the lookup of [SLRU_get] finds the id expired,
    the expired object stays where it is and the request is inserted as a
    new object: with room in some tier, it goes to the lowest tier with
    room, and the cache afterwards holds the id once more than before, so
    at least twice. *)
Theorem SLRU_get_expired_inserts_second_object fuel c req i t :
  Z.of_nat (length (tiers c)) = n_seg (eviction_params c) →
  tiers c !! i = Some t →
  (∀ j tj, (j < i)%nat → tiers c !! j = Some tj →
           occurrences (req_obj_id req) (q tj) = 0%nat) →
  fst (LRU_check t req true) = cache_ck_expired →
  req_obj_size req + overhead c ≤ total_cache_size c →
  Exists (λ t, ¬ tier_full c t (req_obj_size req)) (tiers c) →
  ∃ j tj,
    tiers c !! j = Some tj ∧
    ¬ tier_full c tj (req_obj_size req) ∧
    (∀ j' tj', (j' < j)%nat → tiers c !! j' = Some tj' →
               tier_full c tj' (req_obj_size req)) ∧
    SLRU_get fuel c req
    = Done (cache_ck_expired, set_tier c j (LRU_insert tj req)) ∧
    occurrences (req_obj_id req) (objects (set_tier c j (LRU_insert tj req)))
    = S (occurrences (req_obj_id req) (objects c)) ∧
    (2 ≤ occurrences (req_obj_id req)
           (objects (set_tier c j (LRU_insert tj req))))%nat.
Proof.
  intros Hlen Ht Hlow Hexp Hguard Hroom.
  destruct (list_find (λ t, ¬ tier_full c t (req_obj_size req)) (tiers c))
    as [[j tj]|] eqn:Hfind; last first.
  { apply list_find_None in Hfind. apply Exists_exists in Hroom as (x & Hx & Hfit).
    rewrite Forall_forall in Hfind. by destruct (Hfind x Hx). }
  apply list_find_Some in Hfind as (Htj & Hfit & Hfull').
  assert (Hfull : ∀ j' tj', (j' < j)%nat → tiers c !! j' = Some tj' →
                    tier_full c tj' (req_obj_size req)).
  { intros j' tj' Hj' Htj'.
    destruct (decide (tier_full c tj' (req_obj_size req))); [done|].
    by destruct (Hfull' j' tj' Htj' Hj'). }
  pose proof (lookup_lt_Some _ _ _ Htj) as Hj.
  exists j, tj. split; [done|]. split; [done|]. split; [done|].
  assert (Hocc : occurrences (req_obj_id req) (q t) ≠ 0%nat).
  { intros H0. apply (LRU_check_miss_occurrences _ _ true) in H0. congruence. }
  pose proof (occurrences_objects_tier c (req_obj_id req) i t Ht) as Hle.
  pose proof (occurrences_objects_set_tier c (req_obj_id req) j tj
                (LRU_insert tj req) Htj) as Hsum.
  unfold LRU_insert in Hsum at 2. cbn [q] in Hsum.
  rewrite occurrences_cons, has_id_create in Hsum.
  split; [|split; lia].
  unfold SLRU.SLRU_get.
  rewrite (SLRU_check_first_expired fuel c req true i t) by done.
  cbn [mbind outcome_bind fst snd].
  rewrite decide_True by (by right). rewrite decide_False by lia.
  unfold SLRU_insert. rewrite <- Hlen, Nat2Z.id.
  rewrite (SLRU_insert_from_fit fuel c req _ 0 j tj); try done.
  - lia.
  - intros j' tj' Hj' Htj'. apply (Hfull j'); [lia|done].
  - intros j' Hj'. apply lookup_lt_is_Some_2. lia.
Qed.

(** Claim C3.  The guard of [SLRU_get] is there to keep an object that the
    cache cannot hold out of [SLRU_insert], but it compares
    [obj_size + per_obj_overhead] with the cache's own [cache_size], the
    size requested at construction, where the tiers together hold only
    [n_seg * (cache_size / n_seg)] and one tier [cache_size / n_seg].  For
    a request above the sum of the tier budgets whose lookup did not hit:
    above [cache_size] the lookup result is returned and nothing is
    inserted, as the claim says; up to [cache_size] the guard lets the
    request through to [SLRU_insert], which cannot return for it, so
    [SLRU_get] does not return the lookup result, nor anything else. *)
Theorem SLRU_get_guard_misses_tier_sum fuel c req r c1 :
  wf c →
  0 < n_seg (eviction_params c) →
  SLRU_check fuel c req true = Done (r, c1) →
  r ≠ cache_ck_hit →
  req_obj_size req + overhead c > sum_capacity c →
  sum_capacity c
  = n_seg (eviction_params c)
    * (total_cache_size c / n_seg (eviction_params c)) ∧
  (req_obj_size req + overhead c > total_cache_size c →
     SLRU_get fuel c req = Done (r, c1)) ∧
  (req_obj_size req + overhead c ≤ total_cache_size c →
     SLRU_get fuel c req = (c2 ← SLRU_insert fuel c1 req; Done (r, c2)) ∧
     (∀ c2, SLRU_insert fuel c1 req ≠ Done c2) ∧
     (∀ r' c', SLRU_get fuel c req ≠ Done (r', c'))).
Proof.
  intros Hwf Hn Hck Hr Hbig.
  pose proof (sum_capacity_wf c Hwf) as Hsum.
  pose proof (tier_capacity_nonneg c Hwf Hn) as Hcap.
  destruct (SLRU_get_after_lookup is_expired fuel c req r c1 Hck Hr)
    as [Habove Hbelow].
  split; [exact Hsum|]. split; [done|].
  intros Hsmall. specialize (Hbelow Hsmall).
  assert (Hins : ∀ c2, SLRU_insert fuel c1 req ≠ Done c2).
  { intros c2. pose proof Hck as Hpost. unfold SLRU.SLRU_check in Hpost.
    apply SLRU_check_from_post in Hpost as [Hsh Hwf1].
    apply SLRU_insert_oversize.
    - apply Hwf1; [done|]. nia.
    - rewrite (tier_capacity_same_shape _ _ Hsh).
      destruct Hsh as (_ & -> & _). nia. }
  split; [done|]. split; [done|].
  intros r' c' H. rewrite Hbelow in H.
  apply bind_Done in H as (c2 & H & _). by apply Hins in H.
Qed.

End Calls.

Lemma ex_init_wf : wf ex_init.
Proof.
  split; [reflexivity|].
  repeat constructor; simpl; lia.
Qed.

Lemma ex_full_wf : wf ex_full.
Proof.
  split; [reflexivity|].
  repeat constructor; simpl; lia.
Qed.

Lemma run_keeps_cache_invariant_witness :
  ∃ c',
    run ex_expired 5 ex_cache
        [Get (mk_req 2 1); Insert (mk_req 7 1); Evict; Remove 3;
         Check (mk_req 5 1) false]
      = Done c' ∧
    wf c' ∧ same_shape ex_cache c' ∧ sum_occupied c' ≤ sum_capacity c'.
Proof.
  eexists. split; [vm_compute; reflexivity|].
  eapply (run_keeps_cache_invariant ex_expired 5
            [Get (mk_req 2 1); Insert (mk_req 7 1); Evict; Remove 3;
             Check (mk_req 5 1) false] ex_cache);
    [exact ex_cache_wf| |vm_compute; reflexivity].
  repeat constructor; simpl; lia.
Defined.

Lemma SLRU_check_miss_iff_absent_witness :
  SLRU_check ex_expired 0 ex_cache (mk_req 9 1) false
  = Done (cache_ck_miss, ex_cache).
Proof.
  destruct (SLRU_check_miss_iff_absent ex_expired ex_cache (mk_req 9 1))
    as [Hmiss _]; [reflexivity|].
  apply Hmiss. repeat constructor.
Defined.

Lemma SLRU_check_flag_only_matters_at_top_witness :
  SLRU_check ex_expired 3 ex_cache (mk_req 2 1) false
  = SLRU_check ex_expired 3 ex_cache (mk_req 2 1) true ∧
  SLRU_check ex_expired 3 ex_cache (mk_req 2 1) false
  = Done (cache_ck_hit,
          mk_cache 6 0
            (mk_params 3
               [mk_lru 2 2 0 [mk_obj 4 1; mk_obj 1 1];
                mk_lru 2 2 0 [mk_obj 2 1; mk_obj 3 1];
                mk_lru 2 1 0 [mk_obj 5 1]])).
Proof.
  split; [|vm_compute; reflexivity].
  apply (SLRU_check_flag_only_matters_at_top ex_expired 3 ex_cache (mk_req 2 1)).
  intros t [= <-]. reflexivity.
Defined.

Lemma SLRU_check_top_tier_hit_witness :
  SLRU_check ex_expired 0 ex_full (mk_req 6 1) false
  = Done (cache_ck_hit, ex_full) ∧
  SLRU_check ex_expired 0 ex_full (mk_req 6 1) true
  = Done (cache_ck_hit,
          set_tier ex_full 2 (mk_lru 2 2 0 [mk_obj 6 1; mk_obj 5 1])).
Proof.
  apply (SLRU_check_top_tier_hit ex_expired 0 ex_full (mk_req 6 1) 2
           (mk_lru 2 2 0 [mk_obj 5 1; mk_obj 6 1]) (mk_obj 6 1));
    try reflexivity.
  intros j tj Hj Htj.
  destruct j as [|[|j]]; [| |lia]; injection Htj as <-; reflexivity.
Defined.

Lemma SLRU_remove_first_match_witness :
  SLRU_remove ex_cache 9 = Done ex_cache ∧
  SLRU_remove ex_cache 3
  = Done (set_tier ex_cache 1 (mk_lru 2 1 0 [mk_obj 4 1])).
Proof.
  destruct (SLRU_remove_first_match ex_cache 9) as [_ H9].
  destruct (SLRU_remove_first_match ex_cache 3) as [_ H3].
  split.
  - apply H9; [reflexivity|simpl; lia|repeat constructor].
  - destruct (H3 eq_refl) as [_ Hfound].
    destruct (Hfound 1%nat (mk_lru 2 2 0 [mk_obj 3 1; mk_obj 4 1]))
      as [Hrm _]; [reflexivity|simpl; lia| |exact Hrm].
    intros j tj Hj Htj.
    destruct j as [|j]; [|lia]. injection Htj as <-. reflexivity.
Defined.

Lemma SLRU_insert_then_remove_witness :
  ∃ c2,
    SLRU_remove
      (set_tier ex_cache 2 (LRU_insert (mk_lru 2 1 0 [mk_obj 5 1]) (mk_req 7 1)))
      7 = Done c2 ∧
    wf c2 ∧
    absent c2 7 ∧
    (∀ fuel' upd,
       SLRU_check ex_expired fuel' c2 (mk_req 7 1) upd = Done (cache_ck_miss, c2)) ∧
    (Exists (λ t, ¬ tier_full ex_cache t 1) (tiers ex_cache) → c2 = ex_cache).
Proof.
  apply (SLRU_insert_then_remove ex_expired 0 ex_cache (mk_req 7 1)).
  - exact ex_cache_wf.
  - repeat constructor.
  - reflexivity.
Defined.

Lemma SLRU_evict_takes_to_evict_witness :
  SLRU_to_evict ex_cache = Done (Some (mk_obj 2 1)) ∧
  ∃ t q', tiers ex_cache !! 0%nat = Some t ∧ q t = q' ++ [mk_obj 2 1] ∧
          SLRU_evict ex_cache
          = Done (set_tier ex_cache 0 (evicted t (mk_obj 2 1) q')) ∧
          (wf ex_cache → wf (set_tier ex_cache 0 (evicted t (mk_obj 2 1) q'))).
Proof.
  split; [reflexivity|].
  destruct (SLRU_evict_takes_to_evict ex_cache) as [H _].
  apply H. reflexivity.
Defined.

Lemma SLRU_insert_oversize_never_returns_witness :
  (∀ c', SLRU_insert 5 ex_init (mk_req 1 5) ≠ Done c') ∧
  (∀ r c', SLRU_get ex_expired 5 ex_init (mk_req 1 5) ≠ Done (r, c')) ∧
  SLRU_get ex_expired 5 ex_init (mk_req 1 5) = Undefined.
Proof.
  destruct (SLRU_insert_oversize_never_returns ex_expired 5 ex_init (mk_req 1 5)
              ex_init_wf) as [Hins Hget]; [vm_compute; reflexivity|].
  split; [exact Hins|]. split; [|vm_compute; reflexivity].
  apply Hget; [repeat constructor|simpl; lia].
Defined.

Lemma SLRU_get_returns_witness :
  ∃ f0 r c',
    (∀ fuel, (f0 ≤ fuel)%nat →
       SLRU_get ex_expired fuel ex_full (mk_req 7 1) = Done (r, c')) ∧
    wf c' ∧ same_shape ex_full c' ∧
    resident c' 7 ∧
    (r = cache_ck_miss ↔ absent ex_full 7).
Proof.
  apply (SLRU_get_returns ex_expired ex_full (mk_req 7 1) ex_full_wf).
  - simpl. lia.
  - simpl. lia.
  - vm_compute. congruence.
Defined.

Lemma SLRU_get_expired_inserts_second_object_witness :
  ∃ j tj,
    tiers ex_cache !! j = Some tj ∧
    ¬ tier_full ex_cache tj 1 ∧
    (∀ j' tj', (j' < j)%nat → tiers ex_cache !! j' = Some tj' →
               tier_full ex_cache tj' 1) ∧
    SLRU_get ex_expired 0 ex_cache (mk_req 4 1)
    = Done (cache_ck_expired, set_tier ex_cache j (LRU_insert tj (mk_req 4 1))) ∧
    occurrences 4 (objects (set_tier ex_cache j (LRU_insert tj (mk_req 4 1))))
    = S (occurrences 4 (objects ex_cache)) ∧
    (2 ≤ occurrences 4
           (objects (set_tier ex_cache j (LRU_insert tj (mk_req 4 1)))))%nat.
Proof.
  apply (SLRU_get_expired_inserts_second_object ex_expired 0 ex_cache (mk_req 4 1)
           1 (mk_lru 2 2 0 [mk_obj 3 1; mk_obj 4 1])).
  - reflexivity.
  - reflexivity.
  - intros j tj Hj Htj.
    destruct j as [|j]; [|lia]. injection Htj as <-. reflexivity.
  - reflexivity.
  - simpl. lia.
  - apply Exists_cons_tl, Exists_cons_tl, Exists_cons_hd.
    unfold tier_full. simpl. lia.
Defined.

Lemma SLRU_get_guard_misses_tier_sum_witness :
  SLRU_init (mk_common 10 0) 3 = Done ex_init ∧
  sum_capacity ex_init = 3 * (10 / 3) ∧
  SLRU_check ex_expired 1 ex_init (mk_req 1 10) true
    = Done (cache_ck_miss, ex_init) ∧
  SLRU_get ex_expired 1 ex_init (mk_req 1 10) = Undefined ∧
  (∀ r' c', SLRU_get ex_expired 1 ex_init (mk_req 1 10) ≠ Done (r', c')) ∧
  SLRU_get ex_expired 1 ex_init (mk_req 1 11) = Done (cache_ck_miss, ex_init).
Proof.
  split; [reflexivity|].
  destruct (SLRU_get_guard_misses_tier_sum ex_expired 1 ex_init (mk_req 1 10)
              cache_ck_miss ex_init ex_init_wf)
    as (Hsum & _ & Hsmall);
    [simpl; lia|reflexivity|done|vm_compute; reflexivity|].
  destruct (SLRU_get_guard_misses_tier_sum ex_expired 1 ex_init (mk_req 1 11)
              cache_ck_miss ex_init ex_init_wf)
    as (_ & Hlarge & _);
    [simpl; lia|reflexivity|done|vm_compute; reflexivity|].
  split; [exact Hsum|]. split; [reflexivity|].
  split; [vm_compute; reflexivity|].
  split.
  - destruct Hsmall as (_ & _ & Hnever); [simpl; lia|exact Hnever].
  - apply Hlarge. simpl. lia.
Defined.

(** Claim C4 as stated fails for a request that no tier can hold: in the
    cache built for ten bytes in three tiers (three bytes each, all empty)
    no tier fits an object of five bytes, and [SLRU_insert] does not
    evict until tier 0 fits it and insert it there: it evicts from the
    empty tier 0 and never returns. *)
Lemma SLRU_insert_oversize_not_inserted :
  Forall (λ t, tier_full ex_init t 5) (tiers ex_init) ∧
  SLRU_insert 1 ex_init (mk_req 1 5) = Undefined ∧
  (∀ fuel c', SLRU_insert fuel ex_init (mk_req 1 5) ≠ Done c').
Proof.
  split; [repeat constructor; unfold tier_full; simpl; lia|].
  split; [vm_compute; reflexivity|].
  intros fuel c'. apply SLRU_insert_oversize; [exact ex_init_wf|].
  vm_compute. reflexivity.
Qed.

End SLRU_Facts.
